(** * Drum grid: remapping, notation and playback scheduling

    A shallow embedding of the drum-notation application: the grid
    operations and the notation loop of the [App] / [Notation] components,
    and the transport of [makeAudioEngine] (src/audio/engine.js).

    Conventions.  JavaScript numbers that hold step counts and indices are
    natural numbers here, velocities are integers ([Z]), and times, tempo
    and gains are exact rationals ([Q]).  A JavaScript object used as a map
    from instrument id to array is a [gmap string (list Z)]; an array is
    the list of its elements, a read outside it gives [None]
    ([undefined]).  A TypeError is a result of its own, and so is a loop
    that has not ended within its fuel.

    The engine is a closure over mutable variables; it is a record here,
    next to a record for the page around it (audio clock, interval timers,
    [play] calls suspended at their [await], sample starts asked for), and
    what can happen in the page is a list of events run in order.

    Where the embedding stops.  The engine computes its times in binary64
    and they are rationals here, so a sum or a comparison of times is that
    of the rationals; statements about the engine are about the cursor,
    the timers and the samples a poll asks for, or say which arithmetic
    they lean on.  [src.start (time)] is recorded as a start: the Web
    Audio [start] rejects a negative time, and statements that count on a
    start are for times that are not negative.  The [onStep] callback is
    recorded as a call with its argument: it is user code, and what it
    does to the engine from inside the loop of a poll is not modelled;
    statements that depend on it are for an engine without a callback.
    Bar counts are whole numbers: the number field of the page also takes
    negative, fractional and huge numbers when they are typed, and those
    are outside the actions of the page modelled here. *)

From Stdlib Require Import ZArith QArith Qround Lia Lqa.
From stdpp Require Import gmap strings list fin_maps pretty.
From Stdlib Require Import PrimFloat.

Local Open Scope string_scope.
Local Open Scope nat_scope.

(** ** Instruments *)

Record Instrument := mkInstrument {
  id : string;
  label : string;
  midi : Z
}.

Definition INSTRUMENTS : list Instrument := [
  mkInstrument "kick" "Kick" 36;
  mkInstrument "snare" "Snare" 38;
  mkInstrument "hihat" "Hi-Hat" 42;
  mkInstrument "hihatFoot" "HH Foot" 44;
  mkInstrument "tom2" "Tom 2" 45;
  mkInstrument "tom1" "Tom 1" 48;
  mkInstrument "floorTom" "Floor Tom" 41;
  mkInstrument "ride" "Ride" 51;
  mkInstrument "crash1" "Crash 1" 49;
  mkInstrument "crash2" "Crash 2" 57
].

Definition VELOCITY_CYCLE : list Z := [0; 100]%Z.

(** [NOTATION_MAP]: instrument id to staff key (and the x-notehead flag). *)
Definition NOTATION_MAP : list (string * (string * bool)) := [
  ("kick", ("f/4", false));
  ("snare", ("c/5", false));
  ("hihat", ("g/5/x2", true));
  ("hihatFoot", ("f/4/x2", true));
  ("ride", ("f/5/x2", true));
  ("crash1", ("a/5/x2", true));
  ("crash2", ("c/6/x2", true));
  ("tom2", ("a/4", false));
  ("tom1", ("c/5", false));
  ("floorTom", ("f/4", false))
].

(** ** The grid *)

Abbreviation Grid := (gmap string (list Z)).

(** [Math.round (x / d)] for natural [x] and positive [d]: the nearest
    integer, a half rounded up. *)
Definition js_round_div (x d : nat) : nat := (2 * x + d) / (2 * d).

Record TimeSig := mkTimeSig { ts_n : nat; ts_d : nat }.

(** [computeStepsPerBar (ts, res)]. *)
Definition computeStepsPerBar (ts : TimeSig) (res : nat) : nat :=
  Nat.max 1 (js_round_div (ts_n ts * res) (ts_d ts)).

(** [prevGrid[id]?.[i] ?? 0]. *)
Definition velocityAt (g : Grid) (inst : string) (i : nat) : Z :=
  default 0%Z (g !! inst ≫= (.!! i)).

(** The new step of a bar that old step [s] is moved to; an integer, as
    [newStepsPerBar - 1] is negative when [newStepsPerBar] is 0. *)
Definition clamped (oldStepsPerBar newStepsPerBar s : nat) : Z :=
  let newLocal := js_round_div (s * newStepsPerBar) oldStepsPerBar in
  Z.min (Z.of_nat newStepsPerBar - 1) (Z.max 0 (Z.of_nat newLocal)).

(** [out[i] = Math.max(out[i] ?? 0, val)].  A negative index names a
    property, not an element, and the elements stay as they are.  An index
    at or above the length would make the array grow; [remapGrid] never
    produces one (lemma [remap_newGlobal_in_range]) and the array is left as it
    is there. *)
Definition store_max (out : list Z) (i : Z) (val : Z) : list Z :=
  if decide (0 ≤ i)%Z
  then <[Z.to_nat i := Z.max (default 0%Z (out !! Z.to_nat i)) val]> out
  else out.

(** The body of the loop over [s]. *)
Definition remap_step (prevGrid : Grid) (inst : string)
    (oldStepsPerBar newStepsPerBar b : nat) (out : list Z) (s : nat) : list Z :=
  let oldGlobal := b * oldStepsPerBar + s in
  let val := velocityAt prevGrid inst oldGlobal in
  if (val =? 0)%Z then out
  else
    let newGlobal := (Z.of_nat (b * newStepsPerBar)
                      + clamped oldStepsPerBar newStepsPerBar s)%Z in
    store_max out newGlobal val.

Definition remap_bar (prevGrid : Grid) (inst : string)
    (oldStepsPerBar newStepsPerBar : nat) (out : list Z) (b : nat) : list Z :=
  foldl (remap_step prevGrid inst oldStepsPerBar newStepsPerBar b) out
        (seq 0 oldStepsPerBar).

Definition remap_row (bars : nat) (prevGrid : Grid) (inst : string)
    (oldStepsPerBar newStepsPerBar : nat) : list Z :=
  foldl (remap_bar prevGrid inst oldStepsPerBar newStepsPerBar)
        (replicate (bars * newStepsPerBar) 0%Z)
        (seq 0 bars).

(** [remapGrid]; [bars] is the component state the closure reads. *)
Definition remapGrid (bars : nat) (prevGrid : Grid)
    (oldStepsPerBar newStepsPerBar : nat) : Grid :=
  foldl (λ next inst,
           <[id inst := remap_row bars prevGrid (id inst)
                                  oldStepsPerBar newStepsPerBar]> next)
        ∅ INSTRUMENTS.

(** ** Toggling a cell *)

(** [arr.indexOf(v)]: the first index holding [v], or -1. *)
Fixpoint indexOf (arr : list Z) (v : option Z) : Z :=
  match arr with
  | [] => (-1)%Z
  | x :: rest =>
      if decide (v = Some x) then 0%Z
      else let k := indexOf rest v in
           if (k <? 0)%Z then (-1)%Z else (k + 1)%Z
  end.

(** [VELOCITY_CYCLE[(VELOCITY_CYCLE.indexOf(current) + 1) % VELOCITY_CYCLE.length]];
    the index is always inside the array. *)
Definition nextVelocity (current : option Z) : Z :=
  let k := Z.rem (indexOf VELOCITY_CYCLE current + 1)
                 (Z.of_nat (length VELOCITY_CYCLE)) in
  nth (Z.to_nat k) VELOCITY_CYCLE 0%Z.

(** The updater that [cycleVelocity (inst, idx)] hands to [setGrid].
    [None] is the TypeError of reading an index of a missing row. *)
Definition cycleVelocity (inst : string) (idx : nat) (prev : Grid) : option Grid :=
  match prev !! inst with
  | None => None
  | Some row =>
      let current := row !! idx in
      let nextVal := nextVelocity current in
      Some (<[inst := imap (λ i v, if decide (i = idx) then nextVal else v) row]> prev)
  end.

(** ** Notation: from the grid to the notes of each bar *)

(** What running a piece of the component gives: a value, the TypeError of
    indexing a missing row ([grid[inst.id][i]] with [grid[inst.id]]
    undefined), or a loop that has not finished within its fuel. *)
Inductive Result (A : Type) : Type :=
  | Ok (a : A)
  | TypeError
  | OutOfFuel.
Arguments Ok {A} a.
Arguments TypeError {A}.
Arguments OutOfFuel {A}.

Definition rbind {A B : Type} (r : Result A) (k : A → Result B) : Result B :=
  match r with
  | Ok a => k a
  | TypeError => TypeError
  | OutOfFuel => OutOfFuel
  end.

Notation "x ←r e1 ; e2" := (rbind e1 (λ x, e2))
  (at level 200, e1 at level 100, e2 at level 200, right associativity,
   format "x  ←r  e1 ;  '/' e2").

(** A [StaveNote] as the component builds it. *)
Record StaveNote := mkStaveNote {
  keys : list string;
  duration : string;
  clef : string;
  stem_direction : option Z
}.

(** [val !== 0] for an array read: [undefined] is not 0. *)
Definition nonzero (val : option Z) : bool := negb (bool_decide (val = Some 0%Z)).

Definition notationKey (inst : string) : option string :=
  fst <$> (snd <$> find (λ e, bool_decide (fst e = inst)) NOTATION_MAP).

Section Notation.

Variable grid : Grid.
Variables resolution bars stepsPerBar : nat.
Variable timeSig : TimeSig.
Variables mergeRests mergeNotes : bool.

Definition dur : string :=
  if resolution =? 4 then "q" else if resolution =? 8 then "8" else "16".

(** The [INSTRUMENTS.forEach] that fills [keys]. *)
Fixpoint collectKeys (insts : list Instrument) (globalIdx : nat)
    (acc : list string) : Result (list string) :=
  match insts with
  | [] => Ok acc
  | inst :: rest =>
      match grid !! id inst with
      | None => TypeError
      | Some row =>
          if nonzero (row !! globalIdx)
          then match notationKey (id inst) with
               | None => TypeError
               | Some key => collectKeys rest globalIdx (acc ++ [key])
               end
          else collectKeys rest globalIdx acc
      end
  end.

Definition keysAt (globalIdx : nat) : Result (list string) :=
  collectKeys INSTRUMENTS globalIdx [].

(** [hasAnyHitAt]: returns at the first instrument with a hit. *)
Fixpoint anyHit (insts : list Instrument) (absIdx : nat) : Result bool :=
  match insts with
  | [] => Ok false
  | inst :: rest =>
      match grid !! id inst with
      | None => TypeError
      | Some row =>
          if nonzero (row !! absIdx) then Ok true else anyHit rest absIdx
      end
  end.

Definition hasAnyHitAt (absIdx : nat) : Result bool := anyHit INSTRUMENTS absIdx.

Definition isStepEmpty (absIdx : nat) : Result bool :=
  h ←r hasAnyHitAt absIdx; Ok (negb h).

Definition stepsPerBeat : nat :=
  Nat.max 1 (js_round_div resolution (ts_d timeSig)).

Definition subInBeat (s : nat) : nat :=
  if stepsPerBeat =? 0 then 0 else s mod stepsPerBeat.

(** [e1 && e2] on two emptiness tests: the second runs only when the
    first holds. *)
Definition andThen (e1 e2 : Result bool) : Result bool :=
  x ←r e1; if x then e2 else Ok false.

(** An [if (cond) { if (empties) { push; s += k; continue; } }] of the
    loop body: [Some] is the note pushed and the steps consumed, [None]
    falls through to the code below. *)
Definition attempt (cond : bool) (empties : Result bool)
    (out : StaveNote * nat) : Result (option (StaveNote * nat)) :=
  if cond then e ←r empties; Ok (if e then Some out else None)
  else Ok None.

Definition orElse (a b : Result (option (StaveNote * nat)))
    : Result (option (StaveNote * nat)) :=
  r ←r a; match r with Some x => Ok (Some x) | None => b end.

Definition noteOf (ks : list string) (d : string) : StaveNote :=
  mkStaveNote ks d "percussion" (Some 1%Z).

Definition restOf (d : string) : StaveNote :=
  mkStaveNote ["b/4"] d "percussion" None.

(** The block under [--- Merge NOTES ---] and, with rests for notes,
    the one under [--- Merge RESTS ---]: the source writes the same three
    conditionals twice, with ["q"], ["8"] and a stemmed note in the
    first and ["qr"], ["8r"] and a rest in the second.  [mk] builds the
    note from its duration, [dq] and [d8] are the two durations. *)
Definition mergeAt (mk : string → StaveNote) (dq d8 : string) (b s : nat)
    : Result (option (StaveNote * nat)) :=
  let sub := subInBeat s in
  let at_ k := b * stepsPerBar + (s + k) in
  orElse
    (attempt ((resolution =? 8) && (stepsPerBeat =? 2) && (sub =? 0)
              && (s + 1 <? stepsPerBar))
             (isStepEmpty (at_ 1)) (mk dq, 2))
  (orElse
    (if (resolution =? 16) && (stepsPerBeat =? 4)
     then orElse
            (attempt ((sub =? 0) && (s + 3 <? stepsPerBar))
                     (andThen (isStepEmpty (at_ 1))
                        (andThen (isStepEmpty (at_ 2)) (isStepEmpty (at_ 3))))
                     (mk dq, 4))
            (attempt (((sub =? 0) || (sub =? 2)) && (s + 1 <? stepsPerBar))
                     (isStepEmpty (at_ 1)) (mk d8, 2))
     else Ok None)
    (attempt ((resolution =? 16) && (stepsPerBeat =? 2) && (sub =? 0)
              && (s + 1 <? stepsPerBar))
             (isStepEmpty (at_ 1)) (mk d8, 2))).

(** One turn of [while (s < stepsPerBar)]: the note pushed and the
    amount added to [s]. *)
Definition stepAt (b s : nat) : Result (StaveNote * nat) :=
  let globalIdx := b * stepsPerBar + s in
  ks ←r keysAt globalIdx;
  let isRest := length ks =? 0 in
  mn ←r (if mergeNotes && negb isRest
         then mergeAt (noteOf ks) "q" "8" b s else Ok None);
  match mn with
  | Some out => Ok out
  | None =>
      mr ←r (if mergeRests && isRest
             then mergeAt restOf "qr" "8r" b s else Ok None);
      match mr with
      | Some out => Ok out
      | None =>
          if isRest then Ok (restOf (dur +:+ "r"), 1)
          else Ok (noteOf ks dur, 1)
      end
  end.

(** The [while] loop of bar [b], from cursor [s]. *)
Fixpoint notesFrom (fuel : nat) (b s : nat) : Result (list StaveNote) :=
  if stepsPerBar <=? s then Ok []
  else match fuel with
       | 0 => OutOfFuel
       | S fuel' =>
           out ←r stepAt b s;
           rest ←r notesFrom fuel' b (s + snd out);
           Ok (fst out :: rest)
       end.

(** The [notes] of bar [b]; a bar takes at most [stepsPerBar] turns. *)
Definition barNotes (b : nat) : Result (list StaveNote) :=
  notesFrom stepsPerBar b 0.

(** The [for (let b = 0; b < bars; b++)] loop: the notes of every bar. *)
Fixpoint barsFrom (bs : list nat) : Result (list (list StaveNote)) :=
  match bs with
  | [] => Ok []
  | b :: rest =>
      notes ←r barNotes b;
      more ←r barsFrom rest;
      Ok (notes :: more)
  end.

Definition Notation_notes : Result (list (list StaveNote)) :=
  barsFrom (seq 0 bars).

End Notation.

(** The length of a duration in whole notes (VexFlow: ["q"] a quarter,
    ["8"] an eighth, ["16"] a sixteenth; a trailing ["r"] makes it a
    rest of the same length). *)
Definition wholeNotes (d : string) : Q :=
  if bool_decide (d = "q") || bool_decide (d = "qr") then 1 # 4
  else if bool_decide (d = "8") || bool_decide (d = "8r") then 1 # 8
  else if bool_decide (d = "16") || bool_decide (d = "16r") then 1 # 16
  else 0.

Definition totalDuration (notes : list StaveNote) : Q :=
  foldr (λ n acc, Qplus (wholeNotes (duration n)) acc) 0%Q notes.

(** ** The audio engine (makeAudioEngine) *)

(** A decoded sample; only its presence matters to the engine. *)
Record AudioBuffer := mkAudioBuffer { buffer_tag : nat }.

(** What [getGridSnapshot()] returns; [columns] may be absent. *)
Record Snapshot := mkSnapshot {
  snap_grid : Grid;
  snap_instruments : list Instrument;
  snap_columns : option Z
}.

(** One [src.start(time)]: a sample handed to the audio backend, with the
    value given to its gain node. *)
Record SourceStart := mkSourceStart {
  start_inst : string;
  start_time : Q;
  start_gain : Q
}.

(** The variables of the closure.  [audioCtx] and [master] record whether
    the context and the master gain exist; [onStep] whether a callback is
    set; [timerId] is [None] for [null]. *)
Record Engine := mkEngine {
  audioCtx : bool;
  master : bool;
  isPlaying : bool;
  bpm : Q;
  resolution : Q;
  currentStep : Z;
  nextNoteTime : Q;
  timerId : option Z;
  buffers : gmap string AudioBuffer;
  onStep : bool
}.

(** The browser around the engine: the audio clock and the state of the
    context, the interval timers that are set, the handle the next
    [setInterval] returns, the [play] calls waiting at their [await]
    (each with its [startStep] argument), and what the engine has asked
    for so far: sample starts and [onStep] calls, oldest first. *)
Record Host := mkHost {
  currentTime : Q;
  ctx_running : bool;
  intervals : gset Z;
  nextHandle : Z;
  pendingPlays : list (option Z);
  started : list SourceStart;
  stepCalls : list Z
}.

Definition initialEngine : Engine :=
  mkEngine false false false (120 # 1) (16 # 1) 0 0 None ∅ false.

Definition lookaheadMs : Z := 25.
Definition scheduleAheadTimeSec : Q := 12 # 100.

Definition Qltb (a b : Q) : bool := negb (Qle_bool b a).
Definition Qmax' (a b : Q) : Q := if Qle_bool a b then b else a.
Definition Qmin' (a b : Q) : Q := if Qle_bool a b then a else b.

Definition with_started (h : Host) (l : list SourceStart) : Host :=
  mkHost (currentTime h) (ctx_running h) (intervals h) (nextHandle h)
         (pendingPlays h) l (stepCalls h).

Definition with_stepCalls (h : Host) (l : list Z) : Host :=
  mkHost (currentTime h) (ctx_running h) (intervals h) (nextHandle h)
         (pendingPlays h) (started h) l.

Definition with_pendingPlays (h : Host) (l : list (option Z)) : Host :=
  mkHost (currentTime h) (ctx_running h) (intervals h) (nextHandle h)
         l (started h) (stepCalls h).

Definition with_transport (e : Engine) (playing : bool) (step : Z) (next : Q)
    (timer : option Z) : Engine :=
  mkEngine (audioCtx e) (master e) playing (bpm e) (resolution e) step next
           timer (buffers e) (onStep e).

Definition ensureContext (e : Engine) : Engine :=
  if audioCtx e then e
  else mkEngine true true (isPlaying e) (bpm e) (resolution e) (currentStep e)
                (nextNoteTime e) (timerId e) (buffers e) (onStep e).

Definition setBuffers (next : gmap string AudioBuffer) (e : Engine) : Engine :=
  mkEngine (audioCtx e) (master e) (isPlaying e) (bpm e) (resolution e)
           (currentStep e) (nextNoteTime e) (timerId e) next (onStep e).

Definition setTransport (nextBpm nextResolution : option Q) (e : Engine) : Engine :=
  mkEngine (audioCtx e) (master e) (isPlaying e)
           (default (bpm e) nextBpm) (default (resolution e) nextResolution)
           (currentStep e) (nextNoteTime e) (timerId e) (buffers e) (onStep e).

Definition setOnStep (fn : bool) (e : Engine) : Engine :=
  mkEngine (audioCtx e) (master e) (isPlaying e) (bpm e) (resolution e)
           (currentStep e) (nextNoteTime e) (timerId e) (buffers e) fn.

(** [(60 / bpm) * (4 / resolution)]. *)
Definition secondsPerStep (e : Engine) : Q :=
  ((60 # 1) / bpm e) * ((4 # 1) / resolution e).

(** The same expression on binary64 numbers, as JavaScript computes it. *)
Definition secondsPerStep_binary64 (bpm resolution : PrimFloat.float)
    : PrimFloat.float :=
  PrimFloat.mul (PrimFloat.div 60%float bpm) (PrimFloat.div 4%float resolution).

(** [trigger (instId, time, velocity)].  [src.start (time)] is recorded
    in [started]; that [start] rejects a negative time is not modelled. *)
Definition trigger (e : Engine) (instId : string) (time : Q) (velocity : Z)
    (h : Host) : Host :=
  if negb (audioCtx e) || negb (master e) then h
  else match buffers e !! instId with
       | None => h
       | Some buf =>
           let gain := Qmax' 0 (Qmin' 1 (inject_Z velocity / (127 # 1))) in
           with_started h (started h ++ [mkSourceStart instId time gain])
       end.

(** [grid[id]?.[stepIndex] ?? 0] with the cursor as index: a negative
    index names no element. *)
Definition velocityAtStep (g : Grid) (inst : string) (stepIndex : Z) : Z :=
  if decide (0 ≤ stepIndex)%Z then velocityAt g inst (Z.to_nat stepIndex) else 0%Z.

(** [scheduleStep (grid, instruments, stepIndex, time)].  The call
    [onStep (stepIndex)] is recorded in [stepCalls]; what the callback
    does is not modelled. *)
Definition scheduleStep (e : Engine) (g : Grid) (instruments : list Instrument)
    (stepIndex : Z) (time : Q) (h : Host) : Host :=
  let h' := foldl (λ h inst,
                     let vel := velocityAtStep g (id inst) stepIndex in
                     if (0 <? vel)%Z then trigger e (id inst) time vel h else h)
                  h instruments in
  if onStep e then with_stepCalls h' (stepCalls h' ++ [stepIndex]) else h'.

(** The [while] loop of [scheduler]; the audio clock stands still while
    the callback runs.  [None]: not finished within the fuel. *)
Fixpoint scheduler_loop (fuel : nat) (snap : Snapshot) (e : Engine) (h : Host)
    : option (Engine * Host) :=
  if Qltb (nextNoteTime e) (currentTime h + scheduleAheadTimeSec)
  then match fuel with
       | 0 => None
       | S fuel' =>
           let h' := scheduleStep e (snap_grid snap) (snap_instruments snap)
                                  (currentStep e) (nextNoteTime e) h in
           let next := (nextNoteTime e + secondsPerStep e)%Q in
           let step := (currentStep e + 1)%Z in
           let step' := match snap_columns snap with
                        | Some columns => if (columns <=? step)%Z then 0%Z else step
                        | None => step
                        end in
           scheduler_loop fuel' snap
             (with_transport e (isPlaying e) step' next (timerId e)) h'
       end
  else Some (e, h).

(** [scheduler (getGridSnapshot)], [snap] being what the provider returns. *)
Definition scheduler (fuel : nat) (snap : Snapshot) (e : Engine) (h : Host)
    : option (Engine * Host) :=
  if negb (audioCtx e) then Some (e, h) else scheduler_loop fuel snap e h.

(** [play] up to its [await resumeIfNeeded()]: the context is made, and the
    call waits. *)
Definition play_begin (startStep : option Z) (e : Engine) (h : Host)
    : Engine * Host :=
  (ensureContext e, with_pendingPlays h (pendingPlays h ++ [startStep])).

(** [play] after the [await]; [startStep] defaults to 0 and [snap.columns]
    to 1. *)
Definition play_continue (snap : Snapshot) (startStep : option Z)
    (e : Engine) (h : Host) : Engine * Host :=
  if isPlaying e then (e, h)
  else
    let maxStep := Z.max 0 (default 1%Z (snap_columns snap) - 1) in
    let step := Z.max 0 (Z.min maxStep (default 0%Z startStep)) in
    let next := (currentTime h + (3 # 100))%Q in
    (with_transport e true step next (Some (nextHandle h)),
     mkHost (currentTime h) (ctx_running h) ({[nextHandle h]} ∪ intervals h)
            (nextHandle h + 1)%Z (pendingPlays h) (started h) (stepCalls h)).

(** [stop ()]; [clearInterval] unsets the timer. *)
Definition stop (e : Engine) (h : Host) : Engine * Host :=
  if negb (isPlaying e) then (e, h)
  else
    let h' := match timerId e with
              | Some t =>
                  if (t =? 0)%Z then h
                  else mkHost (currentTime h) (ctx_running h) (intervals h ∖ {[t]})
                              (nextHandle h) (pendingPlays h) (started h)
                              (stepCalls h)
              | None => h
              end in
    (with_transport e false (currentStep e) (nextNoteTime e) None, h').

(** A [play] call that nothing interrupts: the part before the [await],
    the context running, the part after. *)
Definition play (snap : Snapshot) (startStep : option Z) (e : Engine) (h : Host)
    : Engine * Host :=
  play_continue snap startStep (ensureContext e)
    (mkHost (currentTime h) true (intervals h) (nextHandle h) (pendingPlays h)
            (started h) (stepCalls h)).

(** What can happen to an engine in its page.  A timer callback runs only
    while its timer is set (a cleared timer never calls back, the rule of
    the HTML timers); a waiting [play] goes on once the context runs. *)
Inductive Event :=
  | CallPlay (startStep : option Z)
  | ContextResumed
  | ResumePlay (snap : Snapshot)
  | CallStop
  | Tick (handle : Z) (snap : Snapshot)
  | ClockAdvance (dt : Q)
  | CallSetBuffers (next : gmap string AudioBuffer)
  | CallSetTransport (nextBpm nextResolution : option Q)
  | CallSetOnStep (fn : bool).

Definition World : Type := Engine * Host.

(** The turns the loop of [scheduler] takes when the step lasts a positive
    time: one beyond the steps that fit before the horizon. *)
Definition scheduler_fuel (e : Engine) (h : Host) : nat :=
  Z.to_nat (Qceiling ((currentTime h + scheduleAheadTimeSec - nextNoteTime e)
                      / secondsPerStep e)) + 1.

Definition step (ev : Event) (w : World) : option World :=
  let (e, h) := w in
  match ev with
  | CallPlay startStep => Some (play_begin startStep e h)
  | ContextResumed =>
      Some (e, mkHost (currentTime h) true (intervals h) (nextHandle h)
                      (pendingPlays h) (started h) (stepCalls h))
  | ResumePlay snap =>
      match pendingPlays h with
      | startStep :: rest =>
          if ctx_running h
          then Some (play_continue snap startStep e (with_pendingPlays h rest))
          else Some w
      | [] => Some w
      end
  | CallStop => Some (stop e h)
  | Tick handle snap =>
      if decide (handle ∈ intervals h)
      then scheduler (scheduler_fuel e h) snap e h
      else Some w
  | ClockAdvance dt =>
      Some (e, mkHost (currentTime h + Qmax' 0 dt)%Q (ctx_running h) (intervals h)
                      (nextHandle h) (pendingPlays h) (started h) (stepCalls h))
  | CallSetBuffers next => Some (setBuffers next e, h)
  | CallSetTransport b r => Some (setTransport b r e, h)
  | CallSetOnStep fn => Some (setOnStep fn e, h)
  end.

Fixpoint run (evs : list Event) (w : World) : option World :=
  match evs with
  | [] => Some w
  | ev :: rest =>
      match step ev w with
      | Some w' => run rest w'
      | None => None
      end
  end.

Definition initialHost : Host := mkHost 0 false ∅ 1 [] [] [].

(** ** Grids for the examples *)

(** A two-bar pattern of four steps a bar, for the examples. *)
Definition demo_grid : Grid :=
  list_to_map ((λ inst, (id inst,
     if bool_decide (id inst = "kick") then [100; 0; 0; 0; 100; 0; 100; 0]%Z
     else if bool_decide (id inst = "snare") then [0; 0; 100; 0; 0; 0; 100; 0]%Z
     else [0; 0; 0; 0; 0; 0; 0; 0]%Z)) <$> INSTRUMENTS).

(** A grid that holds what [demo_grid] holds in its first bar and differs
    after it: rows end early, and the snare has another hit. *)
Definition demo_grid_other : Grid :=
  list_to_map ((λ inst, (id inst,
     if bool_decide (id inst = "kick") then [100; 0; 0; 0]%Z
     else if bool_decide (id inst = "snare") then [0; 0; 100; 0; 100]%Z
     else [0; 0; 0; 0; 0; 0]%Z)) <$> INSTRUMENTS).

(** One bar of 4/4 in eighths with a single hit, the kick on beat 1. *)
Definition single_hit_grid : Grid :=
  list_to_map ((λ inst, (id inst,
     if bool_decide (id inst = "kick") then [100; 0; 0; 0; 0; 0; 0; 0]%Z
     else [0; 0; 0; 0; 0; 0; 0; 0]%Z)) <$> INSTRUMENTS).

(** ** Predicates and spec-side definitions used in the statements *)

(** Every instrument of the catalog has a row. *)
Definition has_rows (g : Grid) : Prop :=
  Forall (λ inst, is_Some (g !! id inst)) INSTRUMENTS.

Definition instrument_ids : gset string := list_to_set (id <$> INSTRUMENTS).

(** The grid of the data model: one row per instrument and no other, each
    of [columns] cells. *)
Definition grid_shape (columns : nat) (g : Grid) : Prop :=
  dom g = instrument_ids ∧ map_Forall (λ _ row, length row = columns) g.

(** Velocities are not negative. *)
Definition nonneg_grid (g : Grid) : Prop :=
  map_Forall (λ _ row, Forall (λ v, (0 ≤ v)%Z) row) g.

(** What reading [grid[inst][i]] gives: [None] the TypeError of a missing
    row, [Some None] undefined, [Some (Some v)] a velocity. *)
Definition readCell (g : Grid) (inst : string) (i : nat) : option (option Z) :=
  row ← g !! inst; Some (row !! i).

(** Two grids hold the same on the steps of bar [b]. *)
Definition agree_on_bar (stepsPerBar b : nat) (g1 g2 : Grid) : Prop :=
  Forall (λ inst,
            Forall (λ i, readCell g1 (id inst) i = readCell g2 (id inst) i)
                   (seq (b * stepsPerBar) stepsPerBar))
         INSTRUMENTS.

(** [steps] is the step sequence of bar [b]: the keys sounding at each of
    its [stepsPerBar] steps. *)
Definition bar_view (g : Grid) (stepsPerBar b : nat) (steps : list (list string))
    : Prop :=
  length steps = stepsPerBar ∧
  ∀ s ks, steps !! s = Some ks → keysAt g (b * stepsPerBar + s) = Ok ks.

(** Following the spec's words (4.2, item 3): the merge-note rules as an
    ordered list, the first that matches wins.  A rule asks for a
    resolution, a number of steps per beat, a position in the beat, and a
    number of next steps of the bar that are all empty; it gives a
    duration and the steps to advance. *)
Record MergeRule := mkMergeRule {
  rule_resolution : nat;
  rule_stepsPerBeat : nat;
  rule_subInBeat : list nat;
  rule_nextEmpty : nat;
  rule_duration : string;
  rule_advance : nat
}.

Definition spec_merge_note_rules : list MergeRule := [
  mkMergeRule 16 4 [0] 3 "q" 4;
  mkMergeRule 16 4 [0; 2] 1 "8" 2;
  mkMergeRule 8 2 [0] 1 "q" 2;
  mkMergeRule 16 2 [0] 1 "8" 2
].

Definition spec_rule_matches (res spBeat : nat) (steps : list (list string))
    (s : nat) (r : MergeRule) : bool :=
  (res =? rule_resolution r) && (spBeat =? rule_stepsPerBeat r)
  && bool_decide (s mod spBeat ∈ rule_subInBeat r)
  && forallb (λ j, bool_decide (steps !! (s + j) = Some []))
             (seq 1 (rule_nextEmpty r)).

(** The event at a note, merge-notes on: the first matching rule, or one
    atomic note of the native duration and one step. *)
Definition spec_note_event (res : nat) (ts : TimeSig) (steps : list (list string))
    (s : nat) (ks : list string) : StaveNote * nat :=
  let spBeat := Nat.max 1 (js_round_div res (ts_d ts)) in
  match find (spec_rule_matches res spBeat steps s) spec_merge_note_rules with
  | Some r => (noteOf ks (rule_duration r), rule_advance r)
  | None => (noteOf ks (dur res), 1)
  end.

(** What old step [s] of bar [b] does to the cell [t] of the bar in the
    new row, [acc] being what the cell holds: the effect of [remap_step]
    seen from one cell. *)
Definition cell_step (g : Grid) (inst : string) (old new b t : nat)
    (acc : Z) (s : nat) : Z :=
  let v := velocityAt g inst (b * old + s) in
  if (v =? 0)%Z then acc
  else if decide (clamped old new s = Z.of_nat t) then Z.max acc v else acc.

(** [clamp (x, lo, hi)], as the spec names it: [x] brought into [lo .. hi]. *)
Definition clamp (x lo hi : Z) : Z := Z.max lo (Z.min hi x).

(** The transport of an engine in its page: playing or not, the cursor,
    the time of the next step and the polling timer. *)
Definition transport (w : World) : bool * Z * Q * option Z * gset Z :=
  (isPlaying (fst w), currentStep (fst w), nextNoteTime (fst w),
   timerId (fst w), intervals (snd w)).

(** The sample starts one [scheduleStep] asks for: one per instrument that
    has a positive velocity at the step and a decoded buffer. *)
Definition stepStarts (e : Engine) (g : Grid) (instruments : list Instrument)
    (stepIndex : Z) (time : Q) : list SourceStart :=
  flat_map (λ inst,
    let vel := velocityAtStep g (id inst) stepIndex in
    if audioCtx e && master e && (0 <? vel)%Z
       && bool_decide (is_Some (buffers e !! id inst))
    then [mkSourceStart (id inst) time
            (Qmax' 0 (Qmin' 1 (inject_Z vel / (127 # 1))))]
    else []) instruments.

(** An engine but for its buffers, and a page but for the sample starts
    it has been asked for. *)
Definition engine_core (e : Engine)
    : bool * bool * bool * Q * Q * Z * Q * option Z * bool :=
  (audioCtx e, master e, isPlaying e, bpm e, resolution e, currentStep e,
   nextNoteTime e, timerId e, onStep e).

Definition host_core (h : Host)
    : Q * bool * gset Z * Z * list (option Z) * list Z :=
  (currentTime h, ctx_running h, intervals h, nextHandle h, pendingPlays h,
   stepCalls h).

Definition world_core (w : World) :=
  (engine_core (fst w), host_core (snd w)).

(** The page of the example: the kick sample is decoded, the grid holds the
    single hit. *)
Definition demo_engine : Engine :=
  setBuffers {["kick" := mkAudioBuffer 0]} initialEngine.

Definition demo_snapshot : Snapshot :=
  mkSnapshot single_hit_grid INSTRUMENTS (Some 8%Z).

(** The timers of a page are those of the engine: none while stopped, the
    one of [timerId] while playing; handles are positive and fresh. *)
Definition timers_ok (w : World) : Prop :=
  let (e, h) := w in
  (0 < nextHandle h)%Z ∧
  (∀ t, t ∈ intervals h → (0 < t < nextHandle h)%Z) ∧
  (isPlaying e = false → intervals h = ∅) ∧
  (isPlaying e = true → ∃ t, timerId e = Some t ∧ intervals h = {[t]}).

Definition is_CallPlay (ev : Event) : bool :=
  match ev with CallPlay _ => true | _ => false end.

(** A stopped engine in a page where no timer is set and no [play] call
    waits at its [await]. *)
Definition quiet (w : World) : Prop :=
  isPlaying (fst w) = false ∧ intervals (snd w) = ∅ ∧ pendingPlays (snd w) = [].

(** ** The App component: grid state, handlers and the resize effect *)

(** The grid [useState] starts with: [Array(columns).fill(0)] for every
    instrument. *)
Definition initialGrid (columns : nat) : Grid :=
  foldl (λ g i, <[id i := replicate columns 0%Z]> g) ∅ INSTRUMENTS.

(** The updater of the effect on [columns]:
    [Array(columns).fill(0).map((_, idx) => prev[i.id]?.[idx] ?? 0)] for
    every instrument. *)
Definition resizeGrid (columns : nat) (prev : Grid) : Grid :=
  foldl (λ next i,
           <[id i := (λ idx, velocityAt prev (id i) idx) <$> seq 0 columns]> next)
        ∅ INSTRUMENTS.

(** The state of [App]. *)
Record App := mkApp {
  app_resolution : nat;
  app_bars : nat;
  app_timeSig : TimeSig;
  app_keepTiming : bool;
  app_mergeRests : bool;
  app_mergeNotes : bool;
  app_grid : Grid
}.

(** [stepsPerBar] and [columns], computed at every render. *)
Definition app_stepsPerBar (a : App) : nat :=
  Nat.max 1 (js_round_div (ts_n (app_timeSig a) * app_resolution a)
                          (ts_d (app_timeSig a))).

Definition app_columns (a : App) : nat := app_bars a * app_stepsPerBar a.

(** The first render: eighths, two bars of 4/4, all toggles on. *)
Definition initialApp : App :=
  mkApp 8 2 (mkTimeSig 4 4) true true true (initialGrid (2 * 8)).

Definition handleResolutionChange (newRes : nat) (a : App) : App :=
  if negb (app_keepTiming a)
  then mkApp newRes (app_bars a) (app_timeSig a) (app_keepTiming a)
             (app_mergeRests a) (app_mergeNotes a) (app_grid a)
  else
    let oldSPB := app_stepsPerBar a in
    let newSPB := computeStepsPerBar (app_timeSig a) newRes in
    mkApp newRes (app_bars a) (app_timeSig a) (app_keepTiming a)
          (app_mergeRests a) (app_mergeNotes a)
          (remapGrid (app_bars a) (app_grid a) oldSPB newSPB).

Definition handleTimeSigChange (newTS : TimeSig) (a : App) : App :=
  if negb (app_keepTiming a)
  then mkApp (app_resolution a) (app_bars a) newTS (app_keepTiming a)
             (app_mergeRests a) (app_mergeNotes a) (app_grid a)
  else
    let oldSPB := app_stepsPerBar a in
    let newSPB := computeStepsPerBar newTS (app_resolution a) in
    mkApp (app_resolution a) (app_bars a) newTS (app_keepTiming a)
          (app_mergeRests a) (app_mergeNotes a)
          (remapGrid (app_bars a) (app_grid a) oldSPB newSPB).

Definition with_grid (a : App) (g : Grid) : App :=
  mkApp (app_resolution a) (app_bars a) (app_timeSig a) (app_keepTiming a)
        (app_mergeRests a) (app_mergeNotes a) g.

(** The effect with dependency [columns]: it runs after a render in which
    [columns] differs from that of the render before. *)
Definition columnsEffect (prevColumns : nat) (a : App) : App :=
  if decide (app_columns a = prevColumns) then a
  else with_grid a (resizeGrid (app_columns a) (app_grid a)).

(** What the user can do in the page.  [ChangeBars n] is the number field
    holding the whole number [n]. *)
Inductive Action :=
  | ChangeResolution (newRes : nat)
  | ChangeTimeSig (newTS : TimeSig)
  | ChangeBars (n : nat)
  | SetKeepTiming (checked : bool)
  | ToggleMergeRests
  | ToggleMergeNotes
  | ClickCell (inst : string) (idx : nat).

(** The handler of an action; [None] is a TypeError in the updater of
    [cycleVelocity]. *)
Definition handleAction (act : Action) (a : App) : option App :=
  match act with
  | ChangeResolution newRes => Some (handleResolutionChange newRes a)
  | ChangeTimeSig newTS => Some (handleTimeSigChange newTS a)
  | ChangeBars n =>
      Some (mkApp (app_resolution a) n (app_timeSig a) (app_keepTiming a)
                  (app_mergeRests a) (app_mergeNotes a) (app_grid a))
  | SetKeepTiming checked =>
      Some (mkApp (app_resolution a) (app_bars a) (app_timeSig a) checked
                  (app_mergeRests a) (app_mergeNotes a) (app_grid a))
  | ToggleMergeRests =>
      Some (mkApp (app_resolution a) (app_bars a) (app_timeSig a)
                  (app_keepTiming a) (negb (app_mergeRests a))
                  (app_mergeNotes a) (app_grid a))
  | ToggleMergeNotes =>
      Some (mkApp (app_resolution a) (app_bars a) (app_timeSig a)
                  (app_keepTiming a) (app_mergeRests a)
                  (negb (app_mergeNotes a)) (app_grid a))
  | ClickCell inst idx => with_grid a <$> cycleVelocity inst idx (app_grid a)
  end.

(** An action, the render it causes and the effect after that render. *)
Definition dispatch (act : Action) (a : App) : option App :=
  columnsEffect (app_columns a) <$> handleAction act a.

Fixpoint dispatchAll (acts : list Action) (a : App) : option App :=
  match acts with
  | [] => Some a
  | act :: rest =>
      match dispatch act a with
      | Some a' => dispatchAll rest a'
      | None => None
      end
  end.

(** Every cell holds a velocity of the cycle. *)
Definition cells_in_cycle (g : Grid) : Prop :=
  map_Forall (λ _ row, Forall (λ v, v ∈ VELOCITY_CYCLE) row) g.

(** The grid of a state fits its [columns] and holds velocities of the
    cycle. *)
Definition app_ok (a : App) : Prop :=
  grid_shape (app_columns a) (app_grid a) ∧ cells_in_cycle (app_grid a).

(** A click the [Grid] component can produce: on the row of an
    instrument. *)
Definition from_catalog (act : Action) : Prop :=
  match act with
  | ClickCell inst _ => inst ∈ id <$> INSTRUMENTS
  | _ => True
  end.

(** What the controls of the page offer: the three resolutions and the
    three time signatures of the two [select]s, a bar count that is a
    whole number up to the [max] of the number field (0 is the emptied
    field), the check box, the two buttons and the cells of the grid.
    The number field also takes what is typed into it; negative,
    fractional and larger bar counts are not among these actions. *)
Definition page_action (act : Action) : Prop :=
  match act with
  | ChangeResolution newRes => newRes = 4 ∨ newRes = 8 ∨ newRes = 16
  | ChangeTimeSig newTS =>
      newTS = mkTimeSig 4 4 ∨ newTS = mkTimeSig 3 4 ∨ newTS = mkTimeSig 6 8
  | ChangeBars n => n ≤ 8
  | ClickCell inst _ => inst ∈ id <$> INSTRUMENTS
  | _ => True
  end.

(** ** The Grid component: the timeline and the counting labels *)

Inductive TimelineItem :=
  | TimelineStep (stepIndex bar stepInBar : nat)
  | TimelineGap.

(** The two [for] loops that fill [timeline]. *)
Definition timeline (bars stepsPerBar : nat) : list TimelineItem :=
  foldl (λ (tl : list TimelineItem) b,
           (foldl (λ (tl : list TimelineItem) s,
                     (tl ++ [TimelineStep (b * stepsPerBar + s) b s])%list)
                  tl (seq 0 stepsPerBar)
            ++ (if b <? bars - 1 then [TimelineGap] else []))%list)
        [] (seq 0 bars).

Definition timeline_steps (tl : list TimelineItem) : list nat :=
  flat_map (λ t, match t with
                 | TimelineStep i _ _ => [i]
                 | TimelineGap => []
                 end) tl.

Definition is_gap (t : TimelineItem) : bool :=
  match t with TimelineGap => true | _ => false end.

(** [labelFor (stepInBar)], the counting label above a column of the
    grid, with [resolution] and [timeSig] as [Grid] gets them; [pretty] is
    the decimal numeral of the template string.  Of the four labels of a
    beat of four steps the one at [sub] is taken; [sub] is below 4 there. *)
Definition labelFor (resolution : nat) (timeSig : TimeSig) (stepInBar : nat)
    : string :=
  let stepsPerBeat := Nat.max 1 (js_round_div resolution (ts_d timeSig)) in
  let beat := stepInBar / stepsPerBeat + 1 in
  let sub := stepInBar mod stepsPerBeat in
  if stepsPerBeat =? 1 then pretty beat
  else if stepsPerBeat =? 2 then (if sub =? 0 then pretty beat else "&")
  else if stepsPerBeat =? 4
       then default "" ([pretty beat; "e"; "&"; "a"] !! sub)
  else if sub =? 0 then pretty beat else "·".

(** The labels that are not a beat number. *)
Definition subdivision_labels : list string := ["e"; "&"; "a"; "·"].

(** ** Helpers for the statements about the engine *)

(** The cursor after one step of the loop of [scheduler]. *)
Definition nextCursor (columns : option Z) (cur : Z) : Z :=
  match columns with
  | Some c => if (c <=? cur + 1)%Z then 0%Z else (cur + 1)%Z
  | None => (cur + 1)%Z
  end.

(** The gain [trigger] gives the sample of a hit of [velocity]. *)
Definition gainOf (velocity : Z) : Q :=
  Qmax' 0 (Qmin' 1 (inject_Z velocity / (127 # 1))).

(** A timer callback that finds the snapshot [snap], or time going by:
    what happens while the engine plays and nobody touches the page. *)
Definition poll_or_clock (snap : Snapshot) (ev : Event) : Prop :=
  match ev with
  | Tick _ snap' => snap' = snap
  | ClockAdvance _ => True
  | _ => False
  end.

(** The steps of a poll that takes [k] turns of the loop, each with the
    time it is due: the cursor moves by [nextCursor], the time by the
    length of a step. *)
Fixpoint pollSteps (k : nat) (columns : option Z) (cur : Z) (next sps : Q)
    : list (Z * Q) :=
  match k with
  | 0 => []
  | S k' => (cur, next)
            :: pollSteps k' columns (nextCursor columns cur) (next + sps)%Q sps
  end.

(** The cursor and the time of the next step after those [k] turns. *)
Fixpoint pollEnd (k : nat) (columns : option Z) (cur : Z) (next sps : Q)
    : Z * Q :=
  match k with
  | 0 => (cur, next)
  | S k' => pollEnd k' columns (nextCursor columns cur) (next + sps)%Q sps
  end.

(** * Properties *)

(** ** Toggling a cell *)

Lemma nextVelocity_involutive (v : Z) :
  v ∈ VELOCITY_CYCLE →
  nextVelocity (Some (nextVelocity (Some v))) = v ∧ nextVelocity (Some v) ≠ v.
Proof.
  unfold VELOCITY_CYCLE. intros Hv.
  apply elem_of_cons in Hv as [-> | Hv]; [by vm_compute |].
  apply elem_of_cons in Hv as [-> | Hv]; [by vm_compute |].
  by apply elem_of_nil in Hv.
Qed.

Lemma cycleVelocity_row (g : Grid) (inst : string) (idx : nat) (row : list Z) :
  g !! inst = Some row →
  cycleVelocity inst idx g =
    Some (<[inst := imap (λ i v, if decide (i = idx)
                                 then nextVelocity (row !! idx) else v) row]> g).
Proof. intros Hrow. unfold cycleVelocity. by rewrite Hrow. Qed.

Lemma toggled_row_lookup (row : list Z) (idx i : nat) (x : Z) :
  imap (λ j v, if decide (j = idx) then x else v) row !! i
  = if decide (i = idx) then (λ _, x) <$> row !! i else row !! i.
Proof.
  rewrite list_lookup_imap. destruct (row !! i) as [v|] eqn:E; simpl;
    destruct (decide (i = idx)); done.
Qed.

(** C10.  A cell that holds 0 or 100 is back at its value after two
    toggles, and so is the whole grid; one toggle of a cell of an existing
    row keeps the rows that exist, their lengths, and every cell other than
    the toggled one. *)
Theorem cycleVelocity_twice_and_frame (g : Grid) (inst : string) (idx : nat)
    (row : list Z) :
  g !! inst = Some row →
  ∃ g1, cycleVelocity inst idx g = Some g1
    ∧ dom g1 = dom g
    ∧ (∀ k r, g !! k = Some r →
         ∃ r1, g1 !! k = Some r1 ∧ length r1 = length r
               ∧ ∀ i, k ≠ inst ∨ i ≠ idx → r1 !! i = r !! i)
    ∧ (∀ v, row !! idx = Some v → v ∈ VELOCITY_CYCLE →
         (∃ r1 v1, g1 !! inst = Some r1 ∧ r1 !! idx = Some v1 ∧ v1 ≠ v
                   ∧ v1 ∈ VELOCITY_CYCLE)
         ∧ cycleVelocity inst idx g1 = Some g).
Proof.
  intros Hrow. eexists. split; [by apply cycleVelocity_row |].
  split; [| split].
  - rewrite dom_insert_L. apply (elem_of_dom_2 (D:=gset string)) in Hrow.
    apply set_eq. intros k. rewrite elem_of_union, elem_of_singleton.
    split; [intros [-> | Hk]; done | by right].
  - intros k r Hk. destruct (decide (k = inst)) as [-> | Hne].
    + rewrite lookup_insert_eq. eexists. split; [done |].
      assert (r = row) as -> by congruence.
      split; [by rewrite length_imap |].
      intros i [? | Hi]; [done |].
      rewrite toggled_row_lookup. by destruct (decide (i = idx)).
    + rewrite lookup_insert_ne by done. exists r. by repeat split.
  - intros v Hv Hin. destruct (nextVelocity_involutive v Hin) as [Hinv Hne].
    split.
    + eexists _, (nextVelocity (Some v)). rewrite lookup_insert_eq.
      split; [done |]. rewrite toggled_row_lookup, Hv.
      destruct (decide (idx = idx)); [| done]. simpl.
      repeat split; [done |].
      unfold VELOCITY_CYCLE in *.
      apply elem_of_cons in Hin as [-> | Hin]; [vm_compute; set_solver |].
      apply elem_of_cons in Hin as [-> | Hin]; [vm_compute; set_solver |].
      by apply elem_of_nil in Hin.
    + erewrite cycleVelocity_row by apply lookup_insert_eq.
      rewrite insert_insert_eq. f_equal. apply insert_id.
      rewrite Hrow. f_equal. apply list_eq. intros i.
      rewrite !toggled_row_lookup.
      destruct (decide (i = idx)) as [-> | Hi]; [| done].
      rewrite Hv. destruct (decide (idx = idx)); [| done]. simpl.
      by rewrite Hinv.
Qed.

Lemma cycleVelocity_twice_and_frame_witness :
  ∃ g1, cycleVelocity "kick" 1 {["kick" := [0; 100; 0]%Z]} = Some g1
    ∧ cycleVelocity "kick" 1 g1 = Some {["kick" := [0; 100; 0]%Z]}.
Proof.
  destruct (cycleVelocity_twice_and_frame
              {["kick" := [0; 100; 0]%Z]} "kick" 1 [0; 100; 0]%Z)
    as (g1 & H1 & _ & _ & H2).
  - reflexivity.
  - exists g1. split; [exact H1 |].
    apply (H2 100%Z); [reflexivity |].
    apply list_elem_of_In. simpl. right. left. reflexivity.
Defined.

(** ** Remapping *)

Lemma js_round_div_same (n s : nat) : 0 < n → js_round_div (s * n) n = s.
Proof.
  intros Hn. unfold js_round_div.
  replace (2 * (s * n) + n) with (n + s * (2 * n)) by lia.
  rewrite Nat.div_add by lia. rewrite Nat.div_small by lia. lia.
Qed.

Lemma clamped_range (old new s : nat) :
  0 < new → (0 ≤ clamped old new s < Z.of_nat new)%Z.
Proof. intros Hn. unfold clamped. lia. Qed.

Lemma clamped_same (n s : nat) : s < n → clamped n n s = Z.of_nat s.
Proof. intros Hs. unfold clamped. rewrite js_round_div_same by lia. lia. Qed.

Lemma store_max_length (out : list Z) (i v : Z) :
  length (store_max out i v) = length out.
Proof. unfold store_max. case_decide; [apply length_insert | done]. Qed.

Lemma store_max_lookup (out : list Z) (i v : Z) (j : nat) :
  (0 ≤ i)%Z → Z.to_nat i < length out →
  default 0%Z (store_max out i v !! j)
  = if decide (j = Z.to_nat i) then Z.max (default 0%Z (out !! j)) v
    else default 0%Z (out !! j).
Proof.
  intros Hi Hlen. unfold store_max. rewrite decide_True by done.
  destruct (decide (j = Z.to_nat i)) as [-> | Hne].
  - by rewrite list_lookup_insert_eq.
  - by rewrite list_lookup_insert_ne.
Qed.

(** The index [remapGrid] writes at lies inside the new array. *)
Lemma remap_newGlobal_in_range (bars old new b s : nat) :
  b < bars → 0 < new →
  (0 ≤ Z.of_nat (b * new) + clamped old new s < Z.of_nat (bars * new))%Z.
Proof. intros Hb Hn. pose proof (clamped_range old new s Hn). nia. Qed.

Section RemapRow.

Variable g : Grid.
Variable inst : string.
Variables bars old new : nat.

Local Abbreviation acc_step := (cell_step g inst old new).

Lemma remap_step_cell (b b' t s : nat) (out : list Z) :
  length out = bars * new → b < bars → b' < bars → t < new →
  length (remap_step g inst old new b out s) = length out ∧
  default 0%Z (remap_step g inst old new b out s !! (b' * new + t))
  = if decide (b' = b) then acc_step b t (default 0%Z (out !! (b * new + t))) s
    else default 0%Z (out !! (b' * new + t)).
Proof.
  intros Hlen Hb Hb' Ht. unfold remap_step, cell_step.
  destruct (velocityAt g inst (b * old + s) =? 0)%Z eqn:Ev.
  { split; [done |]. destruct (decide (b' = b)) as [-> |]; done. }
  assert (0 < new) as Hn by lia.
  pose proof (clamped_range old new s Hn) as Hc.
  pose proof (remap_newGlobal_in_range bars old new b s Hb Hn) as Hr.
  split; [apply store_max_length |].
  rewrite store_max_lookup by lia.
  repeat case_decide; subst; try done; try nia.
Qed.

Lemma remap_steps_cell (b b' t : nat) (steps : list nat) (out : list Z) :
  length out = bars * new → b < bars → b' < bars → t < new →
  length (foldl (remap_step g inst old new b) out steps) = length out ∧
  default 0%Z (foldl (remap_step g inst old new b) out steps !! (b' * new + t))
  = if decide (b' = b)
    then foldl (acc_step b t) (default 0%Z (out !! (b * new + t))) steps
    else default 0%Z (out !! (b' * new + t)).
Proof.
  intros Hlen Hb Hb' Ht. revert out Hlen.
  induction steps as [| s steps IH]; intros out Hlen; simpl.
  { split; [done |]. destruct (decide (b' = b)) as [-> |]; done. }
  destruct (remap_step_cell b b' t s out Hlen Hb Hb' Ht) as [Hl1 Hv1].
  destruct (remap_step_cell b b t s out Hlen Hb Hb Ht) as [_ Hv2].
  destruct (IH (remap_step g inst old new b out s)) as [Hl Hv]; [congruence |].
  split; [congruence |]. rewrite Hv.
  destruct (decide (b' = b)) as [-> | Hne].
  - rewrite Hv2. by rewrite decide_True by done.
  - by rewrite Hv1.
Qed.

Lemma remap_bars_cell (b' t : nat) (start len : nat) (out : list Z) :
  length out = bars * new → start + len ≤ bars → b' < bars → t < new →
  length (foldl (remap_bar g inst old new) out (seq start len)) = length out ∧
  default 0%Z (foldl (remap_bar g inst old new) out (seq start len)
               !! (b' * new + t))
  = if decide (start ≤ b' < start + len)
    then foldl (acc_step b' t) (default 0%Z (out !! (b' * new + t))) (seq 0 old)
    else default 0%Z (out !! (b' * new + t)).
Proof.
  intros Hlen Hle Hb' Ht. revert start out Hlen Hle.
  induction len as [| len IH]; intros start out Hlen Hle; simpl.
  { split; [done |]. rewrite decide_False by lia. done. }
  unfold remap_bar at 2 4.
  destruct (remap_steps_cell start b' t (seq 0 old) out) as [Hl1 Hv1];
    [done | lia | done | done |].
  destruct (IH (S start) (foldl (remap_step g inst old new start) out (seq 0 old)))
    as [Hl Hv]; [congruence | lia |].
  split; [congruence |]. rewrite Hv, Hv1.
  repeat case_decide; subst; try lia; done.
Qed.

(** The cell [t] of bar [b] of the remapped row. *)
Lemma remap_row_cell (b t : nat) :
  b < bars → t < new →
  remap_row bars g inst old new !! (b * new + t)
  = Some (foldl (acc_step b t) 0%Z (seq 0 old)).
Proof.
  intros Hb Ht. unfold remap_row.
  destruct (remap_bars_cell b t 0 bars (replicate (bars * new) 0%Z))
    as [Hl Hv]; [apply length_replicate | lia | done | done |].
  rewrite decide_True in Hv by lia.
  rewrite length_replicate in Hl.
  assert (b * new + t < bars * new) as Hlt by nia.
  rewrite lookup_replicate_2 in Hv by done. simpl in Hv.
  destruct (lookup_lt_is_Some_2
              (foldl (remap_bar g inst old new)
                     (replicate (bars * new) 0%Z) (seq 0 bars))
              (b * new + t)) as [x Hx]; [lia |].
  rewrite Hx in Hv |- *. simpl in Hv. by subst x.
Qed.

Lemma foldl_keeps_length {A : Type} (f : list Z → A → list Z) (l : list A)
    (out : list Z) :
  (∀ o x, length (f o x) = length o) → length (foldl f out l) = length out.
Proof.
  intros Hf. revert out. induction l as [| x l IH]; intros out; simpl; [done |].
  by rewrite IH, Hf.
Qed.

Lemma remap_row_length : length (remap_row bars g inst old new) = bars * new.
Proof.
  unfold remap_row. rewrite foldl_keeps_length; [apply length_replicate |].
  intros o b. unfold remap_bar. apply foldl_keeps_length.
  intros o' s. unfold remap_step. destruct (_ =? _)%Z; [done |].
  apply store_max_length.
Qed.

(** [acc_step] folded over old steps: the result bounds the start value
    and every step moved to [t], and is the start value or the velocity of
    a sounding step moved to [t]. *)
Lemma acc_fold_bounds (b t : nat) (steps : list nat) (init : Z) :
  let v := foldl (acc_step b t) init steps in
  (init ≤ v)%Z ∧
  (∀ s, s ∈ steps → clamped old new s = Z.of_nat t →
        velocityAt g inst (b * old + s) ≠ 0%Z →
        (velocityAt g inst (b * old + s) ≤ v)%Z) ∧
  (v = init ∨ ∃ s, s ∈ steps ∧ clamped old new s = Z.of_nat t
                   ∧ velocityAt g inst (b * old + s) ≠ 0%Z
                   ∧ velocityAt g inst (b * old + s) = v).
Proof.
  revert init. induction steps as [| s steps IH]; intros init; simpl.
  { split; [lia |]. split; [| by left]. intros s Hs. by apply elem_of_nil in Hs. }
  destruct (IH (acc_step b t init s)) as (Hle & Hub & Hat).
  assert (init ≤ acc_step b t init s)%Z as Hstep.
  { unfold cell_step. destruct (_ =? _)%Z; [lia |]. case_decide; lia. }
  split; [lia |]. split.
  - intros s' Hs' Hc Hnz. apply elem_of_cons in Hs' as [-> | Hs'].
    + assert (velocityAt g inst (b * old + s) ≤ acc_step b t init s)%Z; [| lia].
      unfold cell_step. apply Z.eqb_neq in Hnz. rewrite Hnz.
      rewrite decide_True by done. lia.
    + by apply Hub.
  - destruct Hat as [Heq | (s' & Hs' & Hc & Hnz & Hv)].
    + unfold cell_step in Heq |- *.
      destruct (velocityAt g inst (b * old + s) =? 0)%Z eqn:Ev; [by left |].
      apply Z.eqb_neq in Ev.
      destruct (decide (clamped old new s = Z.of_nat t)) as [Hc |]; [| by left].
      destruct (Z.max_spec init (velocityAt g inst (b * old + s)))
        as [[_ Hm] | [_ Hm]].
      * right. exists s. split; [apply elem_of_cons; by left |].
        repeat split; [done | done |]. rewrite Heq. exact (eq_sym Hm).
      * left. rewrite Heq. exact Hm.
    + right. exists s'. split; [apply elem_of_cons; by right | done].
Qed.

End RemapRow.

Lemma remapGrid_lookup_gen (F : string → list Z) (l : list Instrument)
    (m0 : Grid) (k : string) :
  foldl (λ next i, <[id i := F (id i)]> next) m0 l !! k
  = if decide (k ∈ id <$> l) then Some (F k) else m0 !! k.
Proof.
  revert m0. induction l as [| i l IH]; intros m0.
  { cbn [foldl]. destruct (decide (k ∈ id <$> [])) as [H | _]; [| done].
    by apply elem_of_nil in H. }
  cbn [foldl]. rewrite IH, fmap_cons.
  destruct (decide (k ∈ id <$> l)) as [Hin | Hnin];
    destruct (decide (k ∈ id i :: (id <$> l))) as [Hin' | Hnin'].
  - done.
  - exfalso. apply Hnin'. apply elem_of_cons. by right.
  - apply elem_of_cons in Hin' as [-> | Hin']; [| done].
    apply lookup_insert_eq.
  - rewrite lookup_insert_ne; [done |]. intros <-. apply Hnin'.
    apply elem_of_cons. by left.
Qed.

Lemma remapGrid_lookup (bars : nat) (g : Grid) (old new : nat) (k : string) :
  remapGrid bars g old new !! k
  = if decide (k ∈ instrument_ids)
    then Some (remap_row bars g k old new) else None.
Proof.
  unfold remapGrid.
  rewrite (remapGrid_lookup_gen (λ k, remap_row bars g k old new)).
  unfold instrument_ids.
  destruct (decide (k ∈ id <$> INSTRUMENTS)) as [Hin | Hnin].
  - rewrite decide_True; [done |]. by apply elem_of_list_to_set.
  - rewrite decide_False; [done |]. by rewrite elem_of_list_to_set.
Qed.

Lemma velocityAt_nonneg (g : Grid) (k : string) (i : nat) :
  nonneg_grid g → (0 ≤ velocityAt g k i)%Z.
Proof.
  intros Hnn. unfold velocityAt.
  destruct (g !! k) as [row |] eqn:Hrow; simpl; [| lia].
  destruct (row !! i) as [v |] eqn:Hv; simpl; [| lia].
  specialize (Hnn k row Hrow). simpl in Hnn.
  rewrite Forall_forall in Hnn. apply Hnn.
  eapply list_elem_of_lookup_2. exact Hv.
Qed.

(** C3.  In the remapped row of an instrument, the cell [t] of bar [b]
    holds the maximum of the velocities of the old steps of the bar that
    are moved to [t]: it bounds each of them, it is the velocity of one of
    them when one of them sounds, and it is 0 when none does (steps of
    velocity 0 add nothing). *)
Theorem remap_collision_keeps_max (bars : nat) (g : Grid) (old new : nat)
    (inst : string) (b t : nat) :
  inst ∈ id <$> INSTRUMENTS → b < bars → t < new → nonneg_grid g →
  ∃ out v,
    remapGrid bars g old new !! inst = Some out
    ∧ out !! (b * new + t) = Some v
    ∧ (∀ s, s < old → clamped old new s = Z.of_nat t →
         (velocityAt g inst (b * old + s) ≤ v)%Z)
    ∧ ((∃ s, s < old ∧ clamped old new s = Z.of_nat t
             ∧ velocityAt g inst (b * old + s) ≠ 0%Z) →
       ∃ s, s < old ∧ clamped old new s = Z.of_nat t
            ∧ velocityAt g inst (b * old + s) = v ∧ v ≠ 0%Z)
    ∧ ((∀ s, s < old → clamped old new s = Z.of_nat t →
          velocityAt g inst (b * old + s) = 0%Z) → v = 0%Z).
Proof.
  intros Hinst Hb Ht Hnn.
  exists (remap_row bars g inst old new),
         (foldl (cell_step g inst old new b t) 0%Z (seq 0 old)).
  split.
  { rewrite remapGrid_lookup. rewrite decide_True; [done |].
    by apply elem_of_list_to_set. }
  split; [by apply remap_row_cell |].
  destruct (acc_fold_bounds g inst old new b t (seq 0 old) 0%Z)
    as (Hle & Hub & Hat).
  split; [| split].
  - intros s Hs Hc.
    destruct (decide (velocityAt g inst (b * old + s) = 0%Z)) as [-> | Hnz];
      [done |].
    apply Hub; [| done | done]. apply elem_of_seq. lia.
  - intros (s0 & Hs0 & Hc0 & Hnz0).
    assert (velocityAt g inst (b * old + s0)
            ≤ foldl (cell_step g inst old new b t) 0 (seq 0 old))%Z as Hge.
    { apply Hub; [| done | done]. apply elem_of_seq. lia. }
    pose proof (velocityAt_nonneg g inst (b * old + s0) Hnn) as H0.
    destruct Hat as [Heq | (s & Hs & Hc & Hnz & Hv)]; [lia |].
    exists s. apply elem_of_seq in Hs. repeat split; [lia | done | done | lia].
  - intros Hall. destruct Hat as [Heq | (s & Hs & Hc & Hnz & Hv)]; [done |].
    apply elem_of_seq in Hs. exfalso. apply Hnz. apply Hall; [lia | done].
Qed.

Lemma remap_collision_keeps_max_witness :
  ∃ out v,
    remapGrid 1 {["kick" := [60; 100]%Z]} 2 1 !! "kick" = Some out
    ∧ out !! (0 * 1 + 0) = Some v
    ∧ (∀ s, s < 2 → clamped 2 1 s = Z.of_nat 0 →
         (velocityAt {["kick" := [60; 100]%Z]} "kick" (0 * 2 + s) ≤ v)%Z)
    ∧ ((∃ s, s < 2 ∧ clamped 2 1 s = Z.of_nat 0
             ∧ velocityAt {["kick" := [60; 100]%Z]} "kick" (0 * 2 + s) ≠ 0%Z) →
       ∃ s, s < 2 ∧ clamped 2 1 s = Z.of_nat 0
            ∧ velocityAt {["kick" := [60; 100]%Z]} "kick" (0 * 2 + s) = v
            ∧ v ≠ 0%Z)
    ∧ ((∀ s, s < 2 → clamped 2 1 s = Z.of_nat 0 →
          velocityAt {["kick" := [60; 100]%Z]} "kick" (0 * 2 + s) = 0%Z) →
       v = 0%Z).
Proof.
  apply (remap_collision_keeps_max 1 {["kick" := [60; 100]%Z]} 2 1 "kick" 0 0).
  - compute_done.
  - lia.
  - lia.
  - compute_done.
Defined.

Example remap_two_into_one :
  remapGrid 1 {["kick" := [60; 100]%Z]} 2 1 !! "kick" = Some [100%Z].
Proof. reflexivity. Qed.

Lemma cell_fold_same (g : Grid) (k : string) (n b t : nat) :
  t < n → nonneg_grid g →
  foldl (cell_step g k n n b t) 0%Z (seq 0 n) = velocityAt g k (b * n + t).
Proof.
  intros Ht Hnn.
  destruct (acc_fold_bounds g k n n b t (seq 0 n) 0%Z) as (_ & Hub & Hat).
  pose proof (velocityAt_nonneg g k (b * n + t) Hnn) as H0.
  destruct Hat as [Heq | (s & Hs & Hc & _ & Hv)].
  - destruct (decide (velocityAt g k (b * n + t) = 0%Z)) as [Hz | Hnz];
      [congruence |].
    assert (velocityAt g k (b * n + t)
            ≤ foldl (cell_step g k n n b t) 0 (seq 0 n))%Z; [| lia].
    apply Hub; [apply elem_of_seq; lia | by apply clamped_same | done].
  - apply elem_of_seq in Hs. rewrite clamped_same in Hc by lia.
    assert (s = t) as -> by lia. done.
Qed.

(** C4.  Remapping a grid of the data model (a row of [bars * n] cells
    for each instrument, no velocity negative) from [n] steps per bar to
    [n] steps per bar, [n] positive, gives the grid back. *)
Theorem remap_identity (bars : nat) (g : Grid) (n : nat) :
  1 ≤ n → grid_shape (bars * n) g → nonneg_grid g →
  remapGrid bars g n n = g.
Proof.
  intros Hn [Hdom Hlen] Hnn. apply map_eq. intros k.
  rewrite remapGrid_lookup.
  destruct (decide (k ∈ instrument_ids)) as [Hin | Hnin].
  - rewrite <- Hdom in Hin. apply elem_of_dom in Hin as [row Hrow].
    rewrite Hrow. f_equal. specialize (Hlen k row Hrow). simpl in Hlen.
    apply list_eq. intros j.
    destruct (decide (j < bars * n)) as [Hj | Hj].
    + assert (j = j / n * n + j mod n) as Hdm.
      { pose proof (Nat.div_mod_eq j n). lia. }
      assert (j mod n < n) as Ht by (apply Nat.mod_upper_bound; lia).
      assert (j / n < bars) as Hb by (apply Nat.Div0.div_lt_upper_bound; lia).
      rewrite Hdm at 1. rewrite remap_row_cell by done.
      rewrite cell_fold_same by done. rewrite <- Hdm.
      unfold velocityAt. rewrite Hrow. simpl.
      destruct (lookup_lt_is_Some_2 row j) as [x Hx]; [lia |].
      by rewrite Hx.
    + rewrite !lookup_ge_None_2; [done | lia |].
      rewrite remap_row_length. lia.
  - rewrite <- Hdom in Hnin. apply not_elem_of_dom in Hnin. by rewrite Hnin.
Qed.

Lemma remap_identity_witness : remapGrid 2 demo_grid 4 4 = demo_grid.
Proof.
  apply (remap_identity 2 demo_grid 4); [lia | | compute_done].
  split; [compute_done | compute_done].
Defined.

(** ** Notation *)

Lemma notationKey_catalog :
  Forall (λ inst, is_Some (notationKey (id inst))) INSTRUMENTS.
Proof. compute_done. Qed.

Lemma collectKeys_total (g : Grid) (insts : list Instrument) (i : nat)
    (acc : list string) :
  Forall (λ inst, is_Some (g !! id inst)) insts →
  Forall (λ inst, is_Some (notationKey (id inst))) insts →
  ∃ ks, collectKeys g insts i acc = Ok ks.
Proof.
  intros Hrows Hkeys. revert acc.
  induction insts as [| inst insts IH]; intros acc; simpl; [by eexists |].
  apply Forall_cons in Hrows as [[row Hrow] Hrows].
  apply Forall_cons in Hkeys as [[key Hkey] Hkeys].
  rewrite Hrow, Hkey. destruct (nonzero (row !! i)); by apply IH.
Qed.

Lemma keysAt_total (g : Grid) (i : nat) :
  has_rows g → ∃ ks, keysAt g i = Ok ks.
Proof.
  intros Hrows. apply collectKeys_total; [done | apply notationKey_catalog].
Qed.

Lemma collectKeys_anyHit (g : Grid) (insts : list Instrument) (i : nat)
    (acc ks : list string) :
  collectKeys g insts i acc = Ok ks →
  ∃ h, anyHit g insts i = Ok h
       ∧ if h then length acc < length ks else ks = acc.
Proof.
  revert acc. induction insts as [| inst insts IH]; intros acc; simpl.
  { intros [= <-]. by exists false. }
  destruct (g !! id inst) as [row |]; [| done].
  destruct (nonzero (row !! i)).
  - destruct (notationKey (id inst)) as [key |]; [| done].
    intros H. exists true. split; [done |].
    destruct (IH _ H) as (h & _ & Hh). rewrite length_app in Hh. simpl in Hh.
    destruct h; [lia |]. subst ks. rewrite length_app. simpl. lia.
  - apply IH.
Qed.

(** A step is empty exactly when it has no keys. *)
Lemma isStepEmpty_keys (g : Grid) (i : nat) (ks : list string) :
  keysAt g i = Ok ks → isStepEmpty g i = Ok (bool_decide (ks = [])).
Proof.
  intros H. unfold isStepEmpty, hasAnyHitAt.
  destruct (collectKeys_anyHit g INSTRUMENTS i [] ks H) as (h & -> & Hh).
  simpl. destruct h.
  - rewrite bool_decide_eq_false_2; [done |]. intros ->. simpl in Hh. lia.
  - by rewrite bool_decide_eq_true_2.
Qed.

Lemma isStepEmpty_total (g : Grid) (i : nat) :
  has_rows g → ∃ e, isStepEmpty g i = Ok e.
Proof.
  intros Hrows. destruct (keysAt_total g i Hrows) as [ks Hks].
  eexists. by apply isStepEmpty_keys.
Qed.

Section Transcription.

Variable grid : Grid.
Variables resolution stepsPerBar : nat.
Variable timeSig : TimeSig.
Variables mergeRests mergeNotes : bool.

Hypothesis Hrows : has_rows grid.

(** What a merge block gives: nothing, or a note of two or four steps
    that lie in the bar, of the length of those steps. *)
Lemma mergeAt_cases (mk : string → StaveNote) (dq d8 : string) (b s : nat) :
  ∃ r, mergeAt grid resolution stepsPerBar timeSig mk dq d8 b s = Ok r ∧
    match r with
    | None => True
    | Some out =>
        (resolution = 8 ∧ out = (mk dq, 2) ∧ s + 1 < stepsPerBar)
        ∨ (resolution = 16 ∧ out = (mk dq, 4) ∧ s + 3 < stepsPerBar)
        ∨ (resolution = 16 ∧ out = (mk d8, 2) ∧ s + 1 < stepsPerBar)
    end.
Proof.
  unfold mergeAt, attempt, orElse, andThen.
  destruct (isStepEmpty_total grid (b * stepsPerBar + (s + 1)) Hrows) as [e1 ->].
  destruct (isStepEmpty_total grid (b * stepsPerBar + (s + 2)) Hrows) as [e2 ->].
  destruct (isStepEmpty_total grid (b * stepsPerBar + (s + 3)) Hrows) as [e3 ->].
  repeat (case_match; simpl in * ); simplify_eq;
    (eexists; split; [reflexivity |]); try done;
    repeat match goal with
    | H : _ && _ = true |- _ => apply andb_true_iff in H as [? ?]
    | H : (_ =? _) = true |- _ => apply Nat.eqb_eq in H
    | H : (_ <? _) = true |- _ => apply Nat.ltb_lt in H
    end; eauto 10.
Qed.

Hypothesis Hres : resolution = 4 ∨ resolution = 8 ∨ resolution = 16.

(** One turn of the loop gives a note that lasts as long as the steps it
    takes, and does not leave the bar. *)
Lemma stepAt_duration (b s : nat) :
  s < stepsPerBar →
  ∃ note adv,
    stepAt grid resolution stepsPerBar timeSig mergeRests mergeNotes b s
      = Ok (note, adv)
    ∧ 1 ≤ adv ∧ s + adv ≤ stepsPerBar
    ∧ wholeNotes (duration note) == Z.of_nat adv # Pos.of_nat resolution.
Proof.
  intros Hs. unfold stepAt.
  destruct (keysAt_total grid (b * stepsPerBar + s) Hrows) as [ks ->].
  cbn [rbind].
  destruct (mergeAt_cases (noteOf ks) "q" "8" b s) as (rn & -> & Hcn).
  destruct (mergeAt_cases restOf "qr" "8r" b s) as (rr & -> & Hcr).
  destruct (mergeNotes && negb (length ks =? 0)), rn as [[n1 a1] |],
    (mergeRests && (length ks =? 0)), rr as [[n2 a2] |],
    (length ks =? 0);
    cbn [rbind]; eexists _, _; (split; [reflexivity |]);
    try (destruct Hcn as [(-> & [= -> ->] & ?)
                         | [(-> & [= -> ->] & ?) | (-> & [= -> ->] & ?)]];
         (split; [lia | split; [lia | by vm_compute]]));
    try (destruct Hcr as [(-> & [= -> ->] & ?)
                         | [(-> & [= -> ->] & ?) | (-> & [= -> ->] & ?)]];
         (split; [lia | split; [lia | by vm_compute]]));
    (destruct Hres as [-> | [-> | ->]];
     (split; [lia | split; [lia | by vm_compute]])).
Qed.

Lemma Qplus_same_den (a c : Z) (p : positive) :
  ((a # p) + (c # p) == ((a + c)%Z # p))%Q.
Proof. unfold Qeq, Qplus. simpl. rewrite Pos2Z.inj_mul. ring. Qed.

(** With fuel for the steps that are left, the loop ends, and the notes
    from cursor [s] last as long as the steps from [s] to the end of the
    bar. *)
Lemma notesFrom_duration (fuel b s : nat) :
  s ≤ stepsPerBar → stepsPerBar - s ≤ fuel →
  ∃ notes,
    notesFrom grid resolution stepsPerBar timeSig mergeRests mergeNotes fuel b s
      = Ok notes
    ∧ totalDuration notes
      == Z.of_nat (stepsPerBar - s) # Pos.of_nat resolution.
Proof.
  revert s. induction fuel as [| fuel IH]; intros s Hs Hfuel.
  - assert (s = stepsPerBar) as -> by lia. exists []. simpl.
    rewrite Nat.leb_refl. split; [done |]. rewrite Nat.sub_diag. done.
  - simpl. destruct (stepsPerBar <=? s) eqn:Hend.
    + apply Nat.leb_le in Hend. assert (s = stepsPerBar) as -> by lia.
      exists []. split; [done |]. rewrite Nat.sub_diag. done.
    + apply Nat.leb_gt in Hend.
      destruct (stepAt_duration b s Hend) as (note & adv & -> & H1 & H2 & Hw).
      simpl. destruct (IH (s + adv)) as (rest & -> & Hrest); [lia | lia |].
      simpl. exists (note :: rest). split; [done |].
      unfold totalDuration in *. simpl. rewrite Hw, Hrest, Qplus_same_den.
      replace (Z.of_nat adv + Z.of_nat (stepsPerBar - (s + adv)))%Z
        with (Z.of_nat (stepsPerBar - s)) by lia.
      done.
Qed.

End Transcription.

Lemma computeStepsPerBar_exact (n d res : nat) :
  0 < n → 0 < d → 0 < res → (n * res) mod d = 0 →
  computeStepsPerBar (mkTimeSig n d) res * d = n * res.
Proof.
  intros Hn Hd Hr Hmod. unfold computeStepsPerBar. simpl.
  apply Nat.Lcm0.mod_divide in Hmod as [k Hk]. rewrite Hk.
  rewrite js_round_div_same by lia.
  destruct k as [| k']; [nia |]. rewrite Nat.max_r by lia. done.
Qed.

Lemma bar_durations_sum_all (grid : Grid) (resolution n d b : nat)
    (mergeRests mergeNotes : bool) :
  has_rows grid →
  resolution = 4 ∨ resolution = 8 ∨ resolution = 16 →
  0 < n → 0 < d → (n * resolution) mod d = 0 →
  ∃ notes,
    barNotes grid resolution (computeStepsPerBar (mkTimeSig n d) resolution)
             (mkTimeSig n d) mergeRests mergeNotes b = Ok notes
    ∧ totalDuration notes == Z.of_nat n # Pos.of_nat d.
Proof.
  intros Hrows Hres Hn Hd Hmod. unfold barNotes.
  destruct (notesFrom_duration grid resolution
              (computeStepsPerBar (mkTimeSig n d) resolution) (mkTimeSig n d)
              mergeRests mergeNotes Hrows Hres
              (computeStepsPerBar (mkTimeSig n d) resolution) b 0)
    as (notes & Hnotes & Hsum); [lia | lia |].
  exists notes. split; [done |]. rewrite Nat.sub_0_r in Hsum. rewrite Hsum.
  assert (0 < resolution) as Hr by lia.
  pose proof (computeStepsPerBar_exact n d resolution Hn Hd Hr Hmod) as Hex.
  unfold Qeq. simpl.
  rewrite <- (positive_nat_Z (Pos.of_nat d)), <- (positive_nat_Z (Pos.of_nat resolution)).
  rewrite !Nat2Pos.id by lia. lia.
Qed.

(** C1 (as amended).  For a grid with a row for every instrument, a
    resolution of 4, 8 or 16, any time signature of positive numbers and
    any bar, the loop ends and the durations of the notes of the bar add
    up to [stepsPerBar / resolution] whole notes, [stepsPerBar] being the
    rounded and clamped [max (1, round (numerator * resolution /
    denominator))]; when the denominator divides numerator times
    resolution (as in 4/4, 3/4 and 6/8 at every resolution) that is
    [numerator / denominator] whole notes. *)
Theorem bar_durations_sum (grid : Grid) (resolution n d b : nat)
    (mergeRests mergeNotes : bool) :
  has_rows grid →
  resolution = 4 ∨ resolution = 8 ∨ resolution = 16 →
  0 < n → 0 < d →
  ∃ notes,
    barNotes grid resolution (computeStepsPerBar (mkTimeSig n d) resolution)
             (mkTimeSig n d) mergeRests mergeNotes b = Ok notes
    ∧ totalDuration notes
      == Z.of_nat (computeStepsPerBar (mkTimeSig n d) resolution)
         # Pos.of_nat resolution
    ∧ ((n * resolution) mod d = 0 →
       totalDuration notes == Z.of_nat n # Pos.of_nat d).
Proof.
  intros Hrows Hres Hn Hd. unfold barNotes.
  destruct (notesFrom_duration grid resolution
              (computeStepsPerBar (mkTimeSig n d) resolution) (mkTimeSig n d)
              mergeRests mergeNotes Hrows Hres
              (computeStepsPerBar (mkTimeSig n d) resolution) b 0)
    as (notes & Hnotes & Hsum); [lia | lia |].
  exists notes. split; [done |]. rewrite Nat.sub_0_r in Hsum.
  split; [done |]. intros Hmod. rewrite Hsum.
  assert (0 < resolution) as Hr by lia.
  pose proof (computeStepsPerBar_exact n d resolution Hn Hd Hr Hmod) as Hex.
  unfold Qeq. simpl.
  rewrite <- (positive_nat_Z (Pos.of_nat d)), <- (positive_nat_Z (Pos.of_nat resolution)).
  rewrite !Nat2Pos.id by lia. lia.
Qed.

(** The theorem at 3/8 in quarters, where the bar is rounded to two steps
    and lasts a half note, and at 4/4 in quarters, where it lasts four
    quarters. *)
Lemma bar_durations_sum_witness :
  (∃ notes,
     barNotes demo_grid 4 (computeStepsPerBar (mkTimeSig 3 8) 4)
              (mkTimeSig 3 8) true true 0 = Ok notes
     ∧ totalDuration notes == 2 # 4)
  ∧ (∃ notes,
       barNotes demo_grid 4 (computeStepsPerBar (mkTimeSig 4 4) 4)
                (mkTimeSig 4 4) true true 1 = Ok notes
       ∧ totalDuration notes == 4 # 4).
Proof.
  split.
  - destruct (bar_durations_sum demo_grid 4 3 8 0 true true)
      as (notes & Hnotes & Hsum & _); [compute_done | by left | lia | lia |].
    exists notes. split; [exact Hnotes | exact Hsum].
  - destruct (bar_durations_sum demo_grid 4 4 4 1 true true)
      as (notes & Hnotes & _ & Hbar); [compute_done | by left | lia | lia |].
    exists notes. split; [exact Hnotes | exact (Hbar eq_refl)].
Defined.

(** In 3/8 at resolution 4 a bar has [round (12 / 8) = 2] steps, two
    quarters, and they last a half note, not three eighths. *)
Lemma bar_durations_sum_counterexample :
  ∃ notes,
    barNotes demo_grid 4 (computeStepsPerBar (mkTimeSig 3 8) 4)
             (mkTimeSig 3 8) true true 0 = Ok notes
    ∧ ¬ (totalDuration notes == 3 # 8).
Proof.
  eexists. split; [vm_compute; reflexivity |]. by vm_compute.
Qed.

(** The same for the whole [for] loop over the bars. *)
Lemma all_bars_durations (grid : Grid) (resolution bars n d : nat)
    (mergeRests mergeNotes : bool) :
  has_rows grid →
  resolution = 4 ∨ resolution = 8 ∨ resolution = 16 →
  0 < n → 0 < d → (n * resolution) mod d = 0 →
  ∃ notes,
    Notation_notes grid resolution bars
      (computeStepsPerBar (mkTimeSig n d) resolution) (mkTimeSig n d)
      mergeRests mergeNotes = Ok notes
    ∧ length notes = bars
    ∧ Forall (λ bar, totalDuration bar == Z.of_nat n # Pos.of_nat d) notes.
Proof.
  intros Hrows Hres Hn Hd Hmod. unfold Notation_notes.
  generalize 0 at 1. induction bars as [| k IH]; intros start; simpl.
  { exists []. by repeat split. }
  destruct (bar_durations_sum_all grid resolution n d start mergeRests
              mergeNotes Hrows Hres Hn Hd Hmod) as (bar & -> & Hbar).
  destruct (IH (S start)) as (rest & -> & Hlen & Hall). simpl.
  exists (bar :: rest). split; [done |]. split; [simpl; lia |].
  by apply Forall_cons.
Qed.

Example three_eight_at_quarters :
  computeStepsPerBar (mkTimeSig 3 8) 4 = 2
  ∧ barNotes demo_grid 4 2 (mkTimeSig 3 8) true true 0
    = Ok [noteOf ["f/4"] "q"; restOf "qr"].
Proof. split; reflexivity. Qed.

(** *** A bar is transcribed from its own steps *)

Lemma collectKeys_agree (g1 g2 : Grid) (insts : list Instrument) (i : nat)
    (acc : list string) :
  Forall (λ inst, readCell g1 (id inst) i = readCell g2 (id inst) i) insts →
  collectKeys g1 insts i acc = collectKeys g2 insts i acc.
Proof.
  intros H. revert acc. induction H as [| inst insts Hc _ IH]; intros acc;
    simpl; [done |].
  unfold readCell in Hc.
  destruct (g1 !! id inst) as [r1 |], (g2 !! id inst) as [r2 |];
    simpl in Hc; simplify_eq; [| done].
  rewrite Hc. destruct (nonzero (r2 !! i)); [| apply IH].
  destruct (notationKey (id inst)); [apply IH | done].
Qed.

Lemma anyHit_agree (g1 g2 : Grid) (insts : list Instrument) (i : nat) :
  Forall (λ inst, readCell g1 (id inst) i = readCell g2 (id inst) i) insts →
  anyHit g1 insts i = anyHit g2 insts i.
Proof.
  induction 1 as [| inst insts Hc _ IH]; simpl; [done |].
  unfold readCell in Hc.
  destruct (g1 !! id inst) as [r1 |], (g2 !! id inst) as [r2 |];
    simpl in Hc; simplify_eq; [| done].
  rewrite Hc. by destruct (nonzero (r2 !! i)).
Qed.

Section OneBar.

Variables g1 g2 : Grid.
Variables resolution stepsPerBar b : nat.
Variable timeSig : TimeSig.
Variables mergeRests mergeNotes : bool.

Hypothesis Hagree : agree_on_bar stepsPerBar b g1 g2.

Lemma agree_at (s : nat) :
  s < stepsPerBar →
  Forall (λ inst, readCell g1 (id inst) (b * stepsPerBar + s)
                  = readCell g2 (id inst) (b * stepsPerBar + s)) INSTRUMENTS.
Proof.
  intros Hs. eapply Forall_impl; [exact Hagree |]. simpl. intros inst Hi.
  rewrite Forall_forall in Hi. apply Hi. apply elem_of_seq. lia.
Qed.

Lemma keysAt_agree (s : nat) :
  s < stepsPerBar →
  keysAt g1 (b * stepsPerBar + s) = keysAt g2 (b * stepsPerBar + s).
Proof. intros Hs. apply collectKeys_agree. by apply agree_at. Qed.

Lemma isStepEmpty_agree (s : nat) :
  s < stepsPerBar →
  isStepEmpty g1 (b * stepsPerBar + s) = isStepEmpty g2 (b * stepsPerBar + s).
Proof.
  intros Hs. unfold isStepEmpty, hasAnyHitAt.
  by rewrite (anyHit_agree g1 g2) by by apply agree_at.
Qed.

(** The merge blocks test a next step only after [s + k < stepsPerBar]. *)
Lemma mergeAt_agree (mk : string → StaveNote) (dq d8 : string) (s : nat) :
  mergeAt g1 resolution stepsPerBar timeSig mk dq d8 b s
  = mergeAt g2 resolution stepsPerBar timeSig mk dq d8 b s.
Proof.
  unfold mergeAt.
  destruct (s + 1 <? stepsPerBar) eqn:E1.
  - apply Nat.ltb_lt in E1. rewrite (isStepEmpty_agree (s + 1)) by done.
    destruct (s + 3 <? stepsPerBar) eqn:E3.
    + apply Nat.ltb_lt in E3.
      rewrite (isStepEmpty_agree (s + 2)), (isStepEmpty_agree (s + 3)) by lia.
      done.
    + by rewrite !andb_false_r.
  - assert ((s + 3 <? stepsPerBar) = false) as ->.
    { apply Nat.ltb_ge. apply Nat.ltb_ge in E1. lia. }
    by rewrite !andb_false_r.
Qed.

Lemma stepAt_agree (s : nat) :
  s < stepsPerBar →
  stepAt g1 resolution stepsPerBar timeSig mergeRests mergeNotes b s
  = stepAt g2 resolution stepsPerBar timeSig mergeRests mergeNotes b s.
Proof.
  intros Hs. unfold stepAt. rewrite (keysAt_agree s Hs).
  destruct (keysAt g2 (b * stepsPerBar + s)) as [ks | |]; [| done | done].
  simpl. by rewrite !mergeAt_agree.
Qed.

Lemma notesFrom_agree (fuel s : nat) :
  notesFrom g1 resolution stepsPerBar timeSig mergeRests mergeNotes fuel b s
  = notesFrom g2 resolution stepsPerBar timeSig mergeRests mergeNotes fuel b s.
Proof.
  revert s. induction fuel as [| fuel IH]; intros s; simpl; [done |].
  destruct (stepsPerBar <=? s) eqn:Hend; [done |].
  apply Nat.leb_gt in Hend. rewrite (stepAt_agree s Hend).
  destruct (stepAt g2 _ _ _ _ _ _ _) as [out | |]; [| done | done].
  simpl. by rewrite IH.
Qed.

End OneBar.

(** C5.  Two grids that hold the same at every step of bar [b] (whatever
    they hold elsewhere) give the same notes for bar [b], or fail alike,
    under the same resolution, time signature and merge flags. *)
Theorem bar_notes_depend_on_own_steps (g1 g2 : Grid)
    (resolution stepsPerBar b : nat) (timeSig : TimeSig)
    (mergeRests mergeNotes : bool) :
  agree_on_bar stepsPerBar b g1 g2 →
  barNotes g1 resolution stepsPerBar timeSig mergeRests mergeNotes b
  = barNotes g2 resolution stepsPerBar timeSig mergeRests mergeNotes b.
Proof. intros Hagree. unfold barNotes. by apply notesFrom_agree. Qed.

Lemma bar_notes_depend_on_own_steps_witness :
  demo_grid ≠ demo_grid_other
  ∧ barNotes demo_grid 16 4 (mkTimeSig 1 4) true true 0
    = barNotes demo_grid_other 16 4 (mkTimeSig 1 4) true true 0.
Proof.
  split; [compute_done |].
  apply (bar_notes_depend_on_own_steps demo_grid demo_grid_other 16 4 0
           (mkTimeSig 1 4) true true).
  compute_done.
Defined.

(** *** The merge-note rules *)

Lemma subInBeat_mod (resolution : nat) (timeSig : TimeSig) (s : nat) :
  subInBeat resolution timeSig s = s mod stepsPerBeat resolution timeSig.
Proof.
  unfold subInBeat. destruct (stepsPerBeat resolution timeSig =? 0) eqn:E;
    [| done].
  apply Nat.eqb_eq in E. unfold stepsPerBeat in E. lia.
Qed.

Section MergeRules.

Variable grid : Grid.
Variables resolution stepsPerBar b : nat.
Variable timeSig : TimeSig.
Variable steps : list (list string).

Hypothesis Hview : bar_view grid stepsPerBar b steps.

(** A next step of the bar is empty in the step sequence exactly when the
    loop finds it inside the bar and without a hit. *)
Lemma next_in_bar (s k : nat) :
  s + k < stepsPerBar →
  isStepEmpty grid (b * stepsPerBar + (s + k))
  = Ok (bool_decide (steps !! (s + k) = Some [])).
Proof.
  intros Hk. destruct Hview as [Hlen Hkeys].
  destruct (lookup_lt_is_Some_2 steps (s + k)) as [ks Hks]; [lia |].
  rewrite (isStepEmpty_keys grid _ ks) by by apply Hkeys.
  rewrite Hks. f_equal. apply bool_decide_ext. split; [by intros -> | congruence].
Qed.

Lemma next_outside_bar (s k : nat) :
  stepsPerBar ≤ s + k → bool_decide (steps !! (s + k) = Some []) = false.
Proof.
  intros Hk. destruct Hview as [Hlen _].
  rewrite lookup_ge_None_2 by lia. by apply bool_decide_eq_false_2.
Qed.

Lemma mergeAt_spec (ks : list string) (s : nat) :
  mergeAt grid resolution stepsPerBar timeSig (noteOf ks) "q" "8" b s
  = Ok ((λ r, (noteOf ks (rule_duration r), rule_advance r))
        <$> find (spec_rule_matches resolution
                    (stepsPerBeat resolution timeSig) steps s)
                 spec_merge_note_rules).
Proof.
  unfold mergeAt. rewrite subInBeat_mod.
  unfold spec_merge_note_rules, spec_rule_matches.
  cbn [find rule_resolution rule_stepsPerBeat rule_subInBeat rule_nextEmpty
       rule_duration rule_advance forallb seq].
  set (spBeat := stepsPerBeat resolution timeSig).
  set (sub := s mod spBeat).
  assert (bool_decide (sub ∈ [0]) = (sub =? 0)) as ->.
  { destruct (sub =? 0) eqn:E.
    - apply Nat.eqb_eq in E. rewrite E. by apply bool_decide_eq_true_2, list_elem_of_singleton.
    - apply Nat.eqb_neq in E. apply bool_decide_eq_false_2.
      by intros ?%list_elem_of_singleton. }
  assert (bool_decide (sub ∈ [0; 2]) = (sub =? 0) || (sub =? 2)) as ->.
  { destruct (sub =? 0) eqn:E0; [| destruct (sub =? 2) eqn:E2]; simpl.
    - apply Nat.eqb_eq in E0. rewrite E0. apply bool_decide_eq_true_2.
      apply elem_of_cons. by left.
    - apply Nat.eqb_eq in E2. rewrite E2. apply bool_decide_eq_true_2.
      apply elem_of_cons. right. by apply list_elem_of_singleton.
    - apply Nat.eqb_neq in E0, E2. apply bool_decide_eq_false_2.
      intros [? | ?%list_elem_of_singleton]%elem_of_cons; done. }
  assert ((resolution =? 8) = true → (resolution =? 16) = false) as H816.
  { intros ?%Nat.eqb_eq. apply Nat.eqb_neq. lia. }
  assert ((spBeat =? 2) = true → (spBeat =? 4) = false) as H24.
  { intros ?%Nat.eqb_eq. apply Nat.eqb_neq. lia. }
  destruct (s + 1 <? stepsPerBar) eqn:L1.
  - apply Nat.ltb_lt in L1. rewrite (next_in_bar s 1) by done.
    destruct (s + 3 <? stepsPerBar) eqn:L3.
    + apply Nat.ltb_lt in L3.
      rewrite (next_in_bar s 2), (next_in_bar s 3) by lia.
      destruct (bool_decide (steps !! (s + 1) = Some [])),
        (bool_decide (steps !! (s + 2) = Some [])),
        (bool_decide (steps !! (s + 3) = Some []));
        destruct (resolution =? 8); try rewrite (H816 eq_refl);
        destruct (spBeat =? 2); try rewrite (H24 eq_refl);
        destruct (sub =? 0), (sub =? 2);
        try destruct (resolution =? 16); try destruct (spBeat =? 4);
        reflexivity.
    + apply Nat.ltb_ge in L3. rewrite (next_outside_bar s 3) by lia.
      rewrite !andb_false_r.
      destruct (bool_decide (steps !! (s + 1) = Some [])),
        (bool_decide (steps !! (s + 2) = Some []));
        destruct (resolution =? 8); try rewrite (H816 eq_refl);
        destruct (spBeat =? 2); try rewrite (H24 eq_refl);
        destruct (sub =? 0), (sub =? 2);
        try destruct (resolution =? 16); try destruct (spBeat =? 4);
        reflexivity.
  - apply Nat.ltb_ge in L1.
    assert ((s + 3 <? stepsPerBar) = false) as -> by (apply Nat.ltb_ge; lia).
    rewrite (next_outside_bar s 1) by lia.
    rewrite !andb_false_r. simpl.
    destruct (resolution =? 8), (resolution =? 16), (spBeat =? 2),
      (spBeat =? 4), (sub =? 0), (sub =? 2); reflexivity.
Qed.

End MergeRules.

(** When a bar is a whole number of beats (as in every time signature
    whose denominator divides the resolution), the steps a rule looks at
    from a position in the beat lie in the bar: the tests
    [s + k < stepsPerBar] of the loop then always hold. *)
Lemma rules_stay_in_bar (resolution stepsPerBar : nat) (timeSig : TimeSig)
    (s k : nat) :
  stepsPerBar mod stepsPerBeat resolution timeSig = 0 →
  s < stepsPerBar →
  subInBeat resolution timeSig s + k < stepsPerBeat resolution timeSig →
  s + k < stepsPerBar.
Proof.
  rewrite subInBeat_mod. set (spBeat := stepsPerBeat resolution timeSig).
  intros Hmod Hs Hk.
  apply Nat.Lcm0.mod_divide in Hmod as [m Hm].
  pose proof (Nat.div_mod_eq s spBeat) as Hdm.
  assert (s / spBeat < m) by nia. nia.
Qed.

Lemma stepAt_note_rules (grid : Grid) (resolution stepsPerBar b s : nat)
    (timeSig : TimeSig) (mergeRests : bool) (steps : list (list string))
    (ks : list string) :
  bar_view grid stepsPerBar b steps →
  steps !! s = Some ks → ks ≠ [] →
  stepAt grid resolution stepsPerBar timeSig mergeRests true b s
  = Ok (spec_note_event resolution timeSig steps s ks).
Proof.
  intros Hview Hs Hks. unfold stepAt.
  rewrite (proj2 Hview s ks Hs). cbn [rbind].
  assert ((length ks =? 0) = false) as ->.
  { apply Nat.eqb_neq. by destruct ks. }
  rewrite andb_false_r. cbn [negb andb rbind].
  rewrite (mergeAt_spec grid resolution stepsPerBar b timeSig steps Hview).
  unfold spec_note_event. fold (stepsPerBeat resolution timeSig).
  by destruct (find _ spec_merge_note_rules).
Qed.

Lemma stepAt_atomic_note (grid : Grid) (resolution stepsPerBar b s : nat)
    (timeSig : TimeSig) (mergeRests : bool) (ks : list string) :
  keysAt grid (b * stepsPerBar + s) = Ok ks → ks ≠ [] →
  stepAt grid resolution stepsPerBar timeSig mergeRests false b s
  = Ok (noteOf ks (dur resolution), 1).
Proof.
  intros Hk Hks. unfold stepAt. rewrite Hk. cbn [rbind].
  assert ((length ks =? 0) = false) as ->.
  { apply Nat.eqb_neq. by destruct ks. }
  by rewrite andb_false_r.
Qed.

(** In eighths of 4/4, off the beat, nothing is merged. *)
Lemma stepAt_offbeat_rest (grid : Grid) (stepsPerBar b : nat)
    (mergeRests mergeNotes : bool) :
  keysAt grid (b * stepsPerBar + 1) = Ok [] →
  stepAt grid 8 stepsPerBar (mkTimeSig 4 4) mergeRests mergeNotes b 1
  = Ok (restOf "8r", 1).
Proof.
  intros Hk. unfold stepAt. rewrite Hk. cbn [rbind length Nat.eqb negb].
  rewrite andb_false_r. cbn [rbind].
  unfold mergeAt, attempt.
  replace (subInBeat 8 (mkTimeSig 4 4) 1) with 1 by reflexivity.
  replace (stepsPerBeat 8 (mkTimeSig 4 4)) with 2 by reflexivity.
  cbn [Nat.eqb andb orb]. by destruct mergeRests.
Qed.

Lemma notesFrom_S (grid : Grid) (resolution stepsPerBar : nat)
    (timeSig : TimeSig) (mergeRests mergeNotes : bool) (fuel b s : nat) :
  notesFrom grid resolution stepsPerBar timeSig mergeRests mergeNotes
            (S fuel) b s
  = if stepsPerBar <=? s then Ok []
    else out ←r stepAt grid resolution stepsPerBar timeSig mergeRests
                  mergeNotes b s;
         rest ←r notesFrom grid resolution stepsPerBar timeSig mergeRests
                   mergeNotes fuel b (s + snd out);
         Ok (fst out :: rest).
Proof. reflexivity. Qed.

(** C2.  With merge-notes on and the cursor on a note, one turn of the loop
    gives what the four merge-note rules give, taken in their order on the
    step sequence of the bar, the first that matches winning, and one
    atomic note of the native duration and one step when none matches.
    In 4/4 at resolution 8, a hit on beat 1 with the next eighth empty
    starts the bar with one quarter note (the loop goes on at step 2) when
    merge-notes is on, and with an eighth note and an eighth rest when it
    is off. *)
Theorem note_merging_follows_rules :
  (∀ (grid : Grid) (resolution stepsPerBar b s : nat) (timeSig : TimeSig)
     (mergeRests : bool) (steps : list (list string)) (ks : list string),
     bar_view grid stepsPerBar b steps →
     steps !! s = Some ks → ks ≠ [] →
     stepAt grid resolution stepsPerBar timeSig mergeRests true b s
     = Ok (spec_note_event resolution timeSig steps s ks))
  ∧ (∀ (grid : Grid) (b : nat) (mergeRests : bool)
       (steps : list (list string)) (ks : list string),
       has_rows grid →
       bar_view grid (computeStepsPerBar (mkTimeSig 4 4) 8) b steps →
       steps !! 0 = Some ks → ks ≠ [] → steps !! 1 = Some [] →
       (∃ rest,
          barNotes grid 8 (computeStepsPerBar (mkTimeSig 4 4) 8)
                   (mkTimeSig 4 4) mergeRests true b
          = Ok (noteOf ks "q" :: rest)
          ∧ notesFrom grid 8 8 (mkTimeSig 4 4) mergeRests true 7 b 2 = Ok rest)
       ∧ (∃ rest,
            barNotes grid 8 (computeStepsPerBar (mkTimeSig 4 4) 8)
                     (mkTimeSig 4 4) mergeRests false b
            = Ok (noteOf ks "8" :: restOf "8r" :: rest)
            ∧ notesFrom grid 8 8 (mkTimeSig 4 4) mergeRests false 6 b 2
              = Ok rest)).
Proof.
  split; [apply stepAt_note_rules |].
  intros grid b mergeRests steps ks Hrows Hview H0 Hks H1.
  replace (computeStepsPerBar (mkTimeSig 4 4) 8) with 8 in * by reflexivity.
  split.
  - destruct (notesFrom_duration grid 8 8 (mkTimeSig 4 4) mergeRests true
                Hrows ltac:(auto) 7 b 2) as (rest & Hrest & _); [lia | lia |].
    exists rest. split; [| done]. unfold barNotes.
    rewrite notesFrom_S. cbn [Nat.leb].
    rewrite (stepAt_note_rules grid 8 8 b 0 (mkTimeSig 4 4) mergeRests
               steps ks Hview H0 Hks).
    unfold spec_note_event, spec_merge_note_rules, spec_rule_matches.
    cbn [find rule_resolution rule_stepsPerBeat rule_subInBeat rule_nextEmpty
         rule_duration rule_advance forallb seq ts_d].
    replace (Nat.max 1 (js_round_div 8 4)) with 2 by reflexivity.
    cbn [Nat.eqb andb Nat.add]. rewrite H1.
    assert (bool_decide (0 `mod` 2 ∈ [0]) = true) as -> by compute_done.
    rewrite bool_decide_eq_true_2 by done.
    cbn [andb rbind fst snd Nat.add rule_duration rule_advance].
    by rewrite Hrest.
  - destruct (notesFrom_duration grid 8 8 (mkTimeSig 4 4) mergeRests false
                Hrows ltac:(auto) 6 b 2) as (rest & Hrest & _); [lia | lia |].
    exists rest. split; [| done]. unfold barNotes.
    rewrite notesFrom_S. cbn [Nat.leb].
    rewrite (stepAt_atomic_note grid 8 8 b 0 (mkTimeSig 4 4) mergeRests ks);
      [| by apply (proj2 Hview) | done].
    cbn [rbind fst snd Nat.add].
    rewrite notesFrom_S. cbn [Nat.leb].
    rewrite (stepAt_offbeat_rest grid 8 b mergeRests false)
      by by apply (proj2 Hview).
    cbn [rbind fst snd Nat.add]. by rewrite Hrest.
Qed.

Lemma note_merging_follows_rules_witness :
  stepAt single_hit_grid 8 8 (mkTimeSig 4 4) true true 0 0
  = Ok (noteOf ["f/4"] "q", 2)
  ∧ barNotes single_hit_grid 8 (computeStepsPerBar (mkTimeSig 4 4) 8)
             (mkTimeSig 4 4) true true 0
    = Ok [noteOf ["f/4"] "q"; restOf "qr"; restOf "qr"; restOf "qr"]
  ∧ barNotes single_hit_grid 8 (computeStepsPerBar (mkTimeSig 4 4) 8)
             (mkTimeSig 4 4) true false 0
    = Ok [noteOf ["f/4"] "8"; restOf "8r"; restOf "qr"; restOf "qr";
          restOf "qr"].
Proof.
  assert (bar_view single_hit_grid 8 0 [["f/4"]; []; []; []; []; []; []; []])
    as Hview.
  { split; [reflexivity |]. intros s ks Hs.
    do 8 (destruct s as [| s]; [by injection Hs as <- |]). done. }
  destruct note_merging_follows_rules as [Hrules Hexample]. split.
  - apply (Hrules single_hit_grid 8 8 0 0 (mkTimeSig 4 4) true
             [["f/4"]; []; []; []; []; []; []; []] ["f/4"] Hview);
      [reflexivity | done].
  - destruct (Hexample single_hit_grid 0 true
                [["f/4"]; []; []; []; []; []; []; []] ["f/4"])
      as [(r1 & H1 & Hr1) (r2 & H2 & Hr2)];
      [compute_done | exact Hview | reflexivity | done | reflexivity |].
    split.
    + rewrite H1. vm_compute in Hr1. injection Hr1 as <-. reflexivity.
    + rewrite H2. vm_compute in Hr2. injection Hr2 as <-. reflexivity.
Defined.

Example single_hit_merged :
  barNotes single_hit_grid 8 8 (mkTimeSig 4 4) false true 0
  = Ok [noteOf ["f/4"] "q"; restOf "8r"; restOf "8r"; restOf "8r";
        restOf "8r"; restOf "8r"; restOf "8r"].
Proof. reflexivity. Qed.

Example single_hit_unmerged :
  barNotes single_hit_grid 8 8 (mkTimeSig 4 4) false false 0
  = Ok [noteOf ["f/4"] "8"; restOf "8r"; restOf "8r"; restOf "8r";
        restOf "8r"; restOf "8r"; restOf "8r"; restOf "8r"].
Proof. reflexivity. Qed.

(** ** The audio engine *)

Lemma play_continue_stopped (snap : Snapshot) (startStep : option Z)
    (e : Engine) (h : Host) :
  isPlaying e = false →
  let w := play_continue snap startStep e h in
  currentStep (fst w)
  = clamp (default 0%Z startStep) 0 (default 1%Z (snap_columns snap) - 1)
  ∧ nextNoteTime (fst w) = (currentTime h + (3 # 100))%Q
  ∧ isPlaying (fst w) = true
  ∧ timerId (fst w) = Some (nextHandle h)
  ∧ intervals (snd w) = {[nextHandle h]} ∪ intervals h.
Proof.
  intros Hstopped. unfold play_continue. rewrite Hstopped. simpl.
  repeat split. unfold clamp. lia.
Qed.

Lemma play_continue_playing (snap : Snapshot) (startStep : option Z)
    (e : Engine) (h : Host) :
  isPlaying e = true → play_continue snap startStep e h = (e, h).
Proof. intros Hplaying. unfold play_continue. by rewrite Hplaying. Qed.

Lemma ensureContext_transport (e : Engine) :
  isPlaying (ensureContext e) = isPlaying e
  ∧ currentStep (ensureContext e) = currentStep e
  ∧ nextNoteTime (ensureContext e) = nextNoteTime e
  ∧ timerId (ensureContext e) = timerId e.
Proof. unfold ensureContext. by destruct (audioCtx e). Qed.

(** With at least one column the two usual ways to write a clamp agree. *)
Lemma clamp_either_order (x hi : Z) :
  (0 ≤ hi)%Z → clamp x 0 hi = Z.min hi (Z.max 0 x).
Proof. intros Hhi. unfold clamp. lia. Qed.

(** C8 (as amended).  [play] tests [isPlaying] when it goes on after its
    [await], not when it is called.  A waiting [play] call that goes on
    while the engine is stopped sets the cursor to [startStep] (0 when
    absent) clamped to 0 and [columns - 1], [columns] being that of the
    snapshot and 1 when absent, sets the time of the next step to the
    audio clock's now + 0.03 and sets one new timer; one that goes on
    while the engine plays leaves the cursor, the time of the next step
    and the polling timer as they are.  So a [play] call made while no
    other call waits, and gone through before any other call, sets the
    clamped cursor when made while stopped and changes no transport when
    made while playing. *)
Theorem play_cursor (snap : Snapshot) (startStep : option Z)
    (e : Engine) (h : Host) :
  (∀ rest, pendingPlays h = startStep :: rest → ctx_running h = true →
     ∃ w, step (ResumePlay snap) (e, h) = Some w
          ∧ pendingPlays (snd w) = rest
          ∧ (isPlaying e = false →
               currentStep (fst w)
               = clamp (default 0%Z startStep) 0
                       (default 1%Z (snap_columns snap) - 1)
               ∧ nextNoteTime (fst w) = (currentTime h + (3 # 100))%Q
               ∧ isPlaying (fst w) = true
               ∧ timerId (fst w) = Some (nextHandle h)
               ∧ intervals (snd w) = {[nextHandle h]} ∪ intervals h)
          ∧ (isPlaying e = true → transport w = transport (e, h)))
  ∧ (pendingPlays h = [] →
     ∃ w, run [CallPlay startStep; ContextResumed; ResumePlay snap] (e, h)
          = Some w
          ∧ pendingPlays (snd w) = []
          ∧ (isPlaying e = false →
               currentStep (fst w)
               = clamp (default 0%Z startStep) 0
                       (default 1%Z (snap_columns snap) - 1))
          ∧ (isPlaying e = true → transport w = transport (e, h))).
Proof.
  split.
  - intros rest Hpending Hrunning. cbn [step]. rewrite Hpending, Hrunning.
    eexists. split; [reflexivity |]. split; [| split].
    + unfold play_continue. by destruct (isPlaying e).
    + intros Hstopped.
      exact (play_continue_stopped snap startStep e
               (with_pendingPlays h rest) Hstopped).
    + intros Hplaying. by rewrite play_continue_playing.
  - intros Hpending. cbn [run step play_begin]. rewrite Hpending.
    cbn [with_pendingPlays pendingPlays ctx_running app].
    destruct (ensureContext_transport e) as (Hp & Hc & Hn & Ht).
    eexists. split; [reflexivity |]. split; [| split].
    + unfold play_continue. by destruct (isPlaying (ensureContext e)).
    + intros Hstopped. rewrite <- Hp in Hstopped.
      destruct (play_continue_stopped snap startStep (ensureContext e)
                  (with_pendingPlays
                     (mkHost (currentTime h) true (intervals h)
                        (nextHandle h) [startStep] (started h)
                        (stepCalls h)) []) Hstopped) as [Hcursor _].
      exact Hcursor.
    + intros Hplaying. rewrite <- Hp in Hplaying.
      rewrite play_continue_playing by done.
      unfold transport. simpl. by rewrite Hp, Hc, Hn, Ht.
Qed.

(** A [play] call with [startStep] 20 that waits and goes on while the
    engine is stopped leaves the cursor on the last of the 8 columns; a
    [play] call made after it, while the engine plays, changes no
    transport. *)
Lemma play_cursor_witness :
  (∃ w, step (ResumePlay demo_snapshot)
          (ensureContext demo_engine,
           mkHost 0 true ∅ 1 [Some 20%Z] [] []) = Some w
        ∧ currentStep (fst w) = 7%Z)
  ∧ (∃ w, run [CallPlay (Some 3%Z); ContextResumed; ResumePlay demo_snapshot]
            (play demo_snapshot (Some 20%Z) demo_engine initialHost) = Some w
          ∧ transport w
            = transport (play demo_snapshot (Some 20%Z) demo_engine
                           initialHost)).
Proof.
  split.
  - destruct (proj1 (play_cursor demo_snapshot (Some 20%Z)
                       (ensureContext demo_engine)
                       (mkHost 0 true ∅ 1 [Some 20%Z] [] []))
                [] eq_refl eq_refl) as (w & Hstep & _ & Hstopped & _).
    exists w. split; [exact Hstep |].
    destruct (Hstopped eq_refl) as [-> _]. reflexivity.
  - destruct (play demo_snapshot (Some 20%Z) demo_engine initialHost)
      as [e1 h1] eqn:E.
    assert (isPlaying e1 = true ∧ pendingPlays h1 = []) as [Hplaying Hnone].
    { by injection E as <- <-. }
    destruct (proj2 (play_cursor demo_snapshot (Some 3%Z) e1 h1) Hnone)
      as (w & Hrun & _ & _ & Hsame).
    exists w. split; [exact Hrun | exact (Hsame Hplaying)].
Defined.

(** C8 as it was stated fails.  Two [play] calls are made while the engine
    is stopped, with [startStep] 2 and then 5, before the audio context
    runs.  The first to go on sets the cursor to 2; the second then finds
    the engine playing and returns: the call made while stopped with
    [startStep] 5 leaves the cursor at 2, not at 5 clamped to the 8
    columns. *)
Lemma play_cursor_counterexample :
  ∃ w1 w2,
    run [CallPlay (Some 2%Z)] (demo_engine, initialHost) = Some w1
    ∧ isPlaying (fst w1) = false
    ∧ run [CallPlay (Some 5%Z); ContextResumed; ResumePlay demo_snapshot;
           ResumePlay demo_snapshot] w1 = Some w2
    ∧ pendingPlays (snd w2) = []
    ∧ currentStep (fst w2) = 2%Z
    ∧ clamp 5 0 (default 1%Z (snap_columns demo_snapshot) - 1) = 5%Z
    ∧ currentStep (fst w2)
      ≠ clamp 5 0 (default 1%Z (snap_columns demo_snapshot) - 1).
Proof.
  eexists _, _. split; [reflexivity |]. split; [reflexivity |].
  split; [reflexivity |]. split; [reflexivity |]. split; [reflexivity |].
  split; [reflexivity |]. by vm_compute.
Qed.

Lemma Qltb_true (a c : Q) : (a < c)%Q → Qltb a c = true.
Proof.
  intros H. unfold Qltb. destruct (Qle_bool c a) eqn:E; [| done].
  apply Qle_bool_iff in E. lra.
Qed.

Lemma Qltb_false (a c : Q) : (c <= a)%Q → Qltb a c = false.
Proof.
  intros H. unfold Qltb. apply Qle_bool_iff in H. by rewrite H.
Qed.

Lemma secondsPerStep_pos (e : Engine) :
  (0 < bpm e)%Q → (0 < resolution e)%Q → (0 < secondsPerStep e)%Q.
Proof.
  intros Hb Hr. unfold secondsPerStep.
  apply Qmult_lt_0_compat; apply Qlt_shift_div_l; try done; lra.
Qed.

(** C7 (as amended).  [secondsPerStep ()] is [(60 / bpm) * (4 / resolution)],
    a positive time for positive tempo and resolution; at 120 beats a
    minute and resolution 16 it is 0.125 seconds.  After a [play] call made
    while stopped the first step is due at the audio clock's now + 0.03,
    which lies between now and now + 0.03 + ε, and the first poll hands the
    cursor's step to [scheduleStep] with that time. *)
Theorem secondsPerStep_and_first_step :
  (∀ e, (0 < bpm e)%Q → (0 < resolution e)%Q →
     (secondsPerStep e == ((60 # 1) / bpm e) * ((4 # 1) / resolution e))%Q
     ∧ (0 < secondsPerStep e)%Q)
  ∧ (∀ e, (bpm e == 120 # 1)%Q → (resolution e == 16 # 1)%Q →
       (secondsPerStep e == 125 # 1000)%Q)
  ∧ (∀ snap startStep e h, isPlaying e = false →
       let w := play snap startStep e h in
       nextNoteTime (fst w) = (currentTime h + (3 # 100))%Q
       ∧ (∀ ε, (0 <= ε)%Q →
            (currentTime h <= nextNoteTime (fst w))%Q
            ∧ (nextNoteTime (fst w) <= currentTime h + (3 # 100) + ε)%Q)
       ∧ (∀ fuel snap' h', (currentTime h <= currentTime h')%Q →
            ∃ e1,
              scheduler (S fuel) snap' (fst w) h'
              = scheduler_loop fuel snap' e1
                  (scheduleStep (fst w) (snap_grid snap')
                     (snap_instruments snap') (currentStep (fst w))
                     (currentTime h + (3 # 100))%Q h'))).
Proof.
  split; [| split].
  - intros e Hb Hr. split; [reflexivity | by apply secondsPerStep_pos].
  - intros e Hb Hr. unfold secondsPerStep. rewrite Hb, Hr. by vm_compute.
  - intros snap startStep e h Hstopped w.
    assert (isPlaying (ensureContext e) = false) as Hs'.
    { by rewrite (proj1 (ensureContext_transport e)). }
    assert (nextNoteTime (fst w) = (currentTime h + (3 # 100))%Q) as Hnext.
    { subst w. unfold play.
      by destruct (play_continue_stopped snap startStep (ensureContext e)
                     (mkHost (currentTime h) true (intervals h) (nextHandle h)
                        (pendingPlays h) (started h) (stepCalls h)) Hs')
        as (_ & -> & _). }
    assert (audioCtx (fst w) = true) as Hctx.
    { subst w. unfold play, play_continue. rewrite Hs'. simpl.
      unfold ensureContext. by destruct (audioCtx e) eqn:E. }
    split; [done |]. split.
    + intros ε Hε. rewrite Hnext. split; lra.
    + intros fuel snap' h' Hclock. eexists.
      unfold scheduler. rewrite Hctx. cbn [negb scheduler_loop].
      rewrite Qltb_true; [by rewrite Hnext |].
      rewrite Hnext. unfold scheduleAheadTimeSec. lra.
Qed.

Lemma secondsPerStep_and_first_step_witness :
  (secondsPerStep demo_engine == 125 # 1000)%Q
  ∧ nextNoteTime (fst (play demo_snapshot None demo_engine initialHost))
    = (currentTime initialHost + (3 # 100))%Q.
Proof.
  destruct secondsPerStep_and_first_step as (_ & Hexample & Hplay). split.
  - apply (Hexample demo_engine); reflexivity.
  - apply (Hplay demo_snapshot None demo_engine initialHost). reflexivity.
Defined.

(** At 120 beats a minute and resolution 16 a step lasts an eighth of a
    second, not a sixteenth. *)
Lemma secondsPerStep_counterexample :
  bpm initialEngine = 120 # 1 ∧ resolution initialEngine = 16 # 1
  ∧ ¬ (secondsPerStep initialEngine == 625 # 10000)%Q.
Proof. split; [done |]. split; [done |]. by vm_compute. Qed.

(** *** A missing sample *)

Lemma trigger_missing (e : Engine) (inst : string) (time : Q) (velocity : Z)
    (h : Host) :
  buffers e !! inst = None → trigger e inst time velocity h = h.
Proof.
  intros Hnone. unfold trigger. rewrite Hnone.
  by destruct (negb (audioCtx e) || negb (master e)).
Qed.

Lemma trigger_host (e : Engine) (inst : string) (time : Q) (velocity : Z)
    (h : Host) :
  host_core (trigger e inst time velocity h) = host_core h
  ∧ started (trigger e inst time velocity h)
    = (started h
       ++ (if audioCtx e && master e
              && bool_decide (is_Some (buffers e !! inst))
           then [mkSourceStart inst time
                   (Qmax' 0 (Qmin' 1 (inject_Z velocity / (127 # 1))))]
           else []))%list.
Proof.
  unfold trigger.
  destruct (audioCtx e), (master e), (buffers e !! inst) as [buf |] eqn:Hb;
    simpl; rewrite ?app_nil_r; try done.
Qed.

Lemma scheduleStep_triggers (e : Engine) (g : Grid) (insts : list Instrument)
    (stepIndex : Z) (time : Q) (h : Host) :
  host_core
    (foldl (λ h inst,
              let vel := velocityAtStep g (id inst) stepIndex in
              if (0 <? vel)%Z then trigger e (id inst) time vel h else h)
           h insts)
  = host_core h
  ∧ started
      (foldl (λ h inst,
                let vel := velocityAtStep g (id inst) stepIndex in
                if (0 <? vel)%Z then trigger e (id inst) time vel h else h)
             h insts)
    = (started h ++ stepStarts e g insts stepIndex time)%list.
Proof.
  revert h. induction insts as [| inst insts IH]; intros h.
  { cbn [foldl]. unfold stepStarts. simpl. by rewrite app_nil_r. }
  cbn [foldl]. cbv zeta.
  destruct (IH (if (0 <? velocityAtStep g (id inst) stepIndex)%Z
                then trigger e (id inst) time
                       (velocityAtStep g (id inst) stepIndex) h
                else h)) as [Hc Hs].
  cbv zeta in Hc, Hs. rewrite Hc, Hs.
  destruct (trigger_host e (id inst) time
              (velocityAtStep g (id inst) stepIndex) h) as [Hc1 Hs1].
  assert (stepStarts e g (inst :: insts) stepIndex time
          = ((if audioCtx e && master e
                 && (0 <? velocityAtStep g (id inst) stepIndex)%Z
                 && bool_decide (is_Some (buffers e !! id inst))
              then [mkSourceStart (id inst) time
                      (Qmax' 0 (Qmin' 1
                         (inject_Z (velocityAtStep g (id inst) stepIndex)
                          / (127 # 1))))]
              else [])
             ++ stepStarts e g insts stepIndex time)%list) as -> by done.
  destruct (0 <? velocityAtStep g (id inst) stepIndex)%Z.
  - rewrite Hc1, Hs1. split; [done |]. rewrite <- app_assoc. f_equal.
    by rewrite andb_true_r.
  - split; [done |]. by rewrite andb_false_r.
Qed.

Lemma scheduleStep_started (e : Engine) (g : Grid) (insts : list Instrument)
    (stepIndex : Z) (time : Q) (h : Host) :
  started (scheduleStep e g insts stepIndex time h)
  = (started h ++ stepStarts e g insts stepIndex time)%list.
Proof.
  unfold scheduleStep.
  destruct (scheduleStep_triggers e g insts stepIndex time h) as [_ Hs].
  by destruct (onStep e).
Qed.

Lemma scheduleStep_core (e1 e2 : Engine) (g : Grid) (insts : list Instrument)
    (stepIndex : Z) (time : Q) (h1 h2 : Host) :
  engine_core e1 = engine_core e2 → host_core h1 = host_core h2 →
  host_core (scheduleStep e1 g insts stepIndex time h1)
  = host_core (scheduleStep e2 g insts stepIndex time h2).
Proof.
  intros He Hh. unfold scheduleStep.
  destruct (scheduleStep_triggers e1 g insts stepIndex time h1) as [H1 _].
  destruct (scheduleStep_triggers e2 g insts stepIndex time h2) as [H2 _].
  simpl in H1, H2.
  assert (onStep e1 = onStep e2) as -> by (unfold engine_core in He; congruence).
  destruct (onStep e2); [| congruence].
  unfold host_core in *. simpl. congruence.
Qed.

(** The transport a poll leaves does not depend on the buffers, nor on
    the sample starts asked for before. *)
Lemma scheduler_loop_core (fuel : nat) (snap : Snapshot) (e1 e2 : Engine)
    (h1 h2 : Host) :
  engine_core e1 = engine_core e2 → host_core h1 = host_core h2 →
  world_core <$> scheduler_loop fuel snap e1 h1
  = world_core <$> scheduler_loop fuel snap e2 h2.
Proof.
  revert e1 e2 h1 h2. induction fuel as [| fuel IH]; intros e1 e2 h1 h2 He Hh.
  - simpl. unfold engine_core, host_core in He, Hh.
    assert (nextNoteTime e1 = nextNoteTime e2) as -> by congruence.
    assert (currentTime h1 = currentTime h2) as -> by congruence.
    destruct (Qltb _ _); [done |]. simpl. unfold world_core. simpl.
    unfold engine_core, host_core. congruence.
  - simpl.
    assert (nextNoteTime e1 = nextNoteTime e2) as Hn
      by (unfold engine_core in He; congruence).
    assert (currentTime h1 = currentTime h2) as Ht
      by (unfold host_core in Hh; congruence).
    rewrite Hn, Ht. destruct (Qltb _ _).
    + assert (currentStep e1 = currentStep e2) as Hc
        by (unfold engine_core in He; congruence).
      rewrite Hc. apply IH.
      * unfold engine_core, with_transport, secondsPerStep in *. simpl.
        congruence.
      * rewrite <- Hc, <- Hn. by apply scheduleStep_core.
    + simpl. unfold world_core. simpl. congruence.
Qed.

Lemma transport_of_core (w1 w2 : World) :
  world_core w1 = world_core w2 → transport w1 = transport w2.
Proof.
  unfold world_core, engine_core, host_core, transport. congruence.
Qed.

(** *** Stopping *)

Lemma stop_when_stopped (e : Engine) (h : Host) :
  isPlaying e = false → stop e h = (e, h).
Proof. intros Hstopped. unfold stop. by rewrite Hstopped. Qed.

Lemma scheduleStep_host (e : Engine) (g : Grid) (insts : list Instrument)
    (stepIndex : Z) (time : Q) (h : Host) :
  intervals (scheduleStep e g insts stepIndex time h) = intervals h
  ∧ nextHandle (scheduleStep e g insts stepIndex time h) = nextHandle h
  ∧ pendingPlays (scheduleStep e g insts stepIndex time h) = pendingPlays h.
Proof.
  unfold scheduleStep.
  destruct (scheduleStep_triggers e g insts stepIndex time h) as [Hc _].
  unfold host_core in Hc. destruct (onStep e); simpl; repeat split; congruence.
Qed.

Lemma scheduler_loop_timers (fuel : nat) (snap : Snapshot) (e e' : Engine)
    (h h' : Host) :
  scheduler_loop fuel snap e h = Some (e', h') →
  isPlaying e' = isPlaying e ∧ timerId e' = timerId e
  ∧ intervals h' = intervals h ∧ nextHandle h' = nextHandle h
  ∧ pendingPlays h' = pendingPlays h.
Proof.
  revert e h. induction fuel as [| fuel IH]; intros e h; simpl.
  - destruct (Qltb _ _); [done |]. by intros [= <- <-].
  - destruct (Qltb _ _); [| by intros [= <- <-]].
    intros H. apply IH in H. simpl in H.
    destruct (scheduleStep_host e (snap_grid snap) (snap_instruments snap)
                (currentStep e) (nextNoteTime e) h) as (Hi & Hn & Hp).
    destruct H as (H1 & H2 & H3 & H4 & H5). repeat split; congruence.
Qed.

(** The timers of the page stay those of the engine, whatever happens. *)
Lemma timers_ok_step (ev : Event) (w w' : World) :
  timers_ok w → step ev w = Some w' → timers_ok w'.
Proof.
  destruct w as [e h]. intros Hok. pose proof Hok as (Hpos & Hrange & Hoff & Hon).
  destruct ev; simpl.
  - intros [= <-]. unfold play_begin, timers_ok. simpl.
    destruct (ensureContext_transport e) as (-> & _ & _ & ->). done.
  - by intros [= <-].
  - destruct (pendingPlays h) as [| startStep rest] eqn:Hpend;
      [by intros [= <-] |].
    destruct (ctx_running h); [| by intros [= <-]].
    intros [= <-]. unfold play_continue.
    destruct (isPlaying e) eqn:Hp.
    { unfold timers_ok. simpl. rewrite Hp. done. }
    unfold timers_ok. simpl. rewrite (Hoff eq_refl).
    split; [lia |]. split.
    + intros t Ht. apply elem_of_union in Ht as [Ht | Ht].
      * apply elem_of_singleton in Ht. lia.
      * by apply elem_of_empty in Ht.
    + split; [done |]. intros _. eexists. split; [done |].
      by rewrite union_empty_r_L.
  - intros [= <-]. unfold stop. destruct (isPlaying e) eqn:Hp; simpl;
      [| unfold timers_ok; rewrite Hp; done].
    destruct (Hon eq_refl) as (t & Ht & Hset). rewrite Ht.
    assert (0 < t)%Z as Htpos.
    { apply Hrange. rewrite Hset. by apply elem_of_singleton. }
    destruct (t =? 0)%Z eqn:E; [apply Z.eqb_eq in E; lia |].
    unfold timers_ok. simpl. rewrite Hset.
    split; [done |]. split.
    + intros t' Ht'. apply elem_of_difference in Ht' as [Ht' _].
      apply Hrange. by rewrite Hset.
    + split; [| done]. intros _. apply set_eq. intros x.
      rewrite elem_of_difference. split; [by intros [? ?] |].
      by intros ?%elem_of_empty.
  - destruct (decide (handle ∈ intervals h)); [| by intros [= <-]].
    unfold scheduler. destruct (negb (audioCtx e)); [by intros [= <-] |].
    destruct w' as [e' h']. intros H.
    apply scheduler_loop_timers in H as (H1 & H2 & H3 & H4 & _).
    unfold timers_ok. rewrite H1, H2, H3, H4. done.
  - by intros [= <-].
  - by intros [= <-].
  - by intros [= <-].
  - by intros [= <-].
Qed.

Lemma timers_ok_initial : timers_ok (initialEngine, initialHost).
Proof.
  unfold timers_ok. simpl. split; [lia |]. split; [| done].
  intros t Ht. by apply elem_of_empty in Ht.
Qed.

Lemma timers_ok_run (evs : list Event) (w w' : World) :
  timers_ok w → run evs w = Some w' → timers_ok w'.
Proof.
  revert w. induction evs as [| ev evs IH]; intros w Hok; simpl.
  - by intros [= <-].
  - destruct (step ev w) as [w1 |] eqn:Hstep; [| done].
    apply IH. by eapply timers_ok_step.
Qed.

(** [stop ()] leaves a quiet page when no [play] call waits. *)
Lemma stop_quiet (e : Engine) (h : Host) :
  timers_ok (e, h) → pendingPlays h = [] → quiet (stop e h).
Proof.
  intros (Hpos & Hrange & Hoff & Hon) Hpending. unfold stop, quiet.
  destruct (isPlaying e) eqn:Hp; simpl; [| by rewrite Hoff].
  destruct (Hon eq_refl) as (t & -> & Hset).
  assert (0 < t)%Z as Htpos.
  { apply Hrange. rewrite Hset. by apply elem_of_singleton. }
  destruct (t =? 0)%Z eqn:E; [apply Z.eqb_eq in E; lia |]. simpl.
  split; [done |]. split; [| done]. rewrite Hset.
  apply set_eq. intros x. rewrite elem_of_difference.
  split; [by intros [? ?] | by intros ?%elem_of_empty].
Qed.

(** In a quiet page nothing but a [play] call starts a sample. *)
Lemma quiet_step (ev : Event) (w : World) :
  quiet w → is_CallPlay ev = false →
  ∃ w', step ev w = Some w' ∧ quiet w' ∧ started (snd w') = started (snd w).
Proof.
  destruct w as [e h]. intros (Hp & Hi & Hq) Hev. simpl in Hp, Hi, Hq.
  destruct ev; simpl; try done.
  - eexists. split; [done |]. by repeat split.
  - rewrite Hq. eexists. split; [done |]. by repeat split.
  - rewrite stop_when_stopped by done. eexists. split; [done |].
    by repeat split.
  - rewrite decide_False; [| rewrite Hi; by intros ?%elem_of_empty].
    eexists. split; [done |]. by repeat split.
  - eexists. split; [done |]. by repeat split.
  - eexists. split; [done |]. by repeat split.
  - eexists. split; [done |]. by repeat split.
  - eexists. split; [done |]. by repeat split.
Qed.

(** After a [stop ()] called between polls (not from the [onStep]
    callback of a poll that is running), with no [play] call waiting, no
    sample is started until [play] is called again: not by a timer
    callback for any handle, nor by a clock advance, nor by [setBuffers],
    [setTransport], [setOnStep] or another [stop ()]; the engine stays
    stopped. *)
Lemma no_trigger_after_stop (evs : list Event) (e : Engine) (h : Host) :
  timers_ok (e, h) → pendingPlays h = [] →
  Forall (λ ev, is_CallPlay ev = false) evs →
  ∃ w', run evs (stop e h) = Some w'
        ∧ isPlaying (fst w') = false
        ∧ started (snd w') = started h.
Proof.
  intros Hok Hpending Hevs.
  assert (started (snd (stop e h)) = started h) as Hst.
  { unfold stop. destruct (isPlaying e); [| done]. simpl.
    destruct (timerId e) as [t |]; [| done]. by destruct (t =? 0)%Z. }
  pose proof (stop_quiet e h Hok Hpending) as Hq.
  revert Hq Hst. generalize (stop e h) as w.
  induction Hevs as [| ev evs Hev _ IH]; intros w Hq Hst; simpl.
  - exists w. split; [done |]. split; [apply Hq | done].
  - destruct (quiet_step ev w Hq Hev) as (w1 & -> & Hq1 & Hs1).
    apply IH; [done | congruence].
Qed.

(** C6, where the engine departs from it.  When [stop ()] runs while a
    [play] call waits at its [await], [stop ()] returns with the engine
    stopped and nothing started; the waiting call then starts the polling,
    and the first poll starts the kick sample: a sample is started after
    [stop ()] has returned, with no [play] call after it. *)
Theorem stop_while_play_waits :
  ∃ w1 w2,
    run [CallPlay None; CallStop] (demo_engine, initialHost) = Some w1
    ∧ isPlaying (fst w1) = false
    ∧ started (snd w1) = []
    ∧ run [ContextResumed; ResumePlay demo_snapshot; ClockAdvance (25 # 1000);
           Tick 1 demo_snapshot] w1 = Some w2
    ∧ isPlaying (fst w2) = true
    ∧ started (snd w2) = [mkSourceStart "kick" (3 # 100) (100 # 127)].
Proof.
  eexists _, _. split; [reflexivity |]. split; [reflexivity |].
  split; [reflexivity |]. split; [vm_compute; reflexivity |].
  split; reflexivity.
Qed.

(** *** A poll ends *)

Lemma scheduleStep_clock (e : Engine) (g : Grid) (insts : list Instrument)
    (stepIndex : Z) (time : Q) (h : Host) :
  currentTime (scheduleStep e g insts stepIndex time h) = currentTime h.
Proof.
  unfold scheduleStep.
  destruct (scheduleStep_triggers e g insts stepIndex time h) as [Hc _].
  unfold host_core in Hc. destruct (onStep e); simpl; congruence.
Qed.

Lemma scheduler_loop_terminates (fuel : nat) (snap : Snapshot) (e : Engine)
    (h : Host) :
  (0 < secondsPerStep e)%Q →
  (currentTime h + scheduleAheadTimeSec - nextNoteTime e
   < inject_Z (Z.of_nat fuel) * secondsPerStep e)%Q →
  ∃ w, scheduler_loop fuel snap e h = Some w.
Proof.
  revert e h. induction fuel as [| fuel IH]; intros e h Hpos Hfuel.
  - simpl. rewrite Qltb_false; [by eexists |].
    change (inject_Z (Z.of_nat 0)) with 0%Q in Hfuel. lra.
  - cbn [scheduler_loop]. destruct (Qltb _ _); [| by eexists].
    apply IH.
    + exact Hpos.
    + rewrite scheduleStep_clock.
      change (nextNoteTime (with_transport e _ _ _ _))
        with (nextNoteTime e + secondsPerStep e)%Q.
      change (secondsPerStep (with_transport e _ _ _ _))
        with (secondsPerStep e).
      assert (inject_Z (Z.of_nat (S fuel)) * secondsPerStep e
              == inject_Z (Z.of_nat fuel) * secondsPerStep e
                 + secondsPerStep e)%Q as Heq.
      { rewrite Nat2Z.inj_succ, <- Z.add_1_r, inject_Z_plus. ring. }
      rewrite Heq in Hfuel. lra.
Qed.

Lemma scheduler_fuel_enough (e : Engine) (h : Host) :
  (0 < secondsPerStep e)%Q →
  (currentTime h + scheduleAheadTimeSec - nextNoteTime e
   < inject_Z (Z.of_nat (scheduler_fuel e h)) * secondsPerStep e)%Q.
Proof.
  intros Hpos.
  set (x := (currentTime h + scheduleAheadTimeSec - nextNoteTime e)%Q).
  assert (x / secondsPerStep e < inject_Z (Z.of_nat (scheduler_fuel e h)))%Q
    as Hx.
  { eapply Qle_lt_trans; [apply Qle_ceiling |]. rewrite <- Zlt_Qlt.
    unfold scheduler_fuel. fold x. lia. }
  assert (x == x / secondsPerStep e * secondsPerStep e)%Q as ->.
  { field. lra. }
  by apply Qmult_lt_compat_r.
Qed.

(** With a positive tempo and resolution, and times as the rationals
    they are here, the callback of the timer returns. *)
Lemma poll_returns (handle : Z) (snap : Snapshot) (e : Engine) (h : Host) :
  (0 < bpm e)%Q → (0 < resolution e)%Q →
  ∃ w, step (Tick handle snap) (e, h) = Some w.
Proof.
  intros Hb Hr. simpl. destruct (decide (handle ∈ intervals h)); [| by eexists].
  unfold scheduler. destruct (negb (audioCtx e)); [by eexists |].
  apply scheduler_loop_terminates; [by apply secondsPerStep_pos |].
  apply scheduler_fuel_enough. by apply secondsPerStep_pos.
Qed.

Example secondsPerStep_binary64_120_16 :
  secondsPerStep_binary64 120%float 16%float = 0.125%float.
Proof. reflexivity. Qed.

(** * Further properties of the grid operations *)

(** ** Remapping: shape, expansion and return *)

Lemma foldl_keeps_Forall {A : Type} (P : Z → Prop) (f : list Z → A → list Z)
    (l : list A) (out : list Z) :
  (∀ o x, Forall P o → Forall P (f o x)) →
  Forall P out → Forall P (foldl f out l).
Proof.
  intros Hf. revert out. induction l as [| x l IH]; intros out Hout; simpl;
    [done |].
  apply IH. by apply Hf.
Qed.

Lemma store_max_nonneg (out : list Z) (i val : Z) :
  Forall (λ v, (0 ≤ v)%Z) out → Forall (λ v, (0 ≤ v)%Z) (store_max out i val).
Proof.
  intros Hout. unfold store_max. case_decide; [| done].
  apply Forall_insert; [done |].
  destruct (out !! Z.to_nat i) as [x |] eqn:Hx; simpl; [| lia].
  rewrite Forall_forall in Hout.
  pose proof (Hout x (list_elem_of_lookup_2 _ _ _ Hx)). lia.
Qed.

Lemma remap_row_nonneg (bars : nat) (g : Grid) (inst : string) (old new : nat) :
  Forall (λ v, (0 ≤ v)%Z) (remap_row bars g inst old new).
Proof.
  unfold remap_row. apply foldl_keeps_Forall.
  - intros o b Ho. unfold remap_bar. apply foldl_keeps_Forall; [| done].
    intros o' s Ho'. unfold remap_step. destruct (_ =? _)%Z; [done |].
    by apply store_max_nonneg.
  - apply Forall_forall. intros v Hv. apply elem_of_replicate in Hv as [-> _].
    done.
Qed.

Lemma remapGrid_shape (bars : nat) (g : Grid) (old new : nat) :
  grid_shape (bars * new) (remapGrid bars g old new).
Proof.
  split.
  - apply set_eq. intros k. rewrite elem_of_dom, remapGrid_lookup.
    destruct (decide (k ∈ instrument_ids)) as [Hin | Hnin].
    + split; [done | by eexists].
    + split; [by intros [? ?] | done].
  - intros k row. rewrite remapGrid_lookup.
    destruct (decide (k ∈ instrument_ids)); [| done].
    intros [= <-]. apply remap_row_length.
Qed.

(** Whatever the grid it is given (rows missing, too short, with negative
    numbers), [remapGrid] returns a grid of the data model: a row for each
    instrument and no other, of [bars * newStepsPerBar] cells, none
    negative. *)
Theorem remapGrid_well_formed (bars : nat) (g : Grid) (old new : nat) :
  grid_shape (bars * new) (remapGrid bars g old new)
  ∧ nonneg_grid (remapGrid bars g old new).
Proof.
  split; [apply remapGrid_shape |].
  intros k row. rewrite remapGrid_lookup.
  destruct (decide (k ∈ instrument_ids)); [| done].
  intros [= <-]. apply remap_row_nonneg.
Qed.

(** A cell of the remapped grid, read the way the components read it. *)
Lemma velocityAt_remapGrid (bars : nat) (g : Grid) (old new : nat)
    (inst : string) (b t : nat) :
  inst ∈ instrument_ids → b < bars → t < new →
  velocityAt (remapGrid bars g old new) inst (b * new + t)
  = foldl (cell_step g inst old new b t) 0%Z (seq 0 old).
Proof.
  intros Hinst Hb Ht. unfold velocityAt.
  rewrite remapGrid_lookup, decide_True by done. simpl.
  by rewrite remap_row_cell.
Qed.

Lemma clamped_expand (n k s : nat) :
  1 ≤ k → s < n → clamped n (k * n) s = Z.of_nat (k * s).
Proof.
  intros Hk Hs. unfold clamped.
  replace (s * (k * n)) with ((k * s) * n) by lia.
  rewrite js_round_div_same by lia. nia.
Qed.

Lemma clamped_collapse (n k q : nat) :
  1 ≤ k → q < n → clamped (k * n) n (k * q) = Z.of_nat q.
Proof.
  intros Hk Hq. unfold clamped.
  replace (k * q * n) with (q * (k * n)) by lia.
  rewrite js_round_div_same by nia. lia.
Qed.

(** Going to [k] times the steps: old step [q] lands on new step [k * q],
    and the new steps between stay silent. *)
Lemma expand_cell (bars : nat) (g : Grid) (inst : string) (n k b t : nat) :
  1 ≤ k → inst ∈ instrument_ids → b < bars → t < k * n → nonneg_grid g →
  velocityAt (remapGrid bars g n (k * n)) inst (b * (k * n) + t)
  = if t mod k =? 0 then velocityAt g inst (b * n + t / k) else 0%Z.
Proof.
  intros Hk Hinst Hb Ht Hnn. rewrite velocityAt_remapGrid by done.
  destruct (acc_fold_bounds g inst n (k * n) b t (seq 0 n) 0%Z)
    as (_ & Hub & Hat).
  destruct (t mod k =? 0) eqn:Hmod.
  - apply Nat.eqb_eq in Hmod.
    assert (t = k * (t / k)) as Htk.
    { pose proof (Nat.div_mod_eq t k). lia. }
    assert (t / k < n) as Hq by nia.
    pose proof (velocityAt_nonneg g inst (b * n + t / k) Hnn) as H0.
    destruct Hat as [Heq | (s & Hs & Hc & _ & Hv)].
    + destruct (decide (velocityAt g inst (b * n + t / k) = 0%Z)) as [Hz | Hnz];
        [congruence |].
      assert (velocityAt g inst (b * n + t / k)
              ≤ foldl (cell_step g inst n (k * n) b t) 0 (seq 0 n))%Z; [| lia].
      apply Hub; [apply elem_of_seq; lia | | done].
      rewrite clamped_expand by lia. lia.
    + apply elem_of_seq in Hs. rewrite clamped_expand in Hc by lia.
      assert (s = t / k) as -> by nia. done.
  - apply Nat.eqb_neq in Hmod.
    destruct Hat as [Heq | (s & Hs & Hc & _ & _)]; [done |].
    apply elem_of_seq in Hs. rewrite clamped_expand in Hc by lia.
    exfalso. apply Hmod. assert (t = s * k) as -> by lia.
    apply Nat.Div0.mod_mul.
Qed.

Lemma expand_collapse_cell (bars : nat) (g : Grid) (inst : string)
    (n k b t : nat) :
  1 ≤ k → inst ∈ instrument_ids → b < bars → t < n → nonneg_grid g →
  foldl (cell_step (remapGrid bars g n (k * n)) inst (k * n) n b t) 0%Z
        (seq 0 (k * n))
  = velocityAt g inst (b * n + t).
Proof.
  intros Hk Hinst Hb Ht Hnn.
  destruct (acc_fold_bounds (remapGrid bars g n (k * n)) inst (k * n) n b t
              (seq 0 (k * n)) 0%Z) as (_ & Hub & Hat).
  pose proof (velocityAt_nonneg g inst (b * n + t) Hnn) as H0.
  assert (velocityAt (remapGrid bars g n (k * n)) inst (b * (k * n) + k * t)
          = velocityAt g inst (b * n + t)) as Hsrc.
  { rewrite expand_cell by (done || nia).
    replace (k * t) with (t * k) by lia.
    rewrite Nat.Div0.mod_mul, Nat.div_mul by lia. done. }
  destruct Hat as [Heq | (s & Hs & Hc & Hnz & Hv)].
  - destruct (decide (velocityAt g inst (b * n + t) = 0%Z)) as [Hz | Hnz];
      [congruence |].
    assert (velocityAt (remapGrid bars g n (k * n)) inst
              (b * (k * n) + k * t)
            ≤ foldl (cell_step (remapGrid bars g n (k * n)) inst (k * n) n b t)
                    0 (seq 0 (k * n)))%Z; [| lia].
    apply Hub; [apply elem_of_seq; nia | by apply clamped_collapse |].
    by rewrite Hsrc.
  - apply elem_of_seq in Hs.
    rewrite expand_cell in Hnz, Hv by (done || lia).
    destruct (s mod k =? 0) eqn:Hmod; [| done].
    apply Nat.eqb_eq in Hmod.
    assert (s = k * (s / k)) as Hsk.
    { pose proof (Nat.div_mod_eq s k). lia. }
    assert (s / k < n) as Hq by nia.
    rewrite Hsk, clamped_collapse in Hc by done.
    assert (s / k = t) as Hqt by lia. by rewrite Hqt in Hv.
Qed.

Lemma remapGrid_expand_back (bars : nat) (g : Grid) (n k : nat) :
  1 ≤ n → 1 ≤ k → grid_shape (bars * n) g → nonneg_grid g →
  remapGrid bars (remapGrid bars g n (k * n)) (k * n) n = g.
Proof.
  intros Hn Hk [Hdom Hlen] Hnn. apply map_eq. intros inst.
  rewrite remapGrid_lookup.
  destruct (decide (inst ∈ instrument_ids)) as [Hin | Hnin].
  - pose proof Hin as Hin'. rewrite <- Hdom in Hin'.
    apply elem_of_dom in Hin' as [row Hrow].
    rewrite Hrow. f_equal. specialize (Hlen inst row Hrow). simpl in Hlen.
    apply list_eq. intros j.
    destruct (decide (j < bars * n)) as [Hj | Hj].
    + assert (j = j / n * n + j mod n) as Hdm.
      { pose proof (Nat.div_mod_eq j n). lia. }
      assert (j mod n < n) as Ht by (apply Nat.mod_upper_bound; lia).
      assert (j / n < bars) as Hb by (apply Nat.Div0.div_lt_upper_bound; lia).
      rewrite Hdm at 1. rewrite remap_row_cell by done.
      rewrite expand_collapse_cell by done. rewrite <- Hdm.
      unfold velocityAt. rewrite Hrow. simpl.
      destruct (lookup_lt_is_Some_2 row j) as [x Hx]; [lia |].
      by rewrite Hx.
    + rewrite !lookup_ge_None_2; [done | lia |].
      rewrite remap_row_length. lia.
  - rewrite <- Hdom in Hnin. apply not_elem_of_dom in Hnin. by rewrite Hnin.
Qed.

(** Going to [k] times the steps per bar and back gives the grid back:
    nothing is lost by raising the resolution and lowering it again. *)
Theorem remap_expand_and_back (bars : nat) (g : Grid) (n k : nat) :
  1 ≤ n → 1 ≤ k → grid_shape (bars * n) g → nonneg_grid g →
  remapGrid bars (remapGrid bars g n (k * n)) (k * n) n = g.
Proof. apply remapGrid_expand_back. Qed.

Lemma remap_expand_and_back_witness :
  remapGrid 2 (remapGrid 2 demo_grid 4 (2 * 4)) (2 * 4) 4 = demo_grid.
Proof.
  apply (remap_expand_and_back 2 demo_grid 4 2); [lia | lia | | compute_done].
  split; compute_done.
Defined.

(** ** The resize effect *)

Lemma resizeGrid_lookup (columns : nat) (prev : Grid) (k : string) :
  resizeGrid columns prev !! k
  = if decide (k ∈ instrument_ids)
    then Some ((λ idx, velocityAt prev k idx) <$> seq 0 columns) else None.
Proof.
  unfold resizeGrid.
  rewrite (remapGrid_lookup_gen
             (λ k, (λ idx, velocityAt prev k idx) <$> seq 0 columns)).
  unfold instrument_ids.
  destruct (decide (k ∈ id <$> INSTRUMENTS)) as [Hin | Hnin].
  - rewrite decide_True; [done |]. by apply elem_of_list_to_set.
  - rewrite decide_False; [done |]. by rewrite elem_of_list_to_set.
Qed.

Lemma resizeGrid_shape (columns : nat) (prev : Grid) :
  grid_shape columns (resizeGrid columns prev).
Proof.
  split.
  - apply set_eq. intros k. rewrite elem_of_dom, resizeGrid_lookup.
    destruct (decide (k ∈ instrument_ids)) as [Hin | Hnin].
    + split; [done | by eexists].
    + split; [by intros [? ?] | done].
  - intros k row. rewrite resizeGrid_lookup.
    destruct (decide (k ∈ instrument_ids)); [| done].
    intros [= <-]. by rewrite length_fmap, length_seq.
Qed.

(** Resizing cuts each row at [columns] or fills it with zeros up to
    [columns], cell by cell in place, and keeps the rows of the catalog
    only. *)
Theorem resizeGrid_pads_and_truncates (columns : nat) (prev : Grid) :
  grid_shape columns (resizeGrid columns prev)
  ∧ ∀ inst i, inst ∈ id <$> INSTRUMENTS →
      velocityAt (resizeGrid columns prev) inst i
      = if i <? columns then velocityAt prev inst i else 0%Z.
Proof.
  split; [apply resizeGrid_shape |].
  intros inst i Hinst. unfold velocityAt at 1.
  rewrite resizeGrid_lookup, decide_True by by apply elem_of_list_to_set.
  simpl. rewrite list_lookup_fmap.
  destruct (i <? columns) eqn:Hi.
  - apply Nat.ltb_lt in Hi. by rewrite lookup_seq_lt.
  - apply Nat.ltb_ge in Hi. by rewrite lookup_seq_ge.
Qed.

Lemma resizeGrid_same (columns : nat) (g : Grid) :
  grid_shape columns g → resizeGrid columns g = g.
Proof.
  intros [Hdom Hlen]. apply map_eq. intros k. rewrite resizeGrid_lookup.
  destruct (decide (k ∈ instrument_ids)) as [Hin | Hnin].
  - rewrite <- Hdom in Hin. apply elem_of_dom in Hin as [row Hrow].
    rewrite Hrow. f_equal. specialize (Hlen k row Hrow). simpl in Hlen.
    apply list_eq. intros j. rewrite list_lookup_fmap.
    destruct (decide (j < columns)) as [Hj | Hj].
    + rewrite lookup_seq_lt by done. simpl. unfold velocityAt.
      rewrite Hrow. simpl.
      destruct (lookup_lt_is_Some_2 row j) as [x Hx]; [lia |]. by rewrite Hx.
    + rewrite lookup_seq_ge by lia. rewrite lookup_ge_None_2 by lia. done.
  - rewrite <- Hdom in Hnin. apply not_elem_of_dom in Hnin. by rewrite Hnin.
Qed.

(** Resizing twice to the same size is resizing once, and the resize that
    follows a remap (keep-timing on) changes nothing: the remapped grid
    already has the new size. *)
Theorem resize_is_stable (columns : nat) (g : Grid) (bars old new : nat) :
  resizeGrid columns (resizeGrid columns g) = resizeGrid columns g
  ∧ resizeGrid (bars * new) (remapGrid bars g old new)
    = remapGrid bars g old new.
Proof.
  split; apply resizeGrid_same; [apply resizeGrid_shape | apply remapGrid_shape].
Qed.

(** ** Toggling: the edges *)

Lemma nextVelocity_in_cycle (current : option Z) :
  nextVelocity current ∈ VELOCITY_CYCLE.
Proof.
  unfold nextVelocity, VELOCITY_CYCLE. cbn [indexOf length].
  repeat case_decide; compute_done.
Qed.

Lemma nextVelocity_outside (current : option Z) :
  current ≠ Some 0%Z → current ≠ Some 100%Z → nextVelocity current = 0%Z.
Proof.
  intros H0 H100. unfold nextVelocity, VELOCITY_CYCLE. cbn [indexOf length].
  repeat case_decide; done.
Qed.

(** What a toggle does off the normal path: on a missing row it is a
    TypeError; on an index past the end of the row it gives the grid back
    unchanged; on a cell that holds a number outside the cycle it writes
    0. *)
Theorem cycleVelocity_edges (g : Grid) (inst : string) (idx : nat) :
  (g !! inst = None → cycleVelocity inst idx g = None)
  ∧ (∀ row, g !! inst = Some row → length row ≤ idx →
       cycleVelocity inst idx g = Some g)
  ∧ (∀ row v, g !! inst = Some row → row !! idx = Some v →
       v ∉ VELOCITY_CYCLE →
       ∃ g1 row1, cycleVelocity inst idx g = Some g1
                  ∧ g1 !! inst = Some row1 ∧ row1 !! idx = Some 0%Z).
Proof.
  split; [| split].
  - intros Hnone. unfold cycleVelocity. by rewrite Hnone.
  - intros row Hrow Hlen. rewrite (cycleVelocity_row g inst idx row Hrow).
    f_equal. apply insert_id. rewrite Hrow. f_equal.
    apply list_eq. intros i. rewrite toggled_row_lookup.
    destruct (decide (i = idx)) as [-> | Hne]; [| done].
    by rewrite lookup_ge_None_2.
  - intros row v Hrow Hv Hout.
    rewrite (cycleVelocity_row g inst idx row Hrow).
    eexists _, _. split; [done |]. rewrite lookup_insert_eq.
    split; [done |]. rewrite toggled_row_lookup, decide_True by done.
    rewrite Hv. simpl. f_equal. apply nextVelocity_outside.
    + intros [= ->]. apply Hout. unfold VELOCITY_CYCLE.
      apply elem_of_cons. by left.
    + intros [= ->]. apply Hout. unfold VELOCITY_CYCLE.
      apply elem_of_cons. right. apply elem_of_cons. by left.
Qed.

Lemma cycleVelocity_edges_witness :
  cycleVelocity "ghost" 0 demo_grid = None
  ∧ cycleVelocity "kick" 99 demo_grid = Some demo_grid
  ∧ ∃ g1 row1,
      cycleVelocity "kick" 1 {["kick" := [0; 64]%Z]} = Some g1
      ∧ g1 !! "kick" = Some row1 ∧ row1 !! 1 = Some 0%Z.
Proof.
  split; [| split].
  - apply (proj1 (cycleVelocity_edges demo_grid "ghost" 0)). reflexivity.
  - apply (proj1 (proj2 (cycleVelocity_edges demo_grid "kick" 99))
             [100; 0; 0; 0; 100; 0; 100; 0]%Z); [reflexivity | simpl; lia].
  - apply (proj2 (proj2 (cycleVelocity_edges {["kick" := [0; 64]%Z]} "kick" 1))
             [0; 64]%Z 64%Z); [reflexivity | reflexivity | compute_done].
Defined.

(** After a toggle the cell holds 0 or 100, whatever it held: a third
    toggle gives the grid the first one gave. *)
Theorem cycleVelocity_settles (g : Grid) (inst : string) (idx : nat)
    (row : list Z) :
  g !! inst = Some row → idx < length row →
  ∃ g1 g2 row1 v1,
    cycleVelocity inst idx g = Some g1
    ∧ g1 !! inst = Some row1 ∧ row1 !! idx = Some v1 ∧ v1 ∈ VELOCITY_CYCLE
    ∧ cycleVelocity inst idx g1 = Some g2
    ∧ cycleVelocity inst idx g2 = Some g1.
Proof.
  intros Hrow Hidx.
  destruct (lookup_lt_is_Some_2 row idx Hidx) as [v Hv].
  pose proof (nextVelocity_in_cycle (Some v)) as Hin.
  destruct (nextVelocity_involutive _ Hin) as [Hinv _].
  set (row1 := imap (λ i x, if decide (i = idx)
                            then nextVelocity (Some v) else x) row).
  assert (row1 !! idx = Some (nextVelocity (Some v))) as Hv1.
  { unfold row1. rewrite toggled_row_lookup, decide_True, Hv by done. done. }
  set (row2 := imap (λ i x, if decide (i = idx)
                            then nextVelocity (Some (nextVelocity (Some v)))
                            else x) row1).
  assert (row2 !! idx = Some (nextVelocity (Some (nextVelocity (Some v)))))
    as Hv2.
  { unfold row2. rewrite toggled_row_lookup, decide_True, Hv1 by done. done. }
  exists (<[inst := row1]> g), (<[inst := row2]> (<[inst := row1]> g)),
         row1, (nextVelocity (Some v)).
  split; [by rewrite (cycleVelocity_row g inst idx row Hrow), Hv |].
  split; [apply lookup_insert_eq |]. split; [done |]. split; [done |].
  split.
  { rewrite (cycleVelocity_row _ inst idx row1) by apply lookup_insert_eq.
    by rewrite Hv1. }
  rewrite (cycleVelocity_row _ inst idx row2) by apply lookup_insert_eq.
  rewrite Hv2, Hinv, !insert_insert_eq. f_equal. f_equal.
  apply list_eq. intros i. unfold row2. rewrite !toggled_row_lookup.
  destruct (decide (i = idx)) as [-> | Hne]; [| done].
  rewrite Hv1. done.
Qed.

Lemma cycleVelocity_settles_witness :
  ∃ g1 g2 row1 v1,
    cycleVelocity "kick" 1 {["kick" := [0; 64]%Z]} = Some g1
    ∧ g1 !! "kick" = Some row1 ∧ row1 !! 1 = Some v1 ∧ v1 ∈ VELOCITY_CYCLE
    ∧ cycleVelocity "kick" 1 g1 = Some g2
    ∧ cycleVelocity "kick" 1 g2 = Some g1.
Proof.
  apply (cycleVelocity_settles {["kick" := [0; 64]%Z]} "kick" 1 [0; 64]%Z);
    [reflexivity | simpl; lia].
Defined.

(** * Further properties of the notation loop *)

Section Loop.

Variable grid : Grid.
Variables resolution stepsPerBar : nat.
Variable timeSig : TimeSig.

(** A merge block that merges has found the next steps in the bar and
    empty. *)
Lemma mergeAt_Some (mk : string → StaveNote) (dq d8 : string) (b s : nat)
    (out : StaveNote * nat) :
  mergeAt grid resolution stepsPerBar timeSig mk dq d8 b s = Ok (Some out) →
  (resolution = 8 ∧ out = (mk dq, 2) ∧ s + 1 < stepsPerBar
   ∧ isStepEmpty grid (b * stepsPerBar + (s + 1)) = Ok true)
  ∨ (resolution = 16 ∧ out = (mk dq, 4) ∧ s + 3 < stepsPerBar
     ∧ isStepEmpty grid (b * stepsPerBar + (s + 1)) = Ok true
     ∧ isStepEmpty grid (b * stepsPerBar + (s + 2)) = Ok true
     ∧ isStepEmpty grid (b * stepsPerBar + (s + 3)) = Ok true)
  ∨ (resolution = 16 ∧ out = (mk d8, 2) ∧ s + 1 < stepsPerBar
     ∧ isStepEmpty grid (b * stepsPerBar + (s + 1)) = Ok true).
Proof.
  unfold mergeAt, attempt, orElse, andThen, rbind. intros Hmerge.
  repeat (case_match; simplify_eq);
    repeat match goal with
    | H : _ && _ = true |- _ => apply andb_true_iff in H as [? ?]
    | H : (_ =? _) = true |- _ => apply Nat.eqb_eq in H
    | H : (_ <? _) = true |- _ => apply Nat.ltb_lt in H
    end; eauto 10.
Qed.

(** Outside eighths with two steps a beat and sixteenths with two or four,
    a merge block does nothing, and reads nothing. *)
Lemma mergeAt_unused (mk : string → StaveNote) (dq d8 : string) (b s : nat) :
  ¬ (resolution = 8 ∧ stepsPerBeat resolution timeSig = 2) →
  ¬ (resolution = 16 ∧ (stepsPerBeat resolution timeSig = 2
                        ∨ stepsPerBeat resolution timeSig = 4)) →
  mergeAt grid resolution stepsPerBar timeSig mk dq d8 b s = Ok None.
Proof.
  intros H8 H16. unfold mergeAt, attempt, orElse.
  destruct (resolution =? 8) eqn:E8, (resolution =? 16) eqn:E16,
    (stepsPerBeat resolution timeSig =? 2) eqn:B2,
    (stepsPerBeat resolution timeSig =? 4) eqn:B4;
    try apply Nat.eqb_eq in E8; try apply Nat.eqb_eq in E16;
    try apply Nat.eqb_eq in B2; try apply Nat.eqb_eq in B4;
    try (exfalso; apply H8; done); try (exfalso; apply H16; auto; done);
    done.
Qed.

Lemma collectKeys_no_fuel (insts : list Instrument) (i : nat)
    (acc : list string) :
  collectKeys grid insts i acc ≠ OutOfFuel.
Proof.
  revert acc. induction insts as [| inst insts IH]; intros acc; simpl; [done |].
  destruct (grid !! id inst); [| done].
  destruct (nonzero _); [| apply IH].
  destruct (notationKey _); [apply IH | done].
Qed.

Lemma anyHit_no_fuel (insts : list Instrument) (i : nat) :
  anyHit grid insts i ≠ OutOfFuel.
Proof.
  induction insts as [| inst insts IH]; simpl; [done |].
  destruct (grid !! id inst); [| done]. by destruct (nonzero _).
Qed.

Lemma attempt_no_fuel (cond : bool) (empties : Result bool)
    (out : StaveNote * nat) :
  empties ≠ OutOfFuel → attempt cond empties out ≠ OutOfFuel.
Proof. unfold attempt. by destruct cond, empties as [[|] | |]. Qed.

Lemma orElse_no_fuel (x y : Result (option (StaveNote * nat))) :
  x ≠ OutOfFuel → y ≠ OutOfFuel → orElse x y ≠ OutOfFuel.
Proof. unfold orElse. by destruct x as [[?|] | |]. Qed.

Lemma andThen_no_fuel (e1 e2 : Result bool) :
  e1 ≠ OutOfFuel → e2 ≠ OutOfFuel → andThen e1 e2 ≠ OutOfFuel.
Proof. unfold andThen. by destruct e1 as [[|] | |]. Qed.

Lemma mergeAt_no_fuel (mk : string → StaveNote) (dq d8 : string) (b s : nat) :
  mergeAt grid resolution stepsPerBar timeSig mk dq d8 b s ≠ OutOfFuel.
Proof.
  assert (∀ i, isStepEmpty grid i ≠ OutOfFuel) as He.
  { intros i. unfold isStepEmpty, hasAnyHitAt.
    pose proof (anyHit_no_fuel INSTRUMENTS i).
    by destruct (anyHit grid INSTRUMENTS i). }
  unfold mergeAt.
  apply orElse_no_fuel; [by apply attempt_no_fuel |].
  apply orElse_no_fuel; [| by apply attempt_no_fuel].
  destruct (_ && _); [| done].
  apply orElse_no_fuel; apply attempt_no_fuel; [| done].
  repeat apply andThen_no_fuel; done.
Qed.

Variables mergeRests mergeNotes : bool.

(** One turn of the loop, seen from its result. *)
Lemma stepAt_event (b s : nat) (note : StaveNote) (adv : nat)
    (ks : list string) :
  keysAt grid (b * stepsPerBar + s) = Ok ks →
  stepAt grid resolution stepsPerBar timeSig mergeRests mergeNotes b s
    = Ok (note, adv) →
  (adv = 1 ∨ (adv = 2 ∧ s + 1 < stepsPerBar) ∨ (adv = 4 ∧ s + 3 < stepsPerBar))
  ∧ (∀ k, 1 ≤ k < adv →
       isStepEmpty grid (b * stepsPerBar + (s + k)) = Ok true)
  ∧ (ks ≠ [] → keys note = ks ∧ stem_direction note = Some 1%Z
               ∧ duration note ∈ ["q"; "8"; "16"])
  ∧ (ks = [] → keys note = ["b/4"] ∧ stem_direction note = None
               ∧ duration note ∈ ["qr"; "8r"; "16r"]).
Proof.
  intros Hks. unfold stepAt. rewrite Hks. cbn [rbind].
  assert (dur resolution ∈ ["q"; "8"; "16"]) as Hdur.
  { unfold dur. destruct (resolution =? 4); [compute_done |].
    destruct (resolution =? 8); compute_done. }
  assert (dur resolution +:+ "r" ∈ ["qr"; "8r"; "16r"]) as Hdurr.
  { unfold dur. destruct (resolution =? 4); [compute_done |].
    destruct (resolution =? 8); compute_done. }
  assert (∀ mk dq d8 out,
            mergeAt grid resolution stepsPerBar timeSig mk dq d8 b s
              = Ok (Some out) →
            (snd out = 1 ∨ (snd out = 2 ∧ s + 1 < stepsPerBar)
             ∨ (snd out = 4 ∧ s + 3 < stepsPerBar))
            ∧ (∀ k, 1 ≤ k < snd out →
                 isStepEmpty grid (b * stepsPerBar + (s + k)) = Ok true)
            ∧ (fst out = mk dq ∨ fst out = mk d8)) as Hmerged.
  { intros mk dq d8 out H. apply mergeAt_Some in H.
    destruct H as [(_ & -> & ? & H1)
                  | [(_ & -> & ? & H1 & H2 & H3) | (_ & -> & ? & H1)]]; simpl.
    - split; [auto |]. split; [| auto]. intros k Hk.
      assert (k = 1) as -> by lia. exact H1.
    - split; [auto |]. split; [| auto]. intros k Hk.
      assert (k = 1 ∨ k = 2 ∨ k = 3) as [-> | [-> | ->]] by lia;
        assumption.
    - split; [auto |]. split; [| auto]. intros k Hk.
      assert (k = 1) as -> by lia. exact H1. }
  destruct ks as [| key ks'].
  - cbn [length Nat.eqb negb]. rewrite andb_false_r. cbn [rbind].
    destruct mergeRests; cbn [andb].
    + destruct (mergeAt grid resolution stepsPerBar timeSig restOf "qr" "8r" b s)
        as [[out |] | |] eqn:Hm; cbn [rbind]; try done.
      * intros [= ->]. destruct (Hmerged _ _ _ _ Hm) as (Ha & He & Hn).
        simpl in Ha, He, Hn. split; [done |]. split; [done |].
        split; [done |]. intros _.
        destruct Hn as [-> | ->]; repeat split; compute_done.
      * intros [= <- <-]. split; [auto |]. split; [intros k ?; lia |].
        split; [done |]. intros _. by repeat split.
    + cbn [rbind]. intros [= <- <-]. split; [auto |].
      split; [intros k ?; lia |]. split; [done |]. intros _. by repeat split.
  - cbn [length Nat.eqb negb]. rewrite !andb_false_r, andb_true_r.
    destruct mergeNotes.
    + destruct (mergeAt grid resolution stepsPerBar timeSig
                  (noteOf (key :: ks')) "q" "8" b s)
        as [[out |] | |] eqn:Hm; cbn [rbind]; try done.
      * intros [= ->]. destruct (Hmerged _ _ _ _ Hm) as (Ha & He & Hn).
        simpl in Ha, He, Hn. split; [done |]. split; [done |].
        split; [| done]. intros _.
        destruct Hn as [-> | ->]; repeat split; compute_done.
      * intros [= <- <-]. split; [auto |]. split; [intros k ?; lia |].
        split; [| done]. intros _. by repeat split.
    + cbn [rbind]. intros [= <- <-]. split; [auto |].
      split; [intros k ?; lia |]. split; [| done]. intros _. by repeat split.
Qed.

Lemma stepAt_no_fuel (b s : nat) :
  stepAt grid resolution stepsPerBar timeSig mergeRests mergeNotes b s
  ≠ OutOfFuel.
Proof.
  unfold stepAt, keysAt.
  pose proof (collectKeys_no_fuel INSTRUMENTS (b * stepsPerBar + s) []) as Hk.
  destruct (collectKeys grid INSTRUMENTS (b * stepsPerBar + s) [])
    as [ks | |]; [| done | done].
  cbn [rbind].
  pose proof (mergeAt_no_fuel (noteOf ks) "q" "8" b s) as Hn.
  pose proof (mergeAt_no_fuel restOf "qr" "8r" b s) as Hr.
  destruct (mergeNotes && negb (length ks =? 0)),
    (mergeRests && (length ks =? 0)),
    (mergeAt grid resolution stepsPerBar timeSig (noteOf ks) "q" "8" b s)
      as [[o1 |] | |],
    (mergeAt grid resolution stepsPerBar timeSig restOf "qr" "8r" b s)
      as [[o2 |] | |];
    cbn [rbind]; try done; by destruct (length ks =? 0).
Qed.

(** The loop of a bar ends within [stepsPerBar] turns, with at most one
    note a step and at least one every four. *)
Lemma notesFrom_ends (fuel b s : nat) :
  s ≤ stepsPerBar → stepsPerBar - s ≤ fuel →
  match notesFrom grid resolution stepsPerBar timeSig mergeRests mergeNotes
                  fuel b s with
  | Ok notes => length notes ≤ stepsPerBar - s
                ∧ stepsPerBar - s ≤ 4 * length notes
  | TypeError => True
  | OutOfFuel => False
  end.
Proof.
  revert s. induction fuel as [| fuel IH]; intros s Hs Hfuel.
  - assert (s = stepsPerBar) as -> by lia. simpl. rewrite Nat.leb_refl.
    simpl. lia.
  - simpl. destruct (stepsPerBar <=? s) eqn:Hend;
      [apply Nat.leb_le in Hend; simpl; lia |].
    apply Nat.leb_gt in Hend.
    pose proof (stepAt_no_fuel b s) as Hnf.
    destruct (stepAt grid resolution stepsPerBar timeSig mergeRests mergeNotes
                b s) as [[note adv] | |] eqn:Hstep; [| done | done].
    cbn [rbind fst snd].
    assert (∃ ks, keysAt grid (b * stepsPerBar + s) = Ok ks) as [ks Hks].
    { unfold stepAt in Hstep.
      destruct (keysAt grid (b * stepsPerBar + s)); [by eexists | done | done]. }
    destruct (stepAt_event b s note adv ks Hks Hstep) as (Hadv & _).
    specialize (IH (s + adv)).
    destruct (notesFrom grid resolution stepsPerBar timeSig mergeRests
                mergeNotes fuel b (s + adv)) as [rest | |]; cbn [rbind];
      [| done | apply IH; lia].
    simpl. assert (s + adv ≤ stepsPerBar) by lia.
    specialize (IH ltac:(lia) ltac:(lia)). lia.
Qed.

End Loop.

Lemma collectKeys_missing_row (g : Grid) (insts : list Instrument) (i : nat)
    (acc : list string) :
  Forall (λ inst, is_Some (notationKey (id inst))) insts →
  ¬ Forall (λ inst, is_Some (g !! id inst)) insts →
  collectKeys g insts i acc = TypeError.
Proof.
  intros Hkeys. revert acc.
  induction Hkeys as [| inst insts [key Hkey] _ IH]; intros acc Hmiss.
  { exfalso. apply Hmiss. constructor. }
  simpl. destruct (g !! id inst) as [row |] eqn:Hrow; [| done].
  assert (¬ Forall (λ inst, is_Some (g !! id inst)) insts) as Hrest.
  { intros Hall. apply Hmiss. constructor; [by eexists | done]. }
  rewrite Hkey. destruct (nonzero _); by apply IH.
Qed.

Lemma barNotes_total (grid : Grid) (resolution stepsPerBar b : nat)
    (timeSig : TimeSig) (mergeRests mergeNotes : bool) :
  has_rows grid →
  ∃ notes,
    barNotes grid resolution stepsPerBar timeSig mergeRests mergeNotes b
    = Ok notes
    ∧ length notes ≤ stepsPerBar ∧ stepsPerBar ≤ 4 * length notes.
Proof.
  intros Hrows.
  pose proof (notesFrom_ends grid resolution stepsPerBar timeSig mergeRests
                mergeNotes stepsPerBar b 0 ltac:(lia) ltac:(lia)) as Hends.
  unfold barNotes.
  assert (∀ fuel s, s ≤ stepsPerBar → stepsPerBar - s ≤ fuel →
            notesFrom grid resolution stepsPerBar timeSig mergeRests
                      mergeNotes fuel b s ≠ TypeError) as Hno.
  { induction fuel as [| fuel IH]; intros s Hs Hfuel; simpl.
    - by destruct (stepsPerBar <=? s).
    - destruct (stepsPerBar <=? s) eqn:Hend; [done |].
      apply Nat.leb_gt in Hend.
      destruct (keysAt_total grid (b * stepsPerBar + s) Hrows) as [ks Hks].
      destruct (stepAt grid resolution stepsPerBar timeSig mergeRests
                  mergeNotes b s) as [[note adv] | |] eqn:Hstep.
      + cbn [rbind fst snd].
        destruct (stepAt_event grid resolution stepsPerBar timeSig
                    mergeRests mergeNotes b s note adv ks Hks Hstep)
          as (Hadv & _).
        specialize (IH (s + adv) ltac:(lia) ltac:(lia)).
        by destruct (notesFrom _ _ _ _ _ _ fuel b (s + adv)).
      + exfalso. unfold stepAt in Hstep. rewrite Hks in Hstep.
        cbn [rbind] in Hstep.
        destruct (mergeAt_cases grid resolution stepsPerBar timeSig Hrows
                    (noteOf ks) "q" "8" b s) as (rn & Hn & _).
        destruct (mergeAt_cases grid resolution stepsPerBar timeSig Hrows
                    restOf "qr" "8r" b s) as (rr & Hr & _).
        rewrite Hn, Hr in Hstep.
        destruct (mergeNotes && negb (length ks =? 0)),
          (mergeRests && (length ks =? 0)), rn, rr, (length ks =? 0);
          cbn [rbind] in Hstep; done.
      + by pose proof (stepAt_no_fuel grid resolution stepsPerBar timeSig
                         mergeRests mergeNotes b s). }
  specialize (Hno stepsPerBar 0 ltac:(lia) ltac:(lia)).
  destruct (notesFrom _ _ _ _ _ _ _ _ _) as [notes | |]; [| done | done].
  exists notes. split; [done |]. lia.
Qed.

(** The outcome of transcribing a bar, for every grid and every setting:
    the loop always ends; it gives the notes when every instrument has a
    row (at most one a step, at least one every four steps); it is a
    TypeError when a row is missing and the bar has a step; a bar of no
    steps has no notes. *)
Theorem barNotes_outcome (grid : Grid) (resolution stepsPerBar b : nat)
    (timeSig : TimeSig) (mergeRests mergeNotes : bool) :
  barNotes grid resolution stepsPerBar timeSig mergeRests mergeNotes b
  ≠ OutOfFuel
  ∧ (has_rows grid →
     ∃ notes,
       barNotes grid resolution stepsPerBar timeSig mergeRests mergeNotes b
       = Ok notes
       ∧ length notes ≤ stepsPerBar ∧ stepsPerBar ≤ 4 * length notes)
  ∧ (¬ has_rows grid → 0 < stepsPerBar →
     barNotes grid resolution stepsPerBar timeSig mergeRests mergeNotes b
     = TypeError)
  ∧ (stepsPerBar = 0 →
     barNotes grid resolution stepsPerBar timeSig mergeRests mergeNotes b
     = Ok []).
Proof.
  split; [| split; [| split]].
  - pose proof (notesFrom_ends grid resolution stepsPerBar timeSig mergeRests
                  mergeNotes stepsPerBar b 0 ltac:(lia) ltac:(lia)) as Hends.
    unfold barNotes. by destruct (notesFrom _ _ _ _ _ _ _ _ _).
  - apply barNotes_total.
  - intros Hmiss Hpos. unfold barNotes.
    destruct stepsPerBar as [| n] eqn:En; [lia |].
    rewrite notesFrom_S. cbn [Nat.leb]. unfold stepAt, keysAt.
    rewrite collectKeys_missing_row; [done | apply notationKey_catalog | done].
  - intros ->. done.
Qed.

Lemma barNotes_outcome_witness :
  (∃ notes, barNotes demo_grid 16 4 (mkTimeSig 1 4) true true 0 = Ok notes
            ∧ length notes ≤ 4 ∧ 4 ≤ 4 * length notes)
  ∧ barNotes {["kick" := [100%Z]]} 8 2 (mkTimeSig 4 4) true true 0 = TypeError
  ∧ barNotes demo_grid 8 0 (mkTimeSig 4 4) true true 3 = Ok [].
Proof.
  split; [| split].
  - apply (barNotes_outcome demo_grid 16 4 0 (mkTimeSig 1 4) true true).
    compute_done.
  - apply (barNotes_outcome {["kick" := [100%Z]]} 8 2 0 (mkTimeSig 4 4)
             true true); [compute_done | lia].
  - apply (barNotes_outcome demo_grid 8 0 3 (mkTimeSig 4 4) true true).
    reflexivity.
Defined.

(** A turn of the loop takes one, two or four steps and stays in the bar;
    the steps it takes beyond the first hold no hit, so no hit is passed
    over; a note carries the keys of its step with its stem up, a rest
    sits on b/4 without a stem. *)
Theorem turn_skips_only_empty_steps (grid : Grid)
    (resolution stepsPerBar b s : nat) (timeSig : TimeSig)
    (mergeRests mergeNotes : bool) (note : StaveNote) (adv : nat)
    (ks : list string) :
  keysAt grid (b * stepsPerBar + s) = Ok ks →
  stepAt grid resolution stepsPerBar timeSig mergeRests mergeNotes b s
    = Ok (note, adv) →
  (adv = 1 ∨ (adv = 2 ∧ s + 1 < stepsPerBar) ∨ (adv = 4 ∧ s + 3 < stepsPerBar))
  ∧ (∀ k, 1 ≤ k < adv →
       isStepEmpty grid (b * stepsPerBar + (s + k)) = Ok true)
  ∧ (ks ≠ [] → keys note = ks ∧ stem_direction note = Some 1%Z
               ∧ duration note ∈ ["q"; "8"; "16"])
  ∧ (ks = [] → keys note = ["b/4"] ∧ stem_direction note = None
               ∧ duration note ∈ ["qr"; "8r"; "16r"]).
Proof. apply stepAt_event. Qed.

Lemma turn_skips_only_empty_steps_witness :
  isStepEmpty demo_grid (0 * 4 + (0 + 1)) = Ok true
  ∧ keys (noteOf ["f/4"] "8") = ["f/4"].
Proof.
  destruct (turn_skips_only_empty_steps demo_grid 16 4 0 0 (mkTimeSig 1 4)
              true true (noteOf ["f/4"] "8") 2 ["f/4"])
    as (_ & Hempty & Hnote & _); [reflexivity | reflexivity |].
  split; [apply Hempty; lia | apply Hnote; done].
Defined.

Lemma stepAt_unmerged (grid : Grid) (resolution stepsPerBar b s : nat)
    (timeSig : TimeSig) (ks : list string) :
  keysAt grid (b * stepsPerBar + s) = Ok ks →
  stepAt grid resolution stepsPerBar timeSig false false b s
  = Ok (if decide (ks = []) then restOf (dur resolution +:+ "r")
        else noteOf ks (dur resolution), 1).
Proof.
  intros Hks. unfold stepAt. rewrite Hks. cbn [rbind andb].
  destruct ks as [| key ks']; [done |]. simpl. try case_decide; done.
Qed.

Lemma notesFrom_unmerged (grid : Grid) (resolution stepsPerBar b : nat)
    (timeSig : TimeSig) (steps : list (list string)) (fuel s : nat) :
  bar_view grid stepsPerBar b steps →
  stepsPerBar - s ≤ fuel →
  notesFrom grid resolution stepsPerBar timeSig false false fuel b s
  = Ok ((λ ks, if decide (ks = []) then restOf (dur resolution +:+ "r")
               else noteOf ks (dur resolution)) <$> drop s steps).
Proof.
  intros [Hlen Hkeys]. revert s.
  induction fuel as [| fuel IH]; intros s Hfuel.
  - simpl. assert ((stepsPerBar <=? s) = true) as -> by (apply Nat.leb_le; lia).
    by rewrite drop_ge by lia.
  - rewrite notesFrom_S. destruct (stepsPerBar <=? s) eqn:Hend.
    + apply Nat.leb_le in Hend. by rewrite drop_ge by lia.
    + apply Nat.leb_gt in Hend.
      destruct (lookup_lt_is_Some_2 steps s) as [ks Hks]; [lia |].
      rewrite (stepAt_unmerged grid resolution stepsPerBar b s timeSig ks)
        by by apply Hkeys.
      cbn [rbind fst snd]. rewrite IH by lia. cbn [rbind].
      rewrite (drop_S steps ks s Hks), fmap_cons.
      by replace (s + 1) with (S s) by lia.
Qed.

(** With both merges off, a bar is transcribed step by step: as many
    events as steps, each of the native duration, a note with the keys of
    its step or a rest. *)
Theorem unmerged_bar_is_its_steps (grid : Grid) (resolution stepsPerBar b : nat)
    (timeSig : TimeSig) (steps : list (list string)) :
  bar_view grid stepsPerBar b steps →
  barNotes grid resolution stepsPerBar timeSig false false b
  = Ok ((λ ks, if decide (ks = []) then restOf (dur resolution +:+ "r")
               else noteOf ks (dur resolution)) <$> steps).
Proof.
  intros Hview. unfold barNotes.
  rewrite (notesFrom_unmerged grid resolution stepsPerBar b timeSig steps)
    by (done || lia).
  done.
Qed.

Lemma unmerged_bar_is_its_steps_witness :
  barNotes single_hit_grid 8 8 (mkTimeSig 4 4) false false 0
  = Ok ((λ ks, if decide (ks = []) then restOf (dur 8 +:+ "r")
               else noteOf ks (dur 8))
        <$> [["f/4"]; []; []; []; []; []; []; []]).
Proof.
  apply (unmerged_bar_is_its_steps single_hit_grid 8 8 0 (mkTimeSig 4 4)).
  split; [reflexivity |]. intros s ks Hs.
  do 8 (destruct s as [| s]; [by injection Hs as <- |]). done.
Defined.

Lemma stepAt_flags_unused (grid : Grid) (resolution stepsPerBar b s : nat)
    (timeSig : TimeSig) (mergeRests mergeNotes : bool) :
  ¬ (resolution = 8 ∧ stepsPerBeat resolution timeSig = 2) →
  ¬ (resolution = 16 ∧ (stepsPerBeat resolution timeSig = 2
                        ∨ stepsPerBeat resolution timeSig = 4)) →
  stepAt grid resolution stepsPerBar timeSig mergeRests mergeNotes b s
  = stepAt grid resolution stepsPerBar timeSig false false b s.
Proof.
  intros H8 H16. unfold stepAt.
  destruct (keysAt grid (b * stepsPerBar + s)) as [ks | |]; [| done | done].
  cbn [rbind andb]. rewrite !mergeAt_unused by done.
  by destruct (mergeNotes && negb (length ks =? 0)),
    (mergeRests && (length ks =? 0)).
Qed.

(** The merge toggles change the notes only in eighths with two steps a
    beat and in sixteenths with two or four steps a beat; everywhere else
    (quarters; 6/8 in eighths; 2/2 in sixteenths) a bar is transcribed the
    same, or fails the same, whatever the toggles. *)
Theorem merge_toggles_unused (grid : Grid) (resolution stepsPerBar b : nat)
    (timeSig : TimeSig) (mergeRests mergeNotes : bool) :
  ¬ (resolution = 8 ∧ stepsPerBeat resolution timeSig = 2) →
  ¬ (resolution = 16 ∧ (stepsPerBeat resolution timeSig = 2
                        ∨ stepsPerBeat resolution timeSig = 4)) →
  barNotes grid resolution stepsPerBar timeSig mergeRests mergeNotes b
  = barNotes grid resolution stepsPerBar timeSig false false b.
Proof.
  intros H8 H16. unfold barNotes. generalize 0 as s.
  induction stepsPerBar as [| fuel IH] at 2 4; intros s; [done |].
  rewrite !notesFrom_S. destruct (stepsPerBar <=? s); [done |].
  rewrite stepAt_flags_unused by done.
  destruct (stepAt grid resolution stepsPerBar timeSig false false b s)
    as [out | |]; [| done | done].
  cbn [rbind]. by rewrite IH.
Qed.

Lemma merge_toggles_unused_witness :
  barNotes demo_grid 8 6 (mkTimeSig 6 8) true true 0
  = barNotes demo_grid 8 6 (mkTimeSig 6 8) false false 0.
Proof.
  apply (merge_toggles_unused demo_grid 8 6 0 (mkTimeSig 6 8) true true).
  - intros [_ H]. vm_compute in H. discriminate.
  - intros [H _]. discriminate.
Defined.

(** * Further properties of the App component *)

Lemma initialGrid_lookup (columns : nat) (k : string) :
  initialGrid columns !! k
  = if decide (k ∈ instrument_ids) then Some (replicate columns 0%Z) else None.
Proof.
  unfold initialGrid.
  rewrite (remapGrid_lookup_gen (λ _, replicate columns 0%Z)).
  unfold instrument_ids.
  destruct (decide (k ∈ id <$> INSTRUMENTS)) as [Hin | Hnin].
  - rewrite decide_True; [done |]. by apply elem_of_list_to_set.
  - rewrite decide_False; [done |]. by rewrite elem_of_list_to_set.
Qed.

Lemma velocityAt_in_cycle (g : Grid) (k : string) (i : nat) :
  cells_in_cycle g → velocityAt g k i ∈ VELOCITY_CYCLE.
Proof.
  intros Hc. unfold velocityAt.
  destruct (g !! k) as [row |] eqn:Hrow; simpl; [| compute_done].
  destruct (row !! i) as [v |] eqn:Hv; simpl; [| compute_done].
  specialize (Hc k row Hrow). simpl in Hc. rewrite Forall_forall in Hc.
  apply Hc. eapply list_elem_of_lookup_2. exact Hv.
Qed.

Lemma cells_in_cycle_nonneg (g : Grid) : cells_in_cycle g → nonneg_grid g.
Proof.
  intros Hc k row Hrow. specialize (Hc k row Hrow). simpl in *.
  eapply Forall_impl; [exact Hc |]. simpl. intros v Hv.
  unfold VELOCITY_CYCLE in Hv.
  apply elem_of_cons in Hv as [-> | Hv]; [lia |].
  apply elem_of_cons in Hv as [-> | Hv]; [lia |].
  by apply elem_of_nil in Hv.
Qed.

Lemma remapGrid_in_cycle (bars : nat) (g : Grid) (old new : nat) :
  cells_in_cycle g → cells_in_cycle (remapGrid bars g old new).
Proof.
  intros Hc k row. rewrite remapGrid_lookup.
  destruct (decide (k ∈ instrument_ids)); [| done].
  intros [= <-]. simpl. apply Forall_lookup. intros j x Hj.
  pose proof (lookup_lt_Some _ _ _ Hj) as Hlt.
  rewrite remap_row_length in Hlt.
  assert (new ≠ 0) as Hnew by (intros ->; lia).
  assert (j = j / new * new + j mod new) as Hdm.
  { pose proof (Nat.div_mod_eq j new). lia. }
  assert (j mod new < new) as Ht by (apply Nat.mod_upper_bound; lia).
  assert (j / new < bars) as Hb by (apply Nat.Div0.div_lt_upper_bound; lia).
  rewrite Hdm, remap_row_cell in Hj by done. injection Hj as <-.
  destruct (acc_fold_bounds g k old new (j / new) (j mod new) (seq 0 old) 0%Z)
    as (_ & _ & [-> | (s & _ & _ & _ & <-)]); [compute_done |].
  by apply velocityAt_in_cycle.
Qed.

Lemma resizeGrid_in_cycle (columns : nat) (g : Grid) :
  cells_in_cycle g → cells_in_cycle (resizeGrid columns g).
Proof.
  intros Hc k row. rewrite resizeGrid_lookup.
  destruct (decide (k ∈ instrument_ids)); [| done].
  intros [= <-]. simpl. apply Forall_fmap, Forall_forall. intros i _. simpl.
  by apply velocityAt_in_cycle.
Qed.

Lemma cycleVelocity_keeps (columns : nat) (g g1 : Grid) (inst : string)
    (idx : nat) :
  grid_shape columns g → cells_in_cycle g →
  cycleVelocity inst idx g = Some g1 →
  grid_shape columns g1 ∧ cells_in_cycle g1.
Proof.
  intros [Hdom Hlen] Hc. unfold cycleVelocity.
  destruct (g !! inst) as [row |] eqn:Hrow; [| done]. intros [= <-].
  split; [split |].
  - rewrite dom_insert_L. apply (elem_of_dom_2 (D:=gset string)) in Hrow.
    rewrite <- Hdom. apply set_eq. intros k.
    rewrite elem_of_union, elem_of_singleton.
    split; [intros [-> | Hk]; done | by right].
  - intros k r Hk. simpl. destruct (decide (k = inst)) as [-> | Hne].
    + rewrite lookup_insert_eq in Hk. injection Hk as <-.
      rewrite length_imap. by apply (Hlen inst row).
    + rewrite lookup_insert_ne in Hk by done. by apply (Hlen k r).
  - intros k r Hk. simpl. destruct (decide (k = inst)) as [-> | Hne].
    + rewrite lookup_insert_eq in Hk. injection Hk as <-.
      apply Forall_lookup. intros i x Hi. rewrite toggled_row_lookup in Hi.
      destruct (decide (i = idx)) as [-> | Hi'].
      * destruct (row !! idx); [| done]. injection Hi as <-.
        apply nextVelocity_in_cycle.
      * specialize (Hc inst row Hrow). simpl in Hc.
        rewrite Forall_lookup in Hc. by apply (Hc i).
    + rewrite lookup_insert_ne in Hk by done. by apply (Hc k r).
Qed.

Lemma columnsEffect_ok (prev : nat) (a : App) :
  (app_columns a = prev → grid_shape (app_columns a) (app_grid a)) →
  cells_in_cycle (app_grid a) →
  app_ok (columnsEffect prev a).
Proof.
  intros Hshape Hc. unfold columnsEffect.
  destruct (decide (app_columns a = prev)) as [Heq | Hne].
  - split; [by apply Hshape | done].
  - split; [apply resizeGrid_shape | by apply resizeGrid_in_cycle].
Qed.

Lemma dispatch_ok (act : Action) (a : App) :
  app_ok a → from_catalog act →
  ∃ a', dispatch act a = Some a' ∧ app_ok a'.
Proof.
  intros [Hshape Hc] Hact. unfold dispatch.
  destruct act; simpl.
  - eexists. split; [done |]. unfold handleResolutionChange.
    destruct (app_keepTiming a); simpl.
    + apply columnsEffect_ok; simpl.
      * intros _. apply remapGrid_shape.
      * by apply remapGrid_in_cycle.
    + apply columnsEffect_ok; simpl; [| done].
      intros Heq. unfold app_columns in Heq |- *. simpl in Heq |- *.
      unfold app_columns in Hshape. by rewrite Heq.
  - eexists. split; [done |]. unfold handleTimeSigChange.
    destruct (app_keepTiming a); simpl.
    + apply columnsEffect_ok; simpl.
      * intros _. apply remapGrid_shape.
      * by apply remapGrid_in_cycle.
    + apply columnsEffect_ok; simpl; [| done].
      intros Heq. unfold app_columns in Heq |- *. simpl in Heq |- *.
      unfold app_columns in Hshape. by rewrite Heq.
  - eexists. split; [done |]. apply columnsEffect_ok; simpl; [| done].
    intros Heq. unfold app_columns in Heq |- *. simpl in Heq |- *.
    unfold app_columns in Hshape. by rewrite Heq.
  - eexists. split; [done |]. by apply columnsEffect_ok.
  - eexists. split; [done |]. by apply columnsEffect_ok.
  - eexists. split; [done |]. by apply columnsEffect_ok.
  - simpl in Hact.
    assert (is_Some (app_grid a !! inst)) as [row Hrow].
    { apply elem_of_dom. rewrite (proj1 Hshape).
      by apply elem_of_list_to_set. }
    rewrite (cycleVelocity_row _ inst idx row Hrow). simpl.
    eexists. split; [done |].
    destruct (cycleVelocity_keeps (app_columns a) (app_grid a) _ inst idx
                Hshape Hc (cycleVelocity_row _ inst idx row Hrow))
      as [Hs1 Hc1].
    by apply columnsEffect_ok.
Qed.

Lemma initialGrid_ok (columns : nat) :
  grid_shape columns (initialGrid columns)
  ∧ cells_in_cycle (initialGrid columns).
Proof.
  split; [split |].
  - apply set_eq. intros k. rewrite elem_of_dom, initialGrid_lookup.
    destruct (decide (k ∈ instrument_ids)) as [Hin | Hnin].
    + split; [done | by eexists].
    + split; [by intros [? ?] | done].
  - intros k row. rewrite initialGrid_lookup.
    destruct (decide (k ∈ instrument_ids)); [| done].
    intros [= <-]. apply length_replicate.
  - intros k row. rewrite initialGrid_lookup.
    destruct (decide (k ∈ instrument_ids)); [| done].
    intros [= <-]. apply Forall_forall. intros v Hv.
    apply elem_of_replicate in Hv as [-> _]. compute_done.
Qed.

Lemma initialApp_ok : app_ok initialApp.
Proof. exact (initialGrid_ok 16). Qed.

Lemma dispatchAll_ok (acts : list Action) (a : App) :
  app_ok a → Forall from_catalog acts →
  ∃ a', dispatchAll acts a = Some a' ∧ app_ok a'.
Proof.
  intros Hok Hacts. revert a Hok.
  induction Hacts as [| act acts Hact _ IH]; intros a Hok; simpl.
  - by exists a.
  - destruct (dispatch_ok act a Hok Hact) as (a1 & -> & Hok1). by apply IH.
Qed.

Lemma page_action_from_catalog (act : Action) :
  page_action act → from_catalog act.
Proof. by destruct act. Qed.

(** Whatever the user does with the controls of the page (one of its
    resolutions, one of its time signatures, a bar count from 0 to 8,
    keep-timing on or off, the merge buttons, clicks on cells of the
    catalog), no handler or updater fails and, once the effect on
    [columns] has run, the grid has one row for each instrument and no
    other, of [bars * stepsPerBar] cells, each 0 or 100. *)
Theorem app_grid_stays_well_formed (acts : list Action) :
  Forall page_action acts →
  ∃ a, dispatchAll acts initialApp = Some a
       ∧ grid_shape (app_bars a * app_stepsPerBar a) (app_grid a)
       ∧ cells_in_cycle (app_grid a).
Proof.
  intros Hacts.
  destruct (dispatchAll_ok acts initialApp initialApp_ok
              (Forall_impl _ _ _ Hacts page_action_from_catalog))
    as (a & Hrun & Hshape & Hc).
  by exists a.
Qed.

Lemma app_grid_stays_well_formed_witness :
  ∃ a, dispatchAll [ClickCell "kick" 0; ChangeResolution 16;
                    SetKeepTiming false; ChangeTimeSig (mkTimeSig 6 8);
                    ChangeBars 3; ClickCell "snare" 40] initialApp = Some a
       ∧ grid_shape (app_bars a * app_stepsPerBar a) (app_grid a)
       ∧ cells_in_cycle (app_grid a).
Proof.
  apply (app_grid_stays_well_formed
           [ClickCell "kick" 0; ChangeResolution 16; SetKeepTiming false;
            ChangeTimeSig (mkTimeSig 6 8); ChangeBars 3; ClickCell "snare" 40]).
  apply Forall_cons_2; [compute_done |].
  apply Forall_cons_2; [right; right; reflexivity |].
  apply Forall_cons_2; [exact I |].
  apply Forall_cons_2; [right; right; reflexivity |].
  apply Forall_cons_2; [simpl; lia |].
  apply Forall_cons_2; [compute_done | apply Forall_nil_2].
Defined.

Lemma grid_shape_has_rows (columns : nat) (g : Grid) :
  grid_shape columns g → has_rows g.
Proof.
  intros [Hdom _]. apply Forall_forall. intros inst Hin.
  apply elem_of_dom. rewrite Hdom. apply elem_of_list_to_set.
  by apply list_elem_of_fmap_2.
Qed.

Lemma barsFrom_total (grid : Grid) (resolution stepsPerBar : nat)
    (timeSig : TimeSig) (mergeRests mergeNotes : bool) (bs : list nat) :
  has_rows grid →
  ∃ notes,
    barsFrom grid resolution stepsPerBar timeSig mergeRests mergeNotes bs
    = Ok notes
    ∧ length notes = length bs.
Proof.
  intros Hrows. induction bs as [| b bs (rest & Hrest & Hlen)]; simpl.
  - by exists [].
  - destruct (barNotes_total grid resolution stepsPerBar b timeSig mergeRests
                mergeNotes Hrows) as (notes & -> & _).
    rewrite Hrest. simpl. exists (notes :: rest). split; [done |].
    simpl. by rewrite Hlen.
Qed.

Lemma handleAction_rows (act : Action) (a : App) :
  app_ok a → from_catalog act →
  ∃ a1, handleAction act a = Some a1 ∧ has_rows (app_grid a1).
Proof.
  intros [Hshape Hc] Hact.
  pose proof (grid_shape_has_rows _ _ Hshape) as Hrows.
  destruct act; simpl; try (by eexists).
  - eexists. split; [done |]. unfold handleResolutionChange.
    destruct (app_keepTiming a); simpl; [| done].
    exact (grid_shape_has_rows _ _ (remapGrid_shape _ _ _ _)).
  - eexists. split; [done |]. unfold handleTimeSigChange.
    destruct (app_keepTiming a); simpl; [| done].
    exact (grid_shape_has_rows _ _ (remapGrid_shape _ _ _ _)).
  - simpl in Hact.
    assert (is_Some (app_grid a !! inst)) as [row Hrow].
    { apply elem_of_dom. rewrite (proj1 Hshape).
      by apply elem_of_list_to_set. }
    rewrite (cycleVelocity_row _ inst idx row Hrow). simpl.
    eexists. split; [done |].
    destruct (cycleVelocity_keeps (app_columns a) (app_grid a) _ inst idx
                Hshape Hc (cycleVelocity_row _ inst idx row Hrow))
      as [Hs1 _].
    exact (grid_shape_has_rows _ _ Hs1).
Qed.

(** In every state the controls of the page lead to, the notes are
    computed without an error: the loops end, no row is missing, and
    there is a list of notes for each bar.  That holds once the effect on
    [columns] has run, and also in the render before it, where the grid
    still has its old size. *)
Theorem notation_renders_in_every_state (acts : list Action) :
  Forall page_action acts →
  ∃ a notes,
    dispatchAll acts initialApp = Some a
    ∧ Notation_notes (app_grid a) (app_resolution a) (app_bars a)
        (app_stepsPerBar a) (app_timeSig a) (app_mergeRests a)
        (app_mergeNotes a) = Ok notes
    ∧ length notes = app_bars a
    ∧ ∀ act, page_action act →
        ∃ a1 notes1,
          handleAction act a = Some a1
          ∧ Notation_notes (app_grid a1) (app_resolution a1) (app_bars a1)
              (app_stepsPerBar a1) (app_timeSig a1) (app_mergeRests a1)
              (app_mergeNotes a1) = Ok notes1
          ∧ length notes1 = app_bars a1.
Proof.
  intros Hacts.
  destruct (dispatchAll_ok acts initialApp initialApp_ok
              (Forall_impl _ _ _ Hacts page_action_from_catalog))
    as (a & Hrun & Hok).
  destruct (barsFrom_total (app_grid a) (app_resolution a) (app_stepsPerBar a)
              (app_timeSig a) (app_mergeRests a) (app_mergeNotes a)
              (seq 0 (app_bars a)) (grid_shape_has_rows _ _ (proj1 Hok)))
    as (notes & Hnotes & Hlen).
  exists a, notes. split; [done |]. split; [done |].
  split; [by rewrite Hlen, length_seq |].
  intros act Hact.
  destruct (handleAction_rows act a Hok (page_action_from_catalog act Hact))
    as (a1 & Hhandled & Hrows).
  destruct (barsFrom_total (app_grid a1) (app_resolution a1)
              (app_stepsPerBar a1) (app_timeSig a1) (app_mergeRests a1)
              (app_mergeNotes a1) (seq 0 (app_bars a1)) Hrows)
    as (notes1 & Hnotes1 & Hlen1).
  exists a1, notes1. split; [done |]. split; [done |].
  by rewrite Hlen1, length_seq.
Qed.

(** Four actions, and then a bar count of 8: the notes are computed in
    the state the four actions lead to, and in the render right after the
    bar count has changed, where the rows still have the cells of one
    bar. *)
Lemma notation_renders_in_every_state_witness :
  ∃ a notes a1 notes1,
    dispatchAll [ClickCell "hihat" 3; ChangeTimeSig (mkTimeSig 3 4);
                 ToggleMergeRests; ChangeBars 1] initialApp = Some a
    ∧ Notation_notes (app_grid a) (app_resolution a) (app_bars a)
        (app_stepsPerBar a) (app_timeSig a) (app_mergeRests a)
        (app_mergeNotes a) = Ok notes
    ∧ length notes = app_bars a
    ∧ handleAction (ChangeBars 8) a = Some a1
    ∧ Notation_notes (app_grid a1) (app_resolution a1) (app_bars a1)
        (app_stepsPerBar a1) (app_timeSig a1) (app_mergeRests a1)
        (app_mergeNotes a1) = Ok notes1
    ∧ length notes1 = app_bars a1.
Proof.
  destruct (notation_renders_in_every_state
              [ClickCell "hihat" 3; ChangeTimeSig (mkTimeSig 3 4);
               ToggleMergeRests; ChangeBars 1])
    as (a & notes & Hrun & Hnotes & Hlen & Hnext).
  { apply Forall_cons_2; [compute_done |].
    apply Forall_cons_2; [right; left; reflexivity |].
    apply Forall_cons_2; [exact I |].
    apply Forall_cons_2; [simpl; lia | apply Forall_nil_2]. }
  destruct (Hnext (ChangeBars 8)) as (a1 & notes1 & Hact & Hnotes1 & Hlen1).
  { simpl. lia. }
  exists a, notes, a1, notes1.
  split; [exact Hrun |]. split; [exact Hnotes |]. split; [exact Hlen |].
  split; [exact Hact |]. split; [exact Hnotes1 | exact Hlen1].
Defined.

Lemma with_grid_same (a : App) : with_grid a (app_grid a) = a.
Proof. by destruct a. Qed.

Lemma columnsEffect_shaped (prev : nat) (a : App) :
  grid_shape (app_columns a) (app_grid a) → columnsEffect prev a = a.
Proof.
  intros Hshape. unfold columnsEffect. case_decide; [done |].
  rewrite resizeGrid_same by done. apply with_grid_same.
Qed.

Lemma computeStepsPerBar_scale (n d r k : nat) :
  0 < n → 0 < d → 0 < r → 1 ≤ k → (n * r) mod d = 0 →
  computeStepsPerBar (mkTimeSig n d) (k * r)
  = k * computeStepsPerBar (mkTimeSig n d) r.
Proof.
  intros Hn Hd Hr Hk Hmod.
  pose proof (computeStepsPerBar_exact n d r Hn Hd Hr Hmod) as H1.
  assert ((n * (k * r)) mod d = 0) as Hmod'.
  { replace (n * (k * r)) with (k * (n * r)) by lia.
    apply Nat.Lcm0.mod_divide. apply Nat.divide_mul_r.
    by apply Nat.Lcm0.mod_divide. }
  pose proof (computeStepsPerBar_exact n d (k * r) Hn Hd ltac:(nia) Hmod')
    as H2.
  nia.
Qed.

Lemma dispatch_resolution_keep (a : App) (newRes : nat) :
  app_keepTiming a = true →
  dispatch (ChangeResolution newRes) a
  = Some (mkApp newRes (app_bars a) (app_timeSig a) (app_keepTiming a)
            (app_mergeRests a) (app_mergeNotes a)
            (remapGrid (app_bars a) (app_grid a) (app_stepsPerBar a)
               (computeStepsPerBar (app_timeSig a) newRes))).
Proof.
  intros Hkeep. unfold dispatch. cbn [handleAction fmap option_fmap option_map].
  unfold handleResolutionChange. rewrite Hkeep. cbn [negb]. f_equal.
  apply columnsEffect_shaped.
  exact (remapGrid_shape (app_bars a) (app_grid a) (app_stepsPerBar a)
           (computeStepsPerBar (app_timeSig a) newRes)).
Qed.

(** With keep-timing on and a resolution at which the bar is a whole
    number of steps, going to [k] times the resolution and back leaves the
    whole state as it was. *)
Theorem resolution_up_and_back (a : App) (k : nat) :
  app_ok a → app_keepTiming a = true → 1 ≤ k →
  0 < ts_n (app_timeSig a) → 0 < ts_d (app_timeSig a) →
  0 < app_resolution a →
  (ts_n (app_timeSig a) * app_resolution a) mod ts_d (app_timeSig a) = 0 →
  dispatchAll [ChangeResolution (k * app_resolution a);
               ChangeResolution (app_resolution a)] a = Some a.
Proof.
  intros [Hshape Hc] Hkeep Hk Hn Hd Hr Hmod. cbn [dispatchAll].
  rewrite dispatch_resolution_keep by done.
  rewrite dispatch_resolution_keep by done.
  destruct a as [r bars [n d] keep mr mn g]. simpl in *. subst keep.
  f_equal. f_equal.
  change (app_stepsPerBar (mkApp r bars (mkTimeSig n d) true mr mn g))
    with (computeStepsPerBar (mkTimeSig n d) r).
  change (app_stepsPerBar (mkApp (k * r) bars (mkTimeSig n d) true mr mn
            (remapGrid bars g (computeStepsPerBar (mkTimeSig n d) r)
               (computeStepsPerBar (mkTimeSig n d) (k * r)))))
    with (computeStepsPerBar (mkTimeSig n d) (k * r)).
  rewrite computeStepsPerBar_scale by done.
  apply remapGrid_expand_back; [unfold computeStepsPerBar; lia | done | |].
  - exact Hshape.
  - by apply cells_in_cycle_nonneg.
Qed.

Lemma resolution_up_and_back_witness :
  ∃ a, dispatchAll [ClickCell "kick" 0; ClickCell "snare" 5] initialApp = Some a
       ∧ dispatchAll [ChangeResolution (2 * app_resolution a);
                      ChangeResolution (app_resolution a)] a = Some a.
Proof.
  destruct (dispatchAll_ok [ClickCell "kick" 0; ClickCell "snare" 5]
              initialApp initialApp_ok) as (a & Hrun & Hok).
  { repeat constructor; compute_done. }
  exists a. split; [exact Hrun |].
  vm_compute in Hrun. injection Hrun as <-.
  apply (resolution_up_and_back _ 2);
    [exact Hok | reflexivity | lia | simpl; lia | simpl; lia | simpl; lia
    | reflexivity].
Defined.

(** ** The timeline of the Grid component *)

Lemma timeline_inner (b stepsPerBar : nat) (l : list nat)
    (tl : list TimelineItem) :
  foldl (λ (tl : list TimelineItem) s,
           (tl ++ [TimelineStep (b * stepsPerBar + s) b s])%list) tl l
  = (tl ++ ((λ s, TimelineStep (b * stepsPerBar + s) b s) <$> l))%list.
Proof.
  revert tl. induction l as [| s l IH]; intros tl; simpl.
  - by rewrite app_nil_r.
  - rewrite IH, <- app_assoc. done.
Qed.

Lemma timeline_steps_app (x y : list TimelineItem) :
  timeline_steps (x ++ y) = (timeline_steps x ++ timeline_steps y)%list.
Proof. unfold timeline_steps. apply flat_map_app. Qed.

Lemma timeline_steps_bar (b stepsPerBar : nat) (l : list nat) :
  timeline_steps ((λ s, TimelineStep (b * stepsPerBar + s) b s) <$> l)
  = (λ s, b * stepsPerBar + s) <$> l.
Proof.
  induction l as [| s l IH]; [done |]. rewrite !fmap_cons.
  unfold timeline_steps in *. cbn [flat_map app]. by rewrite IH.
Qed.

Lemma timeline_bar_no_gap (b stepsPerBar : nat) (l : list nat) :
  filter (λ t, is_gap t = true)
         ((λ s, TimelineStep (b * stepsPerBar + s) b s) <$> l) = [].
Proof.
  induction l as [| x l IH]; [done |].
  rewrite fmap_cons, filter_cons_False by done. exact IH.
Qed.

Lemma timeline_prefix (bars stepsPerBar n : nat) :
  n ≤ bars →
  let tl := foldl (λ (tl : list TimelineItem) b,
                     (foldl (λ (tl : list TimelineItem) s,
                               (tl ++ [TimelineStep (b * stepsPerBar + s) b s])%list)
                            tl (seq 0 stepsPerBar)
                      ++ (if b <? bars - 1 then [TimelineGap] else []))%list)
                  [] (seq 0 n) in
  timeline_steps tl = seq 0 (n * stepsPerBar)
  ∧ length (filter (λ t, is_gap t = true) tl) = Nat.min n (bars - 1)
  ∧ ∀ i b s, TimelineStep i b s ∈ tl →
      i = b * stepsPerBar + s ∧ b < n ∧ s < stepsPerBar.
Proof.
  induction n as [| n IH]; intros Hn tl.
  { subst tl. simpl. split; [done |]. split; [done |].
    intros i b s H. by apply elem_of_nil in H. }
  specialize (IH ltac:(lia)). destruct IH as (Hsteps & Hgaps & Hmem).
  subst tl. rewrite seq_S, foldl_app. change (0 + n) with n.
  cbn [foldl]. rewrite timeline_inner.
  set (tl0 := foldl _ [] (seq 0 n)) in *.
  split; [| split].
  - rewrite !timeline_steps_app, Hsteps, timeline_steps_bar.
    replace (timeline_steps (if n <? bars - 1 then [TimelineGap] else []))
      with (@nil nat) by by destruct (n <? bars - 1).
    rewrite app_nil_r.
    replace (S n * stepsPerBar) with (n * stepsPerBar + stepsPerBar) by lia.
    rewrite seq_app. f_equal. cbn [Nat.add].
    change (λ s, n * stepsPerBar + s) with (Nat.add (n * stepsPerBar)).
    by rewrite fmap_add_seq, Nat.add_0_r.
  - rewrite !filter_app, !length_app, Hgaps.
    rewrite timeline_bar_no_gap.
    destruct (n <? bars - 1) eqn:E.
    + apply Nat.ltb_lt in E. rewrite filter_cons_True by done.
      rewrite filter_nil. cbn [length]. lia.
    + apply Nat.ltb_ge in E. rewrite filter_nil. cbn [length]. lia.
  - intros i b s H. apply elem_of_app in H as [H | H].
    + apply elem_of_app in H as [H | H].
      * destruct (Hmem i b s H) as (? & ? & ?). repeat split; [done | lia | done].
      * apply list_elem_of_fmap in H as (s' & [= -> -> ->] & Hs').
        apply elem_of_seq in Hs'. repeat split; lia.
    + destruct (n <? bars - 1); [| by apply elem_of_nil in H].
      apply list_elem_of_singleton in H. done.
Qed.

(** The timeline shows every column once and in order, each with its bar
    and its step in the bar, and has one gap fewer than bars. *)
Theorem timeline_covers_columns (bars stepsPerBar : nat) :
  timeline_steps (timeline bars stepsPerBar) = seq 0 (bars * stepsPerBar)
  ∧ length (filter (λ t, is_gap t = true) (timeline bars stepsPerBar))
    = bars - 1
  ∧ (∀ i b s, TimelineStep i b s ∈ timeline bars stepsPerBar →
       i = b * stepsPerBar + s ∧ b < bars ∧ s < stepsPerBar).
Proof.
  destruct (timeline_prefix bars stepsPerBar bars (le_n _))
    as (Hsteps & Hgaps & Hmem).
  fold (timeline bars stepsPerBar) in Hsteps, Hgaps, Hmem.
  split; [done |]. split; [rewrite Hgaps; lia | done].
Qed.

(** * Further properties of the audio engine *)

(** Wherever the page has got to from its start, the engine has no timer
    set while it is stopped and exactly one, that of [timerId], while it
    plays; handles are positive and never reused. *)
Theorem one_timer_while_playing (evs : list Event) (w : World) :
  run evs (initialEngine, initialHost) = Some w →
  (0 < nextHandle (snd w))%Z
  ∧ (∀ t, t ∈ intervals (snd w) → (0 < t < nextHandle (snd w))%Z)
  ∧ (isPlaying (fst w) = false → intervals (snd w) = ∅)
  ∧ (isPlaying (fst w) = true →
       ∃ t, timerId (fst w) = Some t ∧ intervals (snd w) = {[t]}).
Proof.
  intros Hrun.
  pose proof (timers_ok_run evs _ w timers_ok_initial Hrun) as Hok.
  by destruct w as [e h].
Qed.

Lemma one_timer_while_playing_witness :
  ∃ w, run [CallPlay None; ContextResumed; ResumePlay demo_snapshot;
            CallPlay (Some 3%Z); ResumePlay demo_snapshot]
           (initialEngine, initialHost) = Some w
       ∧ intervals (snd w) = {[1%Z]}.
Proof.
  eexists. split; [reflexivity |].
  destruct (one_timer_while_playing
              [CallPlay None; ContextResumed; ResumePlay demo_snapshot;
               CallPlay (Some 3%Z); ResumePlay demo_snapshot] _ eq_refl)
    as (_ & _ & _ & Hon).
  destruct (Hon eq_refl) as (t & Ht & Hset).
  injection Ht as <-. exact Hset.
Defined.

(** ** What a poll does *)

Lemma scheduleStep_stepCalls (e : Engine) (g : Grid) (insts : list Instrument)
    (stepIndex : Z) (time : Q) (h : Host) :
  stepCalls (scheduleStep e g insts stepIndex time h)
  = (stepCalls h ++ if onStep e then [stepIndex] else [])%list.
Proof.
  unfold scheduleStep.
  destruct (scheduleStep_triggers e g insts stepIndex time h) as [Hc _].
  unfold host_core in Hc. destruct (onStep e); simpl.
  - f_equal. congruence.
  - rewrite app_nil_r. congruence.
Qed.

Lemma scheduler_loop_poll (fuel : nat) (snap : Snapshot) (e e' : Engine)
    (h h' : Host) :
  scheduler_loop fuel snap e h = Some (e', h') →
  ∃ k,
    k ≤ fuel
    ∧ Forall (λ p, (snd p < currentTime h + scheduleAheadTimeSec)%Q)
        (pollSteps k (snap_columns snap) (currentStep e) (nextNoteTime e)
           (secondsPerStep e))
    ∧ (currentStep e', nextNoteTime e')
      = pollEnd k (snap_columns snap) (currentStep e) (nextNoteTime e)
          (secondsPerStep e)
    ∧ (currentTime h + scheduleAheadTimeSec <= nextNoteTime e')%Q
    ∧ stepCalls h'
      = (stepCalls h
         ++ if onStep e
            then fst <$> pollSteps k (snap_columns snap) (currentStep e)
                           (nextNoteTime e) (secondsPerStep e)
            else [])%list
    ∧ started h'
      = (started h
         ++ flat_map (λ p, stepStarts e (snap_grid snap)
                             (snap_instruments snap) (fst p) (snd p))
              (pollSteps k (snap_columns snap) (currentStep e)
                 (nextNoteTime e) (secondsPerStep e)))%list
    ∧ currentTime h' = currentTime h
    ∧ bpm e' = bpm e ∧ resolution e' = resolution e
    ∧ buffers e' = buffers e ∧ audioCtx e' = audioCtx e
    ∧ master e' = master e ∧ onStep e' = onStep e.
Proof.
  revert e h. induction fuel as [| fuel IH]; intros e h.
  - simpl. destruct (Qltb _ _) eqn:Hlt; [done |]. intros [= <- <-].
    exists 0. simpl. rewrite !app_nil_r.
    assert (currentTime h + scheduleAheadTimeSec <= nextNoteTime e)%Q.
    { unfold Qltb in Hlt. apply negb_false_iff in Hlt.
      by apply Qle_bool_iff in Hlt. }
    repeat split; try done. destruct (onStep e); by rewrite app_nil_r.
  - cbn [scheduler_loop]. destruct (Qltb _ _) eqn:Hlt.
    + intros Hloop. apply IH in Hloop as (k & Hk & Hdue & Hend & Hhor & Hcalls
                                           & Hstarted & Hclock & Hb & Hr & Hbuf
                                           & Hctx & Hm & Hon).
      rewrite scheduleStep_clock in Hdue, Hhor, Hclock.
      rewrite scheduleStep_stepCalls in Hcalls.
      rewrite scheduleStep_started in Hstarted.
      change (secondsPerStep (with_transport e _ _ _ _))
        with (secondsPerStep e) in *.
      change (currentStep (with_transport e (isPlaying e) ?s ?n (timerId e)))
        with s in *.
      simpl in Hdue, Hend, Hcalls, Hstarted, Hb, Hr, Hbuf, Hctx, Hm, Hon.
      fold (nextCursor (snap_columns snap) (currentStep e)) in Hdue, Hend,
        Hcalls, Hstarted.
      exists (S k). cbn [pollSteps pollEnd flat_map fmap list_fmap fst snd].
      split; [lia |]. split.
      { constructor; [| done]. simpl.
        unfold Qltb in Hlt. apply negb_true_iff in Hlt.
        destruct (Qlt_le_dec (nextNoteTime e)
                    (currentTime h + scheduleAheadTimeSec)) as [? | Hle];
          [done |].
        apply Qle_bool_iff in Hle. congruence. }
      split; [done |]. split; [done |]. split.
      { rewrite Hcalls, <- app_assoc. f_equal.
        simpl in Hon. by destruct (onStep e). }
      split.
      { rewrite Hstarted, <- app_assoc. by f_equal. }
      repeat split; done.
    + intros [= <- <-]. exists 0. simpl. rewrite !app_nil_r.
      assert (currentTime h + scheduleAheadTimeSec <= nextNoteTime e)%Q.
      { unfold Qltb in Hlt. apply negb_false_iff in Hlt.
        by apply Qle_bool_iff in Hlt. }
      split; [lia |]. repeat split; try done.
      destruct (onStep e); by rewrite app_nil_r.
Qed.

Lemma pollSteps_length (k : nat) (columns : option Z) (cur : Z) (next sps : Q) :
  length (pollSteps k columns cur next sps) = k.
Proof.
  revert cur next. induction k as [| k IH]; intros cur next; [done |].
  simpl. by rewrite IH.
Qed.

Lemma pollSteps_cursors (k : nat) (columns : option Z) (cur : Z) (next sps : Q) :
  fst <$> pollSteps k columns cur next sps
  = (λ j, Nat.iter j (nextCursor columns) cur) <$> seq 0 k.
Proof.
  revert cur next. induction k as [| k IH]; intros cur next; [done |].
  cbn [pollSteps seq]. rewrite !fmap_cons, IH. cbn [fst Nat.iter]. f_equal.
  rewrite <- (fmap_S_seq 0 k), <- list_fmap_compose.
  apply list_fmap_ext. intros i x _. simpl. by rewrite <- Nat.iter_succ_r.
Qed.

Lemma pollEnd_closed (k : nat) (columns : option Z) (cur : Z) (next sps : Q) :
  fst (pollEnd k columns cur next sps) = Nat.iter k (nextCursor columns) cur
  ∧ (snd (pollEnd k columns cur next sps)
     == next + inject_Z (Z.of_nat k) * sps)%Q.
Proof.
  revert cur next. induction k as [| k IH]; intros cur next.
  - simpl. split; [done |]. change (inject_Z (Z.of_nat 0)) with 0%Q. ring.
  - cbn [pollEnd]. destruct (IH (nextCursor columns cur) (next + sps)%Q)
      as [Hc Ht].
    split; [by rewrite Nat.iter_succ_r |].
    rewrite Ht, Nat2Z.inj_succ, <- Z.add_1_r, inject_Z_plus. ring.
Qed.

Lemma cursor_wraps (c cur : Z) (j : nat) :
  (1 ≤ c)%Z → (0 ≤ cur < c)%Z →
  Nat.iter j (nextCursor (Some c)) cur = ((cur + Z.of_nat j) mod c)%Z.
Proof.
  intros Hc Hcur. induction j as [| j IH].
  - simpl. rewrite Z.add_0_r, Z.mod_small by lia. done.
  - rewrite Nat.iter_succ, IH. unfold nextCursor.
    pose proof (Z.mod_pos_bound (cur + Z.of_nat j) c ltac:(lia)) as Hb.
    replace (cur + Z.of_nat (S j))%Z with (cur + Z.of_nat j + 1)%Z by lia.
    rewrite <- (Zplus_mod_idemp_l (cur + Z.of_nat j) 1 c).
    destruct (c <=? (cur + Z.of_nat j) mod c + 1)%Z eqn:E.
    + apply Z.leb_le in E.
      replace ((cur + Z.of_nat j) mod c + 1)%Z with c by lia.
      by rewrite Z_mod_same_full.
    + apply Z.leb_gt in E.
      rewrite (Z.mod_small ((cur + Z.of_nat j) mod c + 1)); [done | lia].
Qed.

Lemma gainOf_range (velocity : Z) : (0 <= gainOf velocity <= 1)%Q.
Proof.
  unfold gainOf, Qmax', Qmin'.
  destruct (Qle_bool 1 (inject_Z velocity / (127 # 1))) eqn:E1.
  - simpl. split; lra.
  - destruct (Qle_bool 0 (inject_Z velocity / (127 # 1))) eqn:E0.
    + apply Qle_bool_iff in E0. split; [done |].
      destruct (Qlt_le_dec (inject_Z velocity / (127 # 1)) 1) as [Hlt | Hle];
        [lra |].
      apply Qle_bool_iff in Hle. congruence.
    + split; lra.
Qed.

Lemma stepStarts_elem (e : Engine) (g : Grid) (insts : list Instrument)
    (stepIndex : Z) (time : Q) (st : SourceStart) :
  st ∈ stepStarts e g insts stepIndex time →
  start_time st = time
  ∧ ∃ inst, inst ∈ insts ∧ start_inst st = id inst
            ∧ (0 < velocityAtStep g (id inst) stepIndex)%Z
            ∧ is_Some (buffers e !! id inst)
            ∧ start_gain st = gainOf (velocityAtStep g (id inst) stepIndex).
Proof.
  unfold stepStarts. intros H. apply list_elem_of_In, in_flat_map in H.
  destruct H as (inst & Hin & Hst). cbv zeta in Hst.
  destruct (audioCtx e && master e
            && (0 <? velocityAtStep g (id inst) stepIndex)%Z
            && bool_decide (is_Some (buffers e !! id inst))) eqn:E;
    [| by destruct Hst].
  destruct Hst as [<- | []]. simpl. split; [done |].
  apply andb_true_iff in E as [E Hbuf]. apply andb_true_iff in E as [_ Hvel].
  exists inst. split; [by apply list_elem_of_In |]. split; [done |].
  apply bool_decide_eq_true in Hbuf.
  split; [by apply Z.ltb_lt |]. split; [exact Hbuf |].
  done.
Qed.

Lemma scheduler_loop_moves (fuel : nat) (snap : Snapshot) (e e' : Engine)
    (h h' : Host) :
  scheduler_loop fuel snap e h = Some (e', h') →
  Qltb (nextNoteTime e') (currentTime h' + scheduleAheadTimeSec) = false
  ∧ ∃ k, currentStep e'
         = Nat.iter k (nextCursor (snap_columns snap)) (currentStep e)
         ∧ (Qltb (nextNoteTime e) (currentTime h + scheduleAheadTimeSec)
            = true → 1 ≤ k).
Proof.
  intros Hloop.
  apply scheduler_loop_poll in Hloop
    as (k & _ & _ & Hend & Hhor & _ & _ & Hclock & _).
  destruct (pollEnd_closed k (snap_columns snap) (currentStep e)
              (nextNoteTime e) (secondsPerStep e)) as [Hc _].
  rewrite <- Hend in Hc. simpl in Hc.
  split; [rewrite Hclock; by apply Qltb_false |].
  exists k. split; [exact Hc |]. intros Hdue.
  destruct k as [| k]; [| lia]. exfalso.
  injection Hend as _ Hnext. rewrite Hnext in Hhor.
  rewrite Qltb_false in Hdue; done.
Qed.

(** C9.  When an instrument has no decoded buffer, [trigger] for it gives
    the page back as it was: nothing is started and nothing fails.
    [scheduleStep] still starts every instrument of the step that has a
    hit and a buffer ([start] takes no negative time, so this is for
    times that are not negative), starts nothing for the instrument
    without one, and leaves the clock, the timers and the waiting calls
    alone.  For an engine with an audio context, no [onStep] callback
    and times that are not negative, the transport goes on: a turn of
    the loop that skipped the trigger moves the cursor and the time of
    the next step as ever and the loop goes on from there; a poll that
    returns leaves the engine playing with its timer set, the next step
    no longer due, and the cursor moved on, by at least one step when a
    step was due; and the transport it leaves is the one it would leave
    were the buffer there. *)
Theorem missing_buffer_skips_one_trigger (e : Engine) (missing : string) :
  buffers e !! missing = None →
  (∀ time velocity h, trigger e missing time velocity h = h)
  ∧ (∀ g insts stepIndex time h,
       (∀ inst, inst ∈ insts →
          audioCtx e = true → master e = true → (0 <= time)%Q →
          (0 < velocityAtStep g (id inst) stepIndex)%Z →
          is_Some (buffers e !! id inst) →
          mkSourceStart (id inst) time
            (Qmax' 0 (Qmin' 1 (inject_Z (velocityAtStep g (id inst) stepIndex)
                               / (127 # 1))))
          ∈ started (scheduleStep e g insts stepIndex time h))
       ∧ (∀ st, st ∈ started (scheduleStep e g insts stepIndex time h) →
            st ∈ started h ∨ start_inst st ≠ missing)
       ∧ currentTime (scheduleStep e g insts stepIndex time h) = currentTime h
       ∧ intervals (scheduleStep e g insts stepIndex time h) = intervals h
       ∧ pendingPlays (scheduleStep e g insts stepIndex time h)
         = pendingPlays h)
  ∧ (audioCtx e = true → onStep e = false →
     (0 <= nextNoteTime e)%Q → (0 < bpm e)%Q → (0 < resolution e)%Q →
     ∀ fuel snap h,
       (Qltb (nextNoteTime e) (currentTime h + scheduleAheadTimeSec) = true →
        scheduler (S fuel) snap e h
        = scheduler_loop fuel snap
            (with_transport e (isPlaying e)
               (nextCursor (snap_columns snap) (currentStep e))
               (nextNoteTime e + secondsPerStep e)%Q (timerId e))
            (scheduleStep e (snap_grid snap) (snap_instruments snap)
               (currentStep e) (nextNoteTime e) h))
       ∧ (∀ e' h', scheduler fuel snap e h = Some (e', h') →
            isPlaying e' = isPlaying e ∧ timerId e' = timerId e
            ∧ intervals h' = intervals h
            ∧ Qltb (nextNoteTime e') (currentTime h' + scheduleAheadTimeSec)
              = false
            ∧ ∃ k, currentStep e'
                   = Nat.iter k (nextCursor (snap_columns snap))
                       (currentStep e)
                   ∧ (Qltb (nextNoteTime e)
                        (currentTime h + scheduleAheadTimeSec) = true →
                      1 ≤ k))
       ∧ (∀ buf,
            transport <$> scheduler fuel snap e h
            = transport <$> scheduler fuel snap
                              (setBuffers (<[missing := buf]> (buffers e)) e)
                              h)).
Proof.
  intros Hmissing. split; [| split].
  - intros time velocity h. by apply trigger_missing.
  - intros g insts stepIndex time h. split; [| split].
    + intros inst Hin Hctx Hmaster _ Hvel Hbuf.
      rewrite scheduleStep_started. apply elem_of_app. right.
      unfold stepStarts. apply list_elem_of_In, in_flat_map.
      exists inst. split; [by apply list_elem_of_In |].
      rewrite Hctx, Hmaster. simpl.
      apply Z.ltb_lt in Hvel. rewrite Hvel.
      rewrite bool_decide_eq_true_2 by done. simpl. by left.
    + intros st. rewrite scheduleStep_started. intros Hst.
      apply elem_of_app in Hst as [Hst | Hst]; [by left | right].
      apply stepStarts_elem in Hst as (_ & inst & _ & Hid & _ & Hbuf & _).
      intros Heq. rewrite Hid in Heq. rewrite Heq, Hmissing in Hbuf.
      by destruct Hbuf.
    + split; [apply scheduleStep_clock |].
      destruct (scheduleStep_host e g insts stepIndex time h)
        as (Hi & _ & Hp).
      by split.
  - intros Hctx _ _ _ _ fuel snap h. split; [| split].
    + intros Hdue. unfold scheduler. rewrite Hctx. cbn [negb scheduler_loop].
      by rewrite Hdue.
    + intros e' h'. unfold scheduler. rewrite Hctx. cbn [negb]. intros Hloop.
      destruct (scheduler_loop_timers fuel snap e e' h h' Hloop)
        as (Hplaying & Htimer & Hints & _).
      destruct (scheduler_loop_moves fuel snap e e' h h' Hloop)
        as [Hexit Hmoved].
      by repeat split.
    + intros buf. unfold scheduler. simpl. rewrite Hctx. simpl.
      pose proof (scheduler_loop_core fuel snap e
                    (setBuffers (<[missing := buf]> (buffers e)) e) h h
                    eq_refl eq_refl) as Hcore.
      destruct (scheduler_loop fuel snap e h) as [w1 |],
        (scheduler_loop fuel snap _ h) as [w2 |]; simpl in *; try done.
      f_equal. apply transport_of_core. congruence.
Qed.

(** The engine plays from step 6 of the pattern, where the kick and the
    snare both have a hit, with the kick sample alone decoded.  The first
    poll starts the kick and nothing for the snare, and leaves the
    cursor on step 7 with the timer set. *)
Lemma missing_buffer_skips_one_trigger_witness :
  ∃ e0 h0 e' h',
    play (mkSnapshot demo_grid INSTRUMENTS (Some 8%Z)) (Some 6%Z) demo_engine
         initialHost = (e0, h0)
    ∧ audioCtx e0 = true
    ∧ buffers e0 !! "snare" = None
    ∧ velocityAtStep demo_grid "snare" 6 = 100%Z
    ∧ trigger e0 "snare" (3 # 100) 100 h0 = h0
    ∧ scheduler 5 (mkSnapshot demo_grid INSTRUMENTS (Some 8%Z)) e0 h0
      = Some (e', h')
    ∧ started h' = [mkSourceStart "kick" (3 # 100) (100 # 127)]
    ∧ currentStep e' = 7%Z
    ∧ isPlaying e' = true
    ∧ intervals h' = intervals h0.
Proof.
  destruct (play (mkSnapshot demo_grid INSTRUMENTS (Some 8%Z)) (Some 6%Z)
              demo_engine initialHost) as [e0 h0] eqn:Hplay.
  assert (e0 = with_transport (ensureContext demo_engine) true 6 (3 # 100)
                 (Some 1%Z)
          ∧ h0 = mkHost 0 true {[1%Z]} 2 [] [] []) as [-> ->].
  { vm_compute in Hplay. injection Hplay as <- <-. split; reflexivity. }
  destruct (missing_buffer_skips_one_trigger
              (with_transport (ensureContext demo_engine) true 6 (3 # 100)
                 (Some 1%Z)) "snare" eq_refl) as (Htrigger & _ & Hpoll).
  destruct (scheduler 5 (mkSnapshot demo_grid INSTRUMENTS (Some 8%Z))
              (with_transport (ensureContext demo_engine) true 6 (3 # 100)
                 (Some 1%Z)) (mkHost 0 true {[1%Z]} 2 [] [] []))
    as [[e' h'] |] eqn:Hsched; [| by vm_compute in Hsched].
  destruct (Hpoll eq_refl eq_refl ltac:(by vm_compute) eq_refl eq_refl
              5 (mkSnapshot demo_grid INSTRUMENTS (Some 8%Z))
              (mkHost 0 true {[1%Z]} 2 [] [] []))
    as (_ & Hreturned & _).
  destruct (Hreturned e' h' Hsched) as (Hplaying & _ & Hints & _ & _).
  exists (with_transport (ensureContext demo_engine) true 6 (3 # 100)
            (Some 1%Z)), (mkHost 0 true {[1%Z]} 2 [] [] []), e', h'.
  split; [reflexivity |].
  split; [reflexivity |]. split; [reflexivity |]. split; [reflexivity |].
  split; [apply Htrigger |]. split; [exact Hsched |].
  assert (started h' = [mkSourceStart "kick" (3 # 100) (100 # 127)]
          ∧ currentStep e' = 7%Z) as [Hst Hcur].
  { vm_compute in Hsched. injection Hsched as <- <-. split; reflexivity. }
  split; [exact Hst |]. split; [exact Hcur |].
  split; [exact Hplaying | exact Hints].
Defined.

(** Every sample [scheduleStep] starts belongs to an instrument of the
    list that has a positive velocity at the step and a decoded buffer, is
    due at the time of the step, and plays at a gain between 0 and 1: the
    velocity over 127, cut at 1. *)
Theorem starts_have_a_hit_and_a_gain (e : Engine) (g : Grid)
    (insts : list Instrument) (stepIndex : Z) (time : Q) (h : Host)
    (st : SourceStart) :
  st ∈ started (scheduleStep e g insts stepIndex time h) →
  st ∈ started h
  ∨ (start_time st = time
     ∧ (0 <= start_gain st <= 1)%Q
     ∧ ∃ inst, inst ∈ insts ∧ start_inst st = id inst
               ∧ (0 < velocityAtStep g (id inst) stepIndex)%Z
               ∧ is_Some (buffers e !! id inst)
               ∧ (start_gain st
                  == if (velocityAtStep g (id inst) stepIndex <=? 127)%Z
                     then inject_Z (velocityAtStep g (id inst) stepIndex)
                          / (127 # 1)
                     else 1)%Q).
Proof.
  rewrite scheduleStep_started. intros H.
  apply elem_of_app in H as [H | H]; [by left | right].
  apply stepStarts_elem in H as (Ht & inst & Hin & Hid & Hvel & Hbuf & Hg).
  split; [done |]. split; [rewrite Hg; apply gainOf_range |].
  exists inst. repeat split; try done. rewrite Hg. unfold gainOf, Qmax', Qmin'.
  set (v := velocityAtStep g (id inst) stepIndex) in *.
  assert (0 < inject_Z v)%Q as Hpos.
  { change 0%Q with (inject_Z 0). by rewrite <- Zlt_Qlt. }
  destruct (v <=? 127)%Z eqn:E.
  - apply Z.leb_le in E.
    assert (inject_Z v <= 127 # 1)%Q as Hle.
    { change (127 # 1) with (inject_Z 127). by rewrite <- Zle_Qle. }
    assert (0 <= inject_Z v / (127 # 1))%Q as H0.
    { apply Qle_shift_div_l; lra. }
    assert (inject_Z v / (127 # 1) <= 1)%Q as H1.
    { apply Qle_shift_div_r; lra. }
    destruct (Qle_bool 1 (inject_Z v / (127 # 1))) eqn:E1.
    + apply Qle_bool_iff in E1. simpl. lra.
    + apply Qle_bool_iff in H0. by rewrite H0.
  - apply Z.leb_gt in E.
    assert (127 # 1 < inject_Z v)%Q as Hgt.
    { change (127 # 1) with (inject_Z 127). by rewrite <- Zlt_Qlt. }
    assert (1 <= inject_Z v / (127 # 1))%Q as H1.
    { apply Qle_shift_div_l; lra. }
    apply Qle_bool_iff in H1. rewrite H1. simpl. reflexivity.
Qed.

Lemma starts_have_a_hit_and_a_gain_witness :
  ∃ st, started (scheduleStep (ensureContext demo_engine) single_hit_grid
                   INSTRUMENTS 0 (3 # 100) initialHost) = [st]
        ∧ start_time st = 3 # 100 ∧ (0 <= start_gain st <= 1)%Q.
Proof.
  eexists. split; [reflexivity |].
  destruct (starts_have_a_hit_and_a_gain (ensureContext demo_engine)
              single_hit_grid INSTRUMENTS 0 (3 # 100) initialHost
              (mkSourceStart "kick" (3 # 100) (gainOf 100)))
    as [Hold | (Ht & Hg & _)].
  - vm_compute. apply list_elem_of_In. left. reflexivity.
  - vm_compute in Hold. by apply elem_of_nil in Hold.
  - split; [reflexivity | exact Hg].
Defined.

(** With no [onStep] callback set and times that are not negative, a
    poll that returns has played some [k] steps in a row from the
    cursor, wrapping at [columns]: the samples it asked for are, step by
    step and in the order of the instrument list, those of the
    instruments with a hit at the step and a decoded buffer, all samples
    of a step with one common time; nothing else is started, and the
    cursor ends [k] steps on. *)
Theorem poll_plays_steps_in_order (fuel : nat) (snap : Snapshot)
    (e e' : Engine) (h h' : Host) :
  onStep e = false →
  (0 <= nextNoteTime e)%Q → (0 < bpm e)%Q → (0 < resolution e)%Q →
  scheduler fuel snap e h = Some (e', h') →
  ∃ (k : nat) (times : list Q),
    length times = k
    ∧ currentStep e'
      = Nat.iter k (nextCursor (snap_columns snap)) (currentStep e)
    ∧ started h'
      = (started h
         ++ flat_map (λ p, stepStarts e (snap_grid snap)
                             (snap_instruments snap) (fst p) (snd p))
              (zip ((λ j, Nat.iter j (nextCursor (snap_columns snap))
                            (currentStep e)) <$> seq 0 k)
                   times))%list
    ∧ stepCalls h' = stepCalls h.
Proof.
  intros Hon _ _ _. unfold scheduler.
  destruct (negb (audioCtx e)).
  { intros [= <- <-]. exists 0, []. simpl. by rewrite app_nil_r. }
  intros Hloop.
  apply scheduler_loop_poll in Hloop
    as (k & _ & _ & Hend & _ & Hcalls & Hstarted & _).
  destruct (pollEnd_closed k (snap_columns snap) (currentStep e)
              (nextNoteTime e) (secondsPerStep e)) as [Hc _].
  rewrite <- Hend in Hc. simpl in Hc.
  exists k, (snd <$> pollSteps k (snap_columns snap) (currentStep e)
                       (nextNoteTime e) (secondsPerStep e)).
  split; [by rewrite length_fmap, pollSteps_length |].
  split; [exact Hc |]. split.
  - rewrite <- (pollSteps_cursors k (snap_columns snap) (currentStep e)
                  (nextNoteTime e) (secondsPerStep e)).
    by rewrite zip_fst_snd.
  - rewrite Hcalls, Hon. by rewrite app_nil_r.
Qed.

(** The engine plays the pattern from step 6 with the kick sample
    decoded and the clock at one second: the poll plays steps 6, 7, 0,
    ... and starts the kick where the pattern has it. *)
Lemma poll_plays_steps_in_order_witness :
  ∃ e' h' k,
    scheduler 40 (mkSnapshot demo_grid INSTRUMENTS (Some 8%Z))
      (with_transport (ensureContext demo_engine) true 6 (3 # 100) (Some 1%Z))
      (mkHost (1 # 1) true {[1%Z]} 2 [] [] []) = Some (e', h')
    ∧ currentStep e' = Nat.iter k (nextCursor (Some 8%Z)) 6%Z
    ∧ start_inst <$> started h' = ["kick"; "kick"; "kick"; "kick"].
Proof.
  destruct (scheduler 40 (mkSnapshot demo_grid INSTRUMENTS (Some 8%Z))
              (with_transport (ensureContext demo_engine) true 6 (3 # 100)
                 (Some 1%Z))
              (mkHost (1 # 1) true {[1%Z]} 2 [] [] []))
    as [[e' h'] |] eqn:Hpoll; [| by vm_compute in Hpoll].
  destruct (poll_plays_steps_in_order 40
              (mkSnapshot demo_grid INSTRUMENTS (Some 8%Z))
              (with_transport (ensureContext demo_engine) true 6 (3 # 100)
                 (Some 1%Z))
              e' (mkHost (1 # 1) true {[1%Z]} 2 [] [] []) h'
              eq_refl ltac:(by vm_compute) eq_refl eq_refl Hpoll)
    as (k & times & _ & Hcursor & _).
  exists e', h', k. split; [reflexivity |]. split; [exact Hcursor |].
  vm_compute in Hpoll. by injection Hpoll as <- <-.
Defined.

(** With the cursor inside the columns of the snapshot, a poll leaves it
    inside them: after [k] steps it stands at (cursor + k) modulo
    [columns], back at 0 after the last column. *)
Theorem cursor_stays_in_columns (fuel : nat) (snap : Snapshot)
    (e e' : Engine) (h h' : Host) (c : Z) :
  snap_columns snap = Some c → (1 ≤ c)%Z → (0 ≤ currentStep e < c)%Z →
  scheduler_loop fuel snap e h = Some (e', h') →
  (0 ≤ currentStep e' < c)%Z
  ∧ ∃ k, currentStep e' = ((currentStep e + Z.of_nat k) mod c)%Z
         ∧ (onStep e = true →
              stepCalls h'
              = (stepCalls h
                 ++ ((λ j, ((currentStep e + Z.of_nat j) mod c)%Z)
                     <$> seq 0 k))%list).
Proof.
  intros Hcols Hc Hcur Hloop.
  apply scheduler_loop_poll in Hloop
    as (k & _ & _ & Hend & _ & Hcalls & _).
  destruct (pollEnd_closed k (snap_columns snap) (currentStep e)
              (nextNoteTime e) (secondsPerStep e)) as [Hcursor _].
  rewrite <- Hend, Hcols in Hcursor. simpl in Hcursor.
  rewrite cursor_wraps in Hcursor by done.
  split; [rewrite Hcursor; apply Z.mod_pos_bound; lia |].
  exists k. split; [done |]. intros Hon. rewrite Hcalls, Hon. f_equal.
  rewrite pollSteps_cursors, Hcols. apply list_fmap_ext. intros i j _.
  by apply cursor_wraps.
Qed.

Lemma cursor_stays_in_columns_witness :
  ∃ e' h',
    scheduler_loop 40 demo_snapshot
      (with_transport (ensureContext demo_engine) true 6 0 (Some 1%Z))
      (mkHost (1 # 1) true {[1%Z]} 2 [] [] []) = Some (e', h')
    ∧ (0 ≤ currentStep e' < 8)%Z.
Proof.
  destruct (scheduler_loop 40 demo_snapshot
              (with_transport (ensureContext demo_engine) true 6 0 (Some 1%Z))
              (mkHost (1 # 1) true {[1%Z]} 2 [] [] []))
    as [[e' h'] |] eqn:Hloop; [| by vm_compute in Hloop].
  exists e', h'. split; [done |].
  apply (cursor_stays_in_columns 40 demo_snapshot
           (with_transport (ensureContext demo_engine) true 6 0 (Some 1%Z))
           e' (mkHost (1 # 1) true {[1%Z]} 2 [] [] []) h' 8);
    [reflexivity | lia | simpl; lia | exact Hloop].
Defined.

(** ** Steps keep their times *)

Lemma pollSteps_app (k1 k2 : nat) (columns : option Z) (cur : Z)
    (next sps : Q) :
  pollSteps (k1 + k2) columns cur next sps
  = (pollSteps k1 columns cur next sps
     ++ pollSteps k2 columns (fst (pollEnd k1 columns cur next sps))
          (snd (pollEnd k1 columns cur next sps)) sps)%list.
Proof.
  revert cur next. induction k1 as [| k1 IH]; intros cur next; [done |].
  cbn [Nat.add pollSteps pollEnd app]. by rewrite IH.
Qed.

Lemma pollEnd_app (k1 k2 : nat) (columns : option Z) (cur : Z)
    (next sps : Q) :
  pollEnd (k1 + k2) columns cur next sps
  = pollEnd k2 columns (fst (pollEnd k1 columns cur next sps))
      (snd (pollEnd k1 columns cur next sps)) sps.
Proof.
  revert cur next. induction k1 as [| k1 IH]; intros cur next; [done |].
  cbn [Nat.add pollEnd]. by rewrite IH.
Qed.

Lemma stepStarts_ext (e1 e2 : Engine) (g : Grid) (insts : list Instrument)
    (stepIndex : Z) (time : Q) :
  audioCtx e1 = audioCtx e2 → master e1 = master e2 →
  buffers e1 = buffers e2 →
  stepStarts e1 g insts stepIndex time = stepStarts e2 g insts stepIndex time.
Proof. intros Hctx Hm Hb. unfold stepStarts. by rewrite Hctx, Hm, Hb. Qed.

(** What a run of polls and clock advances has played: some number of
    steps in a row from where the engine stood. *)
Lemma run_polls (snap : Snapshot) (evs : list Event) (w w' : World) :
  Forall (poll_or_clock snap) evs →
  run evs w = Some w' →
  ∃ K,
    started (snd w')
    = (started (snd w)
       ++ flat_map (λ p, stepStarts (fst w) (snap_grid snap)
                           (snap_instruments snap) (fst p) (snd p))
            (pollSteps K (snap_columns snap) (currentStep (fst w))
               (nextNoteTime (fst w)) (secondsPerStep (fst w))))%list
    ∧ (currentStep (fst w'), nextNoteTime (fst w'))
      = pollEnd K (snap_columns snap) (currentStep (fst w))
          (nextNoteTime (fst w)) (secondsPerStep (fst w)).
Proof.
  intros Hevs. revert w.
  induction Hevs as [| ev evs Hev _ IH]; intros w Hrun.
  - injection Hrun as <-. exists 0. simpl. by rewrite app_nil_r.
  - cbn [run] in Hrun. destruct w as [e h].
    destruct (step ev (e, h)) as [[e1 h1] |] eqn:Hstep; [| done].
    assert (∃ k,
              started h1
              = (started h
                 ++ flat_map (λ p, stepStarts e (snap_grid snap)
                                     (snap_instruments snap) (fst p) (snd p))
                      (pollSteps k (snap_columns snap) (currentStep e)
                         (nextNoteTime e) (secondsPerStep e)))%list
              ∧ (currentStep e1, nextNoteTime e1)
                = pollEnd k (snap_columns snap) (currentStep e)
                    (nextNoteTime e) (secondsPerStep e)
              ∧ secondsPerStep e1 = secondsPerStep e
              ∧ audioCtx e1 = audioCtx e ∧ master e1 = master e
              ∧ buffers e1 = buffers e) as (k & Hst1 & Hend1 & Hsps & Hsame).
    { destruct ev; try done; simpl in Hev, Hstep.
      - subst snap0. destruct (decide (handle ∈ intervals h)).
        + unfold scheduler in Hstep. destruct (negb (audioCtx e)).
          * injection Hstep as <- <-. exists 0. simpl.
            by rewrite app_nil_r.
          * apply scheduler_loop_poll in Hstep
              as (k & _ & _ & Hend & _ & _ & Hstarted & _ & Hb & Hr & Hbuf
                  & Hctx & Hm & _).
            exists k. split; [exact Hstarted |]. split; [exact Hend |].
            split; [unfold secondsPerStep; by rewrite Hb, Hr | done].
        + injection Hstep as <- <-. exists 0. simpl. by rewrite app_nil_r.
      - injection Hstep as <- <-. exists 0. simpl. by rewrite app_nil_r. }
    destruct (IH (e1, h1) Hrun) as (K & Hst & Hend). cbn [fst snd] in *.
    destruct Hsame as (Hctx & Hm & Hbuf).
    exists (k + K). rewrite pollSteps_app, pollEnd_app, flat_map_app.
    rewrite <- Hend1. cbn [fst snd]. rewrite Hsps in Hst, Hend.
    split; [| exact Hend].
    rewrite Hst, Hst1, <- app_assoc. do 2 f_equal.
    apply flat_map_ext. intros p. by apply stepStarts_ext.
Qed.

Lemma pollSteps_prefix (k1 k2 : nat) (columns : option Z) (cur : Z)
    (next sps : Q) :
  k1 ≤ k2 →
  pollSteps k1 columns cur next sps `prefix_of`
  pollSteps k2 columns cur next sps.
Proof.
  intros Hle. replace k2 with (k1 + (k2 - k1)) by lia.
  rewrite pollSteps_app. by eexists.
Qed.

(** With no [onStep] callback set and times that are not negative, and
    while the pattern is not touched: take any two ways the polls and
    the clock may go from one state of the engine, as many polls as one
    likes at whatever instants.  The samples asked for on one way
    (instrument, time and gain of each) are the first of those asked for
    on the other.  When the polls come decides how far the music has
    got, never which sample sounds when. *)
Theorem poll_instants_do_not_shift_steps (snap : Snapshot)
    (evs1 evs2 : list Event) (w w1 w2 : World) :
  onStep (fst w) = false →
  (0 <= nextNoteTime (fst w))%Q →
  (0 < bpm (fst w))%Q → (0 < resolution (fst w))%Q →
  Forall (poll_or_clock snap) evs1 → Forall (poll_or_clock snap) evs2 →
  run evs1 w = Some w1 → run evs2 w = Some w2 →
  started (snd w1) `prefix_of` started (snd w2)
  ∨ started (snd w2) `prefix_of` started (snd w1).
Proof.
  intros _ _ _ _ Hevs1 Hevs2 Hrun1 Hrun2.
  destruct (run_polls snap evs1 w w1 Hevs1 Hrun1) as (K1 & -> & _).
  destruct (run_polls snap evs2 w w2 Hevs2 Hrun2) as (K2 & -> & _).
  assert (∀ (l1 l2 : list (Z * Q)),
            l1 `prefix_of` l2 →
            (started (snd w)
             ++ flat_map (λ p, stepStarts (fst w) (snap_grid snap)
                                 (snap_instruments snap) (fst p) (snd p))
                  l1)%list
            `prefix_of`
            (started (snd w)
             ++ flat_map (λ p, stepStarts (fst w) (snap_grid snap)
                                 (snap_instruments snap) (fst p) (snd p))
                  l2)%list)
    as Hprefix.
  { intros l1 l2 [l ->]. rewrite flat_map_app, app_assoc. by eexists. }
  destruct (Nat.le_ge_cases K1 K2) as [Hle | Hle].
  - left. by apply Hprefix, pollSteps_prefix.
  - right. by apply Hprefix, pollSteps_prefix.
Qed.

(** The same pattern played from the same state, polled once after
    0.4 s and polled every 0.1 s: what the one poll has started is the
    beginning of what the four have started. *)
Lemma poll_instants_do_not_shift_steps_witness :
  ∃ w1 w2,
    run [ClockAdvance (40 # 100);
         Tick 1 (mkSnapshot demo_grid INSTRUMENTS (Some 8%Z))]
        (play (mkSnapshot demo_grid INSTRUMENTS (Some 8%Z)) None demo_engine
              initialHost) = Some w1
    ∧ run [ClockAdvance (10 # 100);
           Tick 1 (mkSnapshot demo_grid INSTRUMENTS (Some 8%Z));
           ClockAdvance (10 # 100);
           Tick 1 (mkSnapshot demo_grid INSTRUMENTS (Some 8%Z));
           ClockAdvance (10 # 100);
           Tick 1 (mkSnapshot demo_grid INSTRUMENTS (Some 8%Z));
           ClockAdvance (20 # 100);
           Tick 1 (mkSnapshot demo_grid INSTRUMENTS (Some 8%Z))]
          (play (mkSnapshot demo_grid INSTRUMENTS (Some 8%Z)) None
                demo_engine initialHost) = Some w2
    ∧ started (snd w1) ≠ []
    ∧ (started (snd w1) `prefix_of` started (snd w2)
       ∨ started (snd w2) `prefix_of` started (snd w1)).
Proof.
  destruct (run [ClockAdvance (40 # 100);
                 Tick 1 (mkSnapshot demo_grid INSTRUMENTS (Some 8%Z))]
                (play (mkSnapshot demo_grid INSTRUMENTS (Some 8%Z)) None
                      demo_engine initialHost))
    as [w1 |] eqn:Hrun1; [| by vm_compute in Hrun1].
  destruct (run [ClockAdvance (10 # 100);
                 Tick 1 (mkSnapshot demo_grid INSTRUMENTS (Some 8%Z));
                 ClockAdvance (10 # 100);
                 Tick 1 (mkSnapshot demo_grid INSTRUMENTS (Some 8%Z));
                 ClockAdvance (10 # 100);
                 Tick 1 (mkSnapshot demo_grid INSTRUMENTS (Some 8%Z));
                 ClockAdvance (20 # 100);
                 Tick 1 (mkSnapshot demo_grid INSTRUMENTS (Some 8%Z))]
                (play (mkSnapshot demo_grid INSTRUMENTS (Some 8%Z)) None
                      demo_engine initialHost))
    as [w2 |] eqn:Hrun2; [| by vm_compute in Hrun2].
  exists w1, w2. split; [reflexivity |]. split; [reflexivity |]. split.
  { vm_compute in Hrun1. by injection Hrun1 as <-. }
  apply (poll_instants_do_not_shift_steps
           (mkSnapshot demo_grid INSTRUMENTS (Some 8%Z))
           [ClockAdvance (40 # 100);
            Tick 1 (mkSnapshot demo_grid INSTRUMENTS (Some 8%Z))]
           [ClockAdvance (10 # 100);
            Tick 1 (mkSnapshot demo_grid INSTRUMENTS (Some 8%Z));
            ClockAdvance (10 # 100);
            Tick 1 (mkSnapshot demo_grid INSTRUMENTS (Some 8%Z));
            ClockAdvance (10 # 100);
            Tick 1 (mkSnapshot demo_grid INSTRUMENTS (Some 8%Z));
            ClockAdvance (20 # 100);
            Tick 1 (mkSnapshot demo_grid INSTRUMENTS (Some 8%Z))]
           (play (mkSnapshot demo_grid INSTRUMENTS (Some 8%Z)) None
                 demo_engine initialHost) w1 w2
           eq_refl ltac:(by vm_compute) eq_refl eq_refl
           ltac:(by repeat constructor) ltac:(by repeat constructor)
           Hrun1 Hrun2).
Defined.

(** ** Silence after [stop] *)

Lemma no_trigger_after_stop_witness :
  ∃ e1 h1 w',
    run [CallSetBuffers {["kick" := mkAudioBuffer 0]}; CallPlay None;
         ContextResumed; ResumePlay demo_snapshot]
        (initialEngine, initialHost) = Some (e1, h1)
    ∧ isPlaying e1 = true
    ∧ run [Tick 1 demo_snapshot; ClockAdvance (1 # 1); Tick 1 demo_snapshot;
           CallSetOnStep true; ResumePlay demo_snapshot]
          (stop e1 h1) = Some w'
    ∧ isPlaying (fst w') = false
    ∧ started (snd w') = started h1.
Proof.
  destruct (run [CallSetBuffers {["kick" := mkAudioBuffer 0]}; CallPlay None;
                 ContextResumed; ResumePlay demo_snapshot]
                (initialEngine, initialHost)) as [[e1 h1] |] eqn:Hrun;
    [| by vm_compute in Hrun].
  pose proof (timers_ok_run _ _ _ timers_ok_initial Hrun) as Hok.
  assert (isPlaying e1 = true ∧ pendingPlays h1 = []) as [Hplay Hpending].
  { vm_compute in Hrun. by injection Hrun as <- <-. }
  destruct (no_trigger_after_stop
              [Tick 1 demo_snapshot; ClockAdvance (1 # 1);
               Tick 1 demo_snapshot; CallSetOnStep true;
               ResumePlay demo_snapshot] e1 h1 Hok Hpending)
    as (w' & Hrun' & Hstopped & Hstarted).
  { repeat constructor. }
  exists e1, h1, w'. done.
Defined.

(** * Further properties of the grid: resizing and the counting row *)

Lemma velocityAt_resizeGrid (columns : nat) (prev : Grid) (inst : string)
    (i : nat) :
  inst ∈ id <$> INSTRUMENTS →
  velocityAt (resizeGrid columns prev) inst i
  = if i <? columns then velocityAt prev inst i else 0%Z.
Proof.
  intros Hinst. unfold velocityAt at 1.
  rewrite resizeGrid_lookup, decide_True by by apply elem_of_list_to_set.
  simpl. rewrite list_lookup_fmap.
  destruct (i <? columns) eqn:Hi.
  - apply Nat.ltb_lt in Hi. by rewrite lookup_seq_lt.
  - apply Nat.ltb_ge in Hi. by rewrite lookup_seq_ge.
Qed.

Lemma resizeGrid_twice (c c' : nat) (g : Grid) :
  c ≤ c' → resizeGrid c (resizeGrid c' g) = resizeGrid c g.
Proof.
  intros Hc. apply map_eq. intros k. rewrite !resizeGrid_lookup.
  destruct (decide (k ∈ instrument_ids)) as [Hin | Hnin]; [| done].
  unfold instrument_ids in Hin. apply elem_of_list_to_set in Hin.
  f_equal. apply list_fmap_ext. intros i idx Hidx.
  apply lookup_seq in Hidx as [-> Hi].
  rewrite velocityAt_resizeGrid by done.
  assert ((0 + i <? c') = true) as -> by (apply Nat.ltb_lt; lia). done.
Qed.

(** Bars added and then removed leave the grid as it was.  Bars removed
    and then added come back empty: the cells past the smaller size
    are 0. *)
Theorem bars_added_then_removed (c c' : nat) (g : Grid) :
  c ≤ c' →
  (grid_shape c g → resizeGrid c (resizeGrid c' g) = g)
  ∧ (∀ inst i, inst ∈ id <$> INSTRUMENTS →
       velocityAt (resizeGrid c' (resizeGrid c g)) inst i
       = if i <? c then velocityAt g inst i else 0%Z).
Proof.
  intros Hc. split.
  - intros Hshape. rewrite resizeGrid_twice by done.
    by apply resizeGrid_same.
  - intros inst i Hinst. rewrite !velocityAt_resizeGrid by done.
    destruct (i <? c) eqn:Hi; [| by destruct (i <? c')].
    apply Nat.ltb_lt in Hi.
    assert ((i <? c') = true) as -> by (apply Nat.ltb_lt; lia). done.
Qed.

Lemma bars_added_then_removed_witness :
  resizeGrid 8 (resizeGrid 16 demo_grid) = demo_grid
  ∧ velocityAt (resizeGrid 8 (resizeGrid 4 demo_grid)) "kick" 4 = 0%Z.
Proof.
  split.
  - apply (proj1 (bars_added_then_removed 8 16 demo_grid ltac:(lia))).
    split; compute_done.
  - rewrite (proj2 (bars_added_then_removed 4 8 demo_grid ltac:(lia))
               "kick" 4 ltac:(compute_done)).
    reflexivity.
Defined.

Lemma resizeGrid_pads_and_truncates_witness :
  velocityAt (resizeGrid 4 demo_grid) "kick" 4 = 0%Z
  ∧ velocityAt (resizeGrid 4 demo_grid) "snare" 2 = 100%Z.
Proof.
  split.
  - rewrite (proj2 (resizeGrid_pads_and_truncates 4 demo_grid) "kick" 4
               ltac:(compute_done)).
    reflexivity.
  - rewrite (proj2 (resizeGrid_pads_and_truncates 4 demo_grid) "snare" 2
               ltac:(compute_done)).
    reflexivity.
Defined.

Lemma timeline_covers_columns_witness : 10 = 1 * 8 + 2 ∧ 1 < 2 ∧ 2 < 8.
Proof.
  apply (proj2 (proj2 (timeline_covers_columns 2 8)) 10 1 2).
  apply list_elem_of_In. vm_compute.
  repeat first [left; reflexivity | right].
Defined.

(** ** The counting row *)

Lemma pretty_N_go_digit (x : N) (s : string) :
  (0 < x)%N → ∃ d s', pretty_N_go x s = String (pretty_N_char d) s'.
Proof.
  revert s. induction (N.lt_wf_0 x) as [x _ IH]. intros s Hx.
  rewrite pretty_N_go_step by done.
  destruct (decide (x `div` 10 = 0)%N) as [Hz | Hnz].
  - rewrite Hz, pretty_N_go_0. by eexists _, _.
  - apply IH; [apply N.div_lt; lia | by apply N.neq_0_lt_0].
Qed.

Lemma pretty_nat_digit (n : nat) :
  ∃ d s', pretty n = String (pretty_N_char d) s'.
Proof.
  unfold pretty, pretty_nat, pretty, pretty_N.
  destruct (decide (N.of_nat n = 0%N)) as [Hz | Hnz].
  - by exists 0%N, "".
  - apply pretty_N_go_digit. lia.
Qed.

Lemma pretty_not_subdivision (n : nat) : pretty n ∉ subdivision_labels.
Proof.
  destruct (pretty_nat_digit n) as (d & s' & ->). unfold subdivision_labels.
  rewrite !elem_of_cons, elem_of_nil.
  intros [H | [H | [H | [H | []]]]]; injection H as Hc _; revert Hc;
    unfold pretty_N_char; repeat case_match; done.
Qed.

Lemma labelFor_beat (k d n b : nat) :
  0 < d → 1 ≤ k →
  labelFor (k * d) (mkTimeSig n d) (b * k) = pretty (b + 1).
Proof.
  intros Hd Hk. unfold labelFor. cbn [ts_d].
  rewrite js_round_div_same, Nat.max_r by lia.
  rewrite Nat.div_mul, Nat.Div0.mod_mul by lia.
  destruct (k =? 1); [done |]. destruct (k =? 2); [done |].
  by destruct (k =? 4).
Qed.

Lemma labelFor_sub (k d n b sub : nat) :
  0 < d → 0 < sub < k →
  labelFor (k * d) (mkTimeSig n d) (b * k + sub) ∈ subdivision_labels.
Proof.
  intros Hd Hsub. unfold labelFor, subdivision_labels. cbn [ts_d].
  rewrite js_round_div_same, Nat.max_r by lia.
  rewrite Nat.div_add_l, (Nat.div_small sub k) by lia.
  rewrite (Nat.add_comm (b * k) sub), Nat.Div0.mod_add, Nat.mod_small by lia.
  destruct (k =? 1) eqn:E1; [apply Nat.eqb_eq in E1; lia |].
  assert ((sub =? 0) = false) as -> by (apply Nat.eqb_neq; lia).
  destruct (k =? 2) eqn:E2; [compute_done |].
  destruct (k =? 4) eqn:E4; [| compute_done].
  apply Nat.eqb_eq in E4.
  destruct sub as [| [| [| [| sub]]]]; try lia; compute_done.
Qed.

Lemma filter_none {A : Type} (P : A → Prop) `{!∀ x, Decision (P x)}
    (l : list A) :
  Forall (λ x, ¬ P x) l → filter P l = [].
Proof.
  induction 1 as [| x l Hx _ IH]; [done |].
  by rewrite filter_cons_False.
Qed.

Lemma labels_of_a_beat (k d n b : nat) :
  0 < d → 1 ≤ k →
  filter (λ l, l ∉ subdivision_labels)
    (labelFor (k * d) (mkTimeSig n d) <$> seq (b * k) k)
  = [pretty (b + 1)].
Proof.
  intros Hd Hk. destruct k as [| k']; [lia |].
  cbn [seq]. rewrite fmap_cons, labelFor_beat by lia.
  rewrite filter_cons_True by apply pretty_not_subdivision.
  f_equal. apply filter_none. apply Forall_fmap, Forall_seq.
  intros i Hi. unfold compose. cbv beta.
  replace i with (b * S k' + (i - b * S k')) by lia.
  intros Hnot. apply Hnot. apply labelFor_sub; lia.
Qed.

Lemma labels_of_beats (k d n beats : nat) :
  0 < d → 1 ≤ k →
  filter (λ l, l ∉ subdivision_labels)
    (labelFor (k * d) (mkTimeSig n d) <$> seq 0 (beats * k))
  = pretty <$> seq 1 beats.
Proof.
  intros Hd Hk. induction beats as [| beats IH]; [done |].
  replace (S beats * k) with (beats * k + k) by lia.
  rewrite seq_app, fmap_app, filter_app, IH. cbn [Nat.add].
  rewrite labels_of_a_beat by done.
  rewrite seq_S, fmap_app. cbn [fmap list_fmap].
  by rewrite (Nat.add_comm 1 beats).
Qed.

(** When the resolution is a multiple of the denominator, the counting
    row of a bar of n/d shows each beat number 1, ..., n once and in
    order, each on the first step of its beat; every other label is one
    of e, &, a and the dot. *)
Theorem counting_row_numbers_the_beats (n d k : nat) :
  0 < n → 0 < d → 1 ≤ k →
  computeStepsPerBar (mkTimeSig n d) (k * d) = n * k
  ∧ filter (λ l, l ∉ subdivision_labels)
      (labelFor (k * d) (mkTimeSig n d)
       <$> seq 0 (computeStepsPerBar (mkTimeSig n d) (k * d)))
    = pretty <$> seq 1 n
  ∧ ∀ b, b < n →
      labelFor (k * d) (mkTimeSig n d) (b * k) = pretty (b + 1).
Proof.
  intros Hn Hd Hk.
  assert (computeStepsPerBar (mkTimeSig n d) (k * d) = n * k) as Hspb.
  { unfold computeStepsPerBar. cbn [ts_n ts_d].
    replace (n * (k * d)) with (n * k * d) by lia.
    rewrite js_round_div_same by lia. apply Nat.max_r. nia. }
  split; [exact Hspb |]. split.
  - rewrite Hspb. by apply labels_of_beats.
  - intros b _. by apply labelFor_beat.
Qed.

Lemma counting_row_numbers_the_beats_witness :
  labelFor 16 (mkTimeSig 6 8) <$> seq 0 12
  = ["1"; "&"; "2"; "&"; "3"; "&"; "4"; "&"; "5"; "&"; "6"; "&"]
  ∧ filter (λ l, l ∉ subdivision_labels)
      (labelFor 16 (mkTimeSig 6 8)
       <$> seq 0 (computeStepsPerBar (mkTimeSig 6 8) 16))
    = pretty <$> seq 1 6.
Proof.
  split; [reflexivity |].
  apply (counting_row_numbers_the_beats 6 8 2); lia.
Defined.
